(** * The lookup-tree helpers of extraterm-font-ligatures

    A shallow embedding of
    [src/packages/extraterm-font-ligatures/src/processors/helper.ts]:
    the glyph deduplicator, the two substitution resolvers and the four
    tree-building steps, together with the properties the specification
    states about them.

    Glyph IDs are JavaScript numbers holding integers and are modelled as
    [Z].  Objects with identity (tree entries and branch-points) live in a
    store and are referred to by location.

    The last part embeds the [Color] class of
    [src/packages/extraterm-color-utilities/src/ColorUtilities.ts], with
    the 32-bit operators, [parseInt] and [toString] of radix 16 it relies
    on. *)

From Stdlib Require Import ZArith Lia.
From stdpp Require Import base option list gmap.

Local Open Scope Z_scope.

(** * The program *)

(** ** Glyph specs *)

(** [number | [number, number]]: a single glyph ID or a [low, high] pair. *)
Inductive GlyphSpec : Type :=
  | Single (glyphId : Z)
  | Range (low high : Z).

#[global] Instance GlyphSpec_eq_dec : EqDecision GlyphSpec.
Proof. solve_decision. Defined.

(** ** dedupGlyphs *)

Module Dedup.

(** The three locals of [dedupGlyphs]: the [result] array, the
    [Set<number>] of single glyphs and the [Set<[number, number]>] of pairs.
    The set of pairs holds array objects and is only ever iterated in
    insertion order, so it is a list. *)
Record State : Type := mkState {
  result : list GlyphSpec;
  singleGlyphs : gset Z;
  pairGlyphs : list (Z * Z)
}.

Definition initial : State := mkState [] ∅ [].

(** The inner loop over [pairGlyphs]:
    [pair[0] === glyph[0] && pair[1] === glyph[1]], leaving at the first hit. *)
Fixpoint pairFound (low high : Z) (pairs : list (Z * Z)) : bool :=
  match pairs with
  | [] => false
  | p :: rest =>
      if (p.1 =? low) && (p.2 =? high) then true
      else pairFound low high rest
  end.

(** One iteration of the outer loop. *)
Definition step (st : State) (glyph : GlyphSpec) : State :=
  match glyph with
  | Range low high =>
      if pairFound low high (pairGlyphs st) then st
      else mkState (result st ++ [glyph]) (singleGlyphs st)
                   (pairGlyphs st ++ [(low, high)])
  | Single g =>
      if decide (g ∈ singleGlyphs st) then st
      else mkState (result st ++ [glyph]) ({[g]} ∪ singleGlyphs st)
                   (pairGlyphs st)
  end.

Definition loop (glyphs : list GlyphSpec) (st : State) : State :=
  fold_left step glyphs st.

End Dedup.

Definition dedupGlyphs (glyphs : list GlyphSpec) : list GlyphSpec :=
  if (length glyphs <? 2)%nat then glyphs
  else Dedup.result (Dedup.loop glyphs Dedup.initial).

(** ** Substitution tables and lookups *)

(** A thrown JavaScript exception (here always the [TypeError] of a property
    read on [undefined]) against a normal return. *)
Inductive outcome (A : Type) : Type :=
  | Returned (a : A)
  | Thrown.
Arguments Returned {A} a.
Arguments Thrown {A}.

(** [Map<number | [number, number], number | null>]: the pairs of the map in
    insertion order, which is the order [for ... of] visits them in. *)
Definition RangeSubstitutions : Type := list (GlyphSpec * option Z).

(** Modelled from the spec: the subtable type of [tables.ts] and the two
    queries of [substitution.ts] are not among the sources.  Section 6 has a
    single-substitution table expose "a query operation mapping an input
    glyph or glyph range to an output glyph or a finer-grained partial
    mapping"; a table is modelled as the pair of those two queries, so a
    statement about all tables is a statement about all behaviours of the
    queries. *)
Record SubstitutionTable : Type := mkTable {
  individualQuery : Z → option Z;
  rangeQuery : Z * Z → RangeSubstitutions
}.

Definition getIndividualSubstitutionGlyph
    (table : SubstitutionTable) (glyphId : Z) : option Z :=
  individualQuery table glyphId.

Definition getRangeSubstitutionGlyphs
    (table : SubstitutionTable) (range : Z * Z) : RangeSubstitutions :=
  rangeQuery table range.

(** Modelled from the spec: [SubstitutionLookupRecord] and [Lookup] of
    [tables.ts], with the fields [helper.ts] reads. *)
Record SubstitutionLookupRecord : Type := mkRecord {
  sequenceIndex : Z;
  lookupListIndex : Z
}.

Record Lookup : Type := mkLookup {
  subtables : list SubstitutionTable
}.

(** [lookups[i]]: [undefined] outside the array. *)
Definition lookupAt (lookups : list Lookup) (i : Z) : option Lookup :=
  if i <? 0 then None else lookups !! Z.to_nat i.

(** [substitutions.filter(s => s.sequenceIndex === index)] *)
Definition recordsAt (substitutions : list SubstitutionLookupRecord) (index : Z)
    : list SubstitutionLookupRecord :=
  filter (λ s, sequenceIndex s = index) substitutions.

(** ** getSubstitutionAtPosition *)

(** The inner loop: the first subtable with a non-null output ends the whole
    function. *)
Fixpoint scanSubtables (tables : list SubstitutionTable) (glyphId : Z)
    : option Z :=
  match tables with
  | [] => None
  | substitutionTable :: rest =>
      match getIndividualSubstitutionGlyph substitutionTable glyphId with
      | Some sub => Some sub
      | None => scanSubtables rest glyphId
      end
  end.

(** The outer loop over the filtered records; reading [.subtables] of a
    lookup that is not there throws. *)
Fixpoint scanRecords (records : list SubstitutionLookupRecord)
    (lookups : list Lookup) (glyphId : Z) : outcome (option Z) :=
  match records with
  | [] => Returned None
  | substitution :: rest =>
      match lookupAt lookups (lookupListIndex substitution) with
      | None => Thrown
      | Some lookup =>
          match scanSubtables (subtables lookup) glyphId with
          | Some sub => Returned (Some sub)
          | None => scanRecords rest lookups glyphId
          end
      end
  end.

Definition getSubstitutionAtPosition
    (substitutions : list SubstitutionLookupRecord) (lookups : list Lookup)
    (index : Z) (glyphId : Z) : outcome (option Z) :=
  scanRecords (recordsAt substitutions index) lookups glyphId.

(** ** getSubstitutionAtPositionRange *)

(** [Array.from(sub.values()).every(val => val !== null)] *)
Definition everyNonNull (sub : RangeSubstitutions) : bool :=
  forallb (λ kv, bool_decide (kv.2 ≠ None)) sub.

Fixpoint scanSubtablesRange (tables : list SubstitutionTable) (range : Z * Z)
    : option RangeSubstitutions :=
  match tables with
  | [] => None
  | substitutionTable :: rest =>
      let sub := getRangeSubstitutionGlyphs substitutionTable range in
      if negb (everyNonNull sub) then Some sub
      else scanSubtablesRange rest range
  end.

Fixpoint scanRecordsRange (records : list SubstitutionLookupRecord)
    (lookups : list Lookup) (range : Z * Z) : outcome RangeSubstitutions :=
  match records with
  | [] => Returned [(Range range.1 range.2, None)]
  | substitution :: rest =>
      match lookupAt lookups (lookupListIndex substitution) with
      | None => Thrown
      | Some lookup =>
          match scanSubtablesRange (subtables lookup) range with
          | Some sub => Returned sub
          | None => scanRecordsRange rest lookups range
          end
      end
  end.

Definition getSubstitutionAtPositionRange
    (substitutions : list SubstitutionLookupRecord) (lookups : list Lookup)
    (index : Z) (range : Z * Z) : outcome RangeSubstitutions :=
  scanRecordsRange (recordsAt substitutions index) lookups range.

(** ** The object store *)

(** Tree entries and branch-points are JavaScript objects: they are mutated
    in place and compared by identity.  Each kind lives in its own array of
    the store, a reference is an index into it, and [new] appends. *)
Abbreviation entryRef := nat (only parsing).
Abbreviation treeRef := nat (only parsing).

(** [LookupTreeEntry]: the optional [forward] and [reverse] branch-points
    (its [lookup] field is never touched by [helper.ts]). *)
Record LookupTreeEntry : Type := mkEntry {
  forward : option treeRef;
  reverse : option treeRef
}.

(** [LookupTree]: the [individual] map and the [range] array of
    [{ range, entry }] items. *)
Record LookupTree : Type := mkTree {
  individual : gmap Z entryRef;
  range : list ((Z * Z) * entryRef)
}.

(** The objects made so far. *)
Record Store : Type := mkStore {
  entries : list LookupTreeEntry;
  trees : list LookupTree
}.

(** [{}] *)
Definition emptyEntry : LookupTreeEntry := mkEntry None None.

(** [{ individual: new Map<number, LookupTreeEntry>(), range: [] }] *)
Definition emptyTree : LookupTree := mkTree ∅ [].

(** [EntryMeta]: a tree entry with the substitutions accumulated on the way
    to it. *)
Record EntryMeta : Type := mkMeta {
  entry : entryRef;
  substitutions : list (option Z)
}.

(** ** Computations that mutate the store and may throw *)

Definition M (A : Type) : Type := Store → outcome A * Store.

#[global] Instance M_ret : MRet M := λ A a s, (Returned a, s).

#[global] Instance M_bind : MBind M := λ A B k m s,
  match m s with
  | (Returned a, s') => k a s'
  | (Thrown, s') => (Thrown, s')
  end.

Definition throw {A} : M A := λ s, (Thrown, s).

Definition lift {A} (o : outcome A) : M A := λ s, (o, s).

(** A [for ... of] loop that threads the local it pushes to. *)
Fixpoint foldM {A B} (body : B → A → M B) (l : list A) (acc : B) : M B :=
  match l with
  | [] => mret acc
  | x :: rest => acc' ← body acc x; foldM body rest acc'
  end.

Definition newEntry : M entryRef := λ s,
  (Returned (length (entries s)),
   mkStore (entries s ++ [emptyEntry]) (trees s)).

Definition newTree : M treeRef := λ s,
  (Returned (length (trees s)),
   mkStore (entries s) (trees s ++ [emptyTree])).

(** Reads and writes through a reference.  A reference that denotes no
    object of the store behaves like [undefined]: the access throws. *)
Definition readEntry (e : entryRef) : M LookupTreeEntry := λ s,
  match entries s !! e with
  | Some v => (Returned v, s)
  | None => (Thrown, s)
  end.

Definition writeEntry (e : entryRef) (v : LookupTreeEntry) : M unit := λ s,
  match entries s !! e with
  | Some _ => (Returned (), mkStore (<[e := v]> (entries s)) (trees s))
  | None => (Thrown, s)
  end.

Definition readTree (t : treeRef) : M LookupTree := λ s,
  match trees s !! t with
  | Some tr => (Returned tr, s)
  | None => (Thrown, s)
  end.

Definition writeTree (t : treeRef) (tr : LookupTree) : M unit := λ s,
  match trees s !! t with
  | Some _ => (Returned (), mkStore (entries s) (<[t := tr]> (trees s)))
  | None => (Thrown, s)
  end.

(** [e.forward = t] and [e.reverse = t] *)
Definition setForward (e : entryRef) (t : treeRef) : M unit :=
  v ← readEntry e; writeEntry e (mkEntry (Some t) (reverse v)).

Definition setReverse (e : entryRef) (t : treeRef) : M unit :=
  v ← readEntry e; writeEntry e (mkEntry (forward v) (Some t)).

(** [tree.individual.set(glyphId, child)] *)
Definition individualSet (tree : treeRef) (glyphId : Z) (child : entryRef)
    : M unit :=
  tr ← readTree tree;
  writeTree tree (mkTree (<[glyphId := child]> (individual tr)) (range tr)).

(** [tree.individual.get(glyphId)]; where it is used the key was set on the
    line before, so the [undefined] of an absent key never arises. *)
Definition individualGet (tree : treeRef) (glyphId : Z) : M entryRef :=
  tr ← readTree tree;
  match individual tr !! glyphId with
  | Some child => mret child
  | None => throw
  end.

(** [tree.range.push({ range, entry })] *)
Definition rangePush (tree : treeRef) (rng : Z * Z) (child : entryRef)
    : M unit :=
  tr ← readTree tree;
  writeTree tree (mkTree (individual tr) (range tr ++ [(rng, child)])).

(** ** getInputTree *)

(** One iteration of the loop over the entries of [subs]. *)
Definition inputTreeStep (tree : treeRef)
    (result : list (entryRef * option Z)) (kv : GlyphSpec * option Z)
    : M (list (entryRef * option Z)) :=
  let '(key, substitution) := kv in
  child ← newEntry;
  match key with
  | Range low high => rangePush tree (low, high) child
  | Single g => other ← newEntry; individualSet tree g other
  end;;
  mret (result ++ [(child, substitution)]).

Definition getInputTree (tree : treeRef)
    (substitutions : list SubstitutionLookupRecord) (lookups : list Lookup)
    (inputIndex : Z) (glyphId : GlyphSpec) : M (list (entryRef * option Z)) :=
  match glyphId with
  | Single g =>
      fresh ← newEntry;
      individualSet tree g fresh;;
      child ← individualGet tree g;
      substitution ← lift (getSubstitutionAtPosition substitutions lookups inputIndex g);
      mret [(child, substitution)]
  | Range low high =>
      subs ← lift (getSubstitutionAtPositionRange substitutions lookups inputIndex (low, high));
      foldM (inputTreeStep tree) subs []
  end.

(** ** processInputPosition *)

Definition inputGlyphStep (currentEntry : EntryMeta)
    (lookupRecords : list SubstitutionLookupRecord) (lookups : list Lookup)
    (position : Z) (nextEntries : list EntryMeta) (glyph : GlyphSpec)
    : M (list EntryMeta) :=
  v ← readEntry (entry currentEntry);
  match forward v with
  | None => throw
  | Some tree =>
      made ← getInputTree tree lookupRecords lookups position glyph;
      mret (nextEntries ++
            map (λ es, mkMeta es.1 (substitutions currentEntry ++ [es.2])) made)
  end.

Definition inputEntryStep (glyphs : list GlyphSpec) (position : Z)
    (lookupRecords : list SubstitutionLookupRecord) (lookups : list Lookup)
    (nextEntries : list EntryMeta) (currentEntry : EntryMeta)
    : M (list EntryMeta) :=
  tree ← newTree;
  setForward (entry currentEntry) tree;;
  foldM (inputGlyphStep currentEntry lookupRecords lookups position)
        (dedupGlyphs glyphs) nextEntries.

Definition processInputPosition (glyphs : list GlyphSpec) (position : Z)
    (currentEntries : list EntryMeta)
    (lookupRecords : list SubstitutionLookupRecord) (lookups : list Lookup)
    : M (list EntryMeta) :=
  foldM (inputEntryStep glyphs position lookupRecords lookups) currentEntries [].

(** ** processLookaheadPosition *)

Definition lookaheadGlyphStep (currentEntry : EntryMeta)
    (nextEntries : list EntryMeta) (glyph : GlyphSpec) : M (list EntryMeta) :=
  child ← newEntry;
  v ← readEntry (entry currentEntry);
  match forward v with
  | None => tree ← newTree; setForward (entry currentEntry) tree
  | Some _ => mret ()
  end;;
  let nextEntries := nextEntries ++ [mkMeta child (substitutions currentEntry)] in
  v ← readEntry (entry currentEntry);
  match forward v with
  | None => throw
  | Some tree =>
      match glyph with
      | Range low high => rangePush tree (low, high) child
      | Single g => individualSet tree g child
      end
  end;;
  mret nextEntries.

Definition processLookaheadPosition (glyphs : list GlyphSpec)
    (currentEntries : list EntryMeta) : M (list EntryMeta) :=
  foldM (λ nextEntries currentEntry,
           foldM (lookaheadGlyphStep currentEntry) (dedupGlyphs glyphs) nextEntries)
        currentEntries [].

(** ** processBacktrackPosition *)

Definition backtrackGlyphStep (currentEntry : EntryMeta)
    (nextEntries : list EntryMeta) (glyph : GlyphSpec) : M (list EntryMeta) :=
  child ← newEntry;
  v ← readEntry (entry currentEntry);
  match reverse v with
  | None => tree ← newTree; setReverse (entry currentEntry) tree
  | Some _ => mret ()
  end;;
  let nextEntries := nextEntries ++ [mkMeta child (substitutions currentEntry)] in
  v ← readEntry (entry currentEntry);
  match reverse v with
  | None => throw
  | Some tree =>
      match glyph with
      | Range low high => rangePush tree (low, high) child
      | Single g => individualSet tree g child
      end
  end;;
  mret nextEntries.

Definition processBacktrackPosition (glyphs : list GlyphSpec)
    (currentEntries : list EntryMeta) : M (list EntryMeta) :=
  foldM (λ nextEntries currentEntry,
           foldM (backtrackGlyphStep currentEntry) (dedupGlyphs glyphs) nextEntries)
        currentEntries [].

(** ** The Color class of extraterm-color-utilities *)

(** [src/packages/extraterm-color-utilities/src/ColorUtilities.ts]: the
    constructor, [toHexString], [toRGBA], [opacity] and [to2DigitHex].
    [toRGBAString], [toString] and [mix] compute with fractions and are left
    out. *)
Module Color.

(** The numbers this code computes with: integers (those a double holds
    exactly) and [NaN] (the result of a failed [parseInt]).  A field or
    argument that is [undefined] is [None]. *)
Inductive JsNumber : Type :=
  | NaN
  | Int (z : Z).

#[global] Instance JsNumber_eq_dec : EqDecision JsNumber.
Proof. solve_decision. Defined.

(** A string is its sequence of UTF-16 code units. *)
Abbreviation JsString := (list N) (only parsing).

(** [ToUint32] and [ToInt32] of an integer. *)
Definition toUint32 (z : Z) : Z := z mod 2 ^ 32.

Definition toInt32 (z : Z) : Z :=
  if 2 ^ 31 <=? z mod 2 ^ 32 then z mod 2 ^ 32 - 2 ^ 32 else z mod 2 ^ 32.

(** The integer the 32-bit conversions start from: [NaN] and [undefined]
    convert to 0. *)
Definition integral (v : option JsNumber) : Z :=
  match v with
  | Some (Int z) => z
  | _ => 0
  end.

(** [a << n], [a >>> n], [a & b] and [a | b], for [0 <= n < 32]. *)
Definition shiftLeft (a n : Z) : Z := toInt32 (Z.shiftl (toInt32 a) n).
Definition unsignedShiftRight (a n : Z) : Z := Z.shiftr (toUint32 a) n.
Definition bitAnd (a b : Z) : Z := Z.land (toInt32 a) (toInt32 b).
Definition bitOr (a b : Z) : Z := Z.lor (toInt32 a) (toInt32 b).

(** [n * 17] *)
Definition times17 (n : JsNumber) : JsNumber :=
  match n with
  | NaN => NaN
  | Int z => Int (z * 17)
  end.

(** *** parseInt(string, 16) *)

(** The code units of WhiteSpace and LineTerminator, which [parseInt] skips
    at the start. *)
Definition isWhiteSpace (u : N) : bool :=
  bool_decide (u ∈ [9; 10; 11; 12; 13; 32; 160; 5760; 8192; 8193; 8194; 8195;
                    8196; 8197; 8198; 8199; 8200; 8201; 8202; 8232; 8233;
                    8239; 8287; 12288; 65279]%N).

Fixpoint trimStart (s : JsString) : JsString :=
  match s with
  | u :: rest => if isWhiteSpace u then trimStart rest else s
  | [] => []
  end.

(** The value of a hexadecimal digit: [0-9], [a-f], [A-F]. *)
Definition hexValue (u : N) : option Z :=
  if (48 <=? u)%N && (u <=? 57)%N then Some (Z.of_N u - 48)
  else if (97 <=? u)%N && (u <=? 102)%N then Some (Z.of_N u - 87)
  else if (65 <=? u)%N && (u <=? 70)%N then Some (Z.of_N u - 55)
  else None.

(** The value of the longest prefix of digits, [None] when it is empty;
    [acc] is the value of the digits read so far, if any. *)
Fixpoint hexPrefix (acc : option Z) (s : JsString) : option Z :=
  match s with
  | u :: rest =>
      match hexValue u with
      | Some d => hexPrefix (Some (from_option id 0 acc * 16 + d)) rest
      | None => acc
      end
  | [] => acc
  end.

(** [parseInt(s, 16)]: skip leading white space, read a sign, skip [0x] or
    [0X], read the longest prefix of digits. *)
Definition parseInt16 (s : JsString) : JsNumber :=
  let trimmed := trimStart s in
  let sign := if bool_decide (head trimmed = Some 45%N) then -1 else 1 in
  let unsigned :=
    if bool_decide (head trimmed = Some 45%N ∨ head trimmed = Some 43%N)
    then tail trimmed else trimmed in
  let digits :=
    if bool_decide (take 2 unsigned = [48; 120]%N ∨
                    take 2 unsigned = [48; 88]%N)
    then drop 2 unsigned else unsigned in
  match hexPrefix None digits with
  | None => NaN
  | Some value => Int (sign * value)
  end.

(** *** Number.prototype.toString(16) *)

Definition hexDigit (d : Z) : N :=
  if d <? 10 then Z.to_N (d + 48) else Z.to_N (d + 87).

(** The digits of a positive integer, most significant first. *)
Fixpoint hexDigits (fuel : nat) (z : Z) : JsString :=
  match fuel with
  | O => []
  | S fuel' =>
      if z <? 16 then [hexDigit z]
      else hexDigits fuel' (z / 16) ++ [hexDigit (z mod 16)]
  end.

Definition toString16 (n : JsNumber) : JsString :=
  match n with
  | NaN => [78; 97; 78]%N
  | Int z =>
      if z <? 0 then 45%N :: hexDigits (S (Z.to_nat (Z.log2 (- z)))) (- z)
      else hexDigits (S (Z.to_nat (Z.log2 z))) z
  end.

(** [to2DigitHex]; [value.toString] on [undefined] throws. *)
Definition to2DigitHex (value : option JsNumber) : outcome JsString :=
  match value with
  | None => Thrown
  | Some n =>
      let h := toString16 n in
      Returned (if (length h =? 1)%nat then 48%N :: h else h)
  end.

(** *** The class *)

Record Color : Type := mkColor {
  _red : option JsNumber;
  _green : option JsNumber;
  _blue : option JsNumber;
  _opacity : option JsNumber;
  _hexString : option JsString;
  _rgbaString : option JsString
}.

(** [s.slice(from, to)] for [0 <= from <= to]. *)
Definition slice (from to : nat) (s : JsString) : JsString :=
  take (to - from) (drop from s).

(** [stringColor.startsWith("#")] *)
Definition startsWithHash (s : JsString) : bool :=
  match s with
  | 35%N :: _ => true
  | _ => false
  end.

(** The first argument of the constructor: a string, or a number (at run
    time possibly [undefined], as when [opacity] passes a missing field). *)
Inductive ColorInput : Type :=
  | FromString (stringColor : JsString)
  | FromNumber (number : option JsNumber).

Definition fromFields (red green blue opacity : option JsNumber) : Color :=
  mkColor red green blue opacity None None.

(** [new Color(rgbaOrRedOrString, green, blue, opacity)] *)
Definition construct (rgbaOrRedOrString : ColorInput)
    (green blue opacity : option JsNumber) : Color :=
  match rgbaOrRedOrString with
  | FromString stringColor =>
      if startsWithHash stringColor then
        if (length stringColor =? 4)%nat then
          fromFields (Some (times17 (parseInt16 (slice 1 2 stringColor))))
                     (Some (times17 (parseInt16 (slice 2 3 stringColor))))
                     (Some (times17 (parseInt16 (slice 3 4 stringColor))))
                     (Some (Int 255))
        else if (length stringColor =? 4)%nat then
          fromFields (Some (times17 (parseInt16 (slice 1 2 stringColor))))
                     (Some (times17 (parseInt16 (slice 2 3 stringColor))))
                     (Some (times17 (parseInt16 (slice 3 4 stringColor))))
                     (Some (times17 (parseInt16 (slice 4 5 stringColor))))
        else if (length stringColor =? 7)%nat then
          fromFields (Some (parseInt16 (slice 1 3 stringColor)))
                     (Some (parseInt16 (slice 3 5 stringColor)))
                     (Some (parseInt16 (slice 5 7 stringColor)))
                     (Some (Int 255))
        else if (length stringColor =? 9)%nat then
          fromFields (Some (parseInt16 (slice 1 3 stringColor)))
                     (Some (parseInt16 (slice 3 5 stringColor)))
                     (Some (parseInt16 (slice 5 7 stringColor)))
                     (Some (parseInt16 (slice 7 9 stringColor)))
        else fromFields None None None None
      else fromFields None None None None
  | FromNumber number =>
      match green with
      | None =>
          let rgba := integral number in
          fromFields (Some (Int (bitAnd (unsignedShiftRight rgba 24) 255)))
                     (Some (Int (bitAnd (unsignedShiftRight rgba 16) 255)))
                     (Some (Int (bitAnd (unsignedShiftRight rgba 8) 255)))
                     (Some (Int (bitAnd rgba 255)))
      | Some _ =>
          fromFields number green
                     (match blue with Some _ => blue | None => Some (Int 0) end)
                     (match opacity with
                      | Some _ => opacity
                      | None => Some (Int 255)
                      end)
      end
  end.

(** [toHexString()]: the string, and the object with the string cached. *)
Definition toHexString (c : Color) : outcome JsString * Color :=
  match _hexString c with
  | Some cached => (Returned cached, c)
  | None =>
      match to2DigitHex (_red c), to2DigitHex (_green c),
            to2DigitHex (_blue c) with
      | Returned r, Returned g, Returned b =>
          let hex := 35%N :: r ++ g ++ b in
          (Returned hex,
           mkColor (_red c) (_green c) (_blue c) (_opacity c) (Some hex)
                   (_rgbaString c))
      | _, _, _ => (Thrown, c)
      end
  end.

(** [toRGBA()] *)
Definition toRGBA (c : Color) : Z :=
  unsignedShiftRight
    (bitOr (bitOr (bitOr (shiftLeft (integral (_red c)) 24)
                         (shiftLeft (integral (_green c)) 16))
                  (shiftLeft (integral (_blue c)) 8))
           (integral (_opacity c)))
    0.

(** [opacity(newOpacity)] *)
Definition opacity (c : Color) (newOpacity : option JsNumber) : Color :=
  construct (FromNumber (_red c)) (_green c) (_blue c) newOpacity.

End Color.

(** * Specification-level notions *)

(** ** Deduplication *)

(** The deduplicator as the specification words it: the values of the list
    at the positions where they occur for the first time, in that order. *)
Definition firstOccurrence (glyphs : list GlyphSpec) (i : nat) : option GlyphSpec :=
  match glyphs !! i with
  | Some x => if decide (x ∈ take i glyphs) then None else Some x
  | None => None
  end.

Definition firstOccurrences (glyphs : list GlyphSpec) : list GlyphSpec :=
  omap (firstOccurrence glyphs) (seq 0 (length glyphs)).

(** What the two sets of [dedupGlyphs] record about its result array. *)
Definition tracks (st : Dedup.State) : Prop :=
  (∀ g, g ∈ Dedup.singleGlyphs st ↔ Single g ∈ Dedup.result st) ∧
  (∀ lo hi, (lo, hi) ∈ Dedup.pairGlyphs st ↔ Range lo hi ∈ Dedup.result st).

(** ** Resolution, as the specification describes it *)

(** The subtables a resolution at [index] may consult: those of the lookups
    named by the records of that position, in record order.  A record whose
    lookup does not exist contributes nothing here; such records are ruled
    out separately by [validRecords]. *)
Definition applicableTables (substitutions : list SubstitutionLookupRecord)
    (lookups : list Lookup) (index : Z) : list SubstitutionTable :=
  flat_map (λ s, from_option subtables [] (lookupAt lookups (lookupListIndex s)))
           (recordsAt substitutions index).

(** The first non-null element of a list of optional outputs. *)
Fixpoint firstNonNull {A} (l : list (option A)) : option A :=
  match l with
  | [] => None
  | Some a :: _ => Some a
  | None :: rest => firstNonNull rest
  end.

(** Every given record names a lookup of the table. *)
Definition validRecords (records : list SubstitutionLookupRecord)
    (lookups : list Lookup) : Prop :=
  Forall (λ s, is_Some (lookupAt lookups (lookupListIndex s))) records.

(** The two record scans have one shape: consult the lookup of each record
    in turn, stop at the first that decides, fall back when none does. *)
Fixpoint scanWith {R} (consult : Lookup → option R) (fallback : R)
    (records : list SubstitutionLookupRecord) (lookups : list Lookup)
    : outcome R :=
  match records with
  | [] => Returned fallback
  | substitution :: rest =>
      match lookupAt lookups (lookupListIndex substitution) with
      | None => Thrown
      | Some lookup =>
          match consult lookup with
          | Some r => Returned r
          | None => scanWith consult fallback rest lookups
          end
      end
  end.

Definition consultIndividual (glyphId : Z) (lookup : Lookup)
    : option (option Z) :=
  Some <$> scanSubtables (subtables lookup) glyphId.

Definition consultRange (rng : Z * Z) (lookup : Lookup)
    : option RangeSubstitutions :=
  scanSubtablesRange (subtables lookup) rng.

(** A record whose lookup exists and leaves the scan undecided. *)
Definition silent {R} (consult : Lookup → option R) (lookups : list Lookup)
    (s : SubstitutionLookupRecord) : Prop :=
  ∃ lookup, lookupAt lookups (lookupListIndex s) = Some lookup ∧
            consult lookup = None.


(** ** Example inputs *)

(** A subtable that replaces each glyph of [10, 20] by its successor and
    answers a range query with one pair that maps the whole range. *)
Definition successorTable : SubstitutionTable :=
  mkTable (λ g, if (10 <=? g) && (g <=? 20) then Some (g + 1) else None)
          (λ rng, [(Range rng.1 rng.2, Some (rng.1 + 1))]).

(** A subtable that replaces glyph 65 by [out] and nothing else, and leaves
    every range it is asked about unsubstituted. *)
Definition letterTable (out : Z) : SubstitutionTable :=
  mkTable (λ g, if g =? 65 then Some out else None)
          (λ rng, [(Range rng.1 rng.2, None)]).

(** A subtable that replaces glyph 15 by 100 and answers a range query
    with the range split around that glyph. *)
Definition splitTable : SubstitutionTable :=
  mkTable (λ g, if g =? 15 then Some 100 else None)
          (λ rng, [(Range rng.1 14, None); (Single 15, Some 100);
                   (Range 16 rng.2, None)]).

(** A root entry with an empty forward branch-point. *)
Definition rootStore : Store :=
  mkStore [mkEntry (Some 0%nat) None] [emptyTree].

(** An entry whose two branch-points both dispatch glyph 65 to a second
    entry; the reverse one also lists that entry under the range [10, 20]. *)
Definition populatedStore : Store :=
  mkStore [mkEntry (Some 0%nat) (Some 1%nat); emptyEntry]
          [mkTree {[65 := 1%nat]} [];
           mkTree {[65 := 1%nat]} [((10, 20), 1%nat)]].

(** ** Program logic for [M] *)

(** [wp m Q s]: run from [s], [m] returns normally, with a value and a final
    store that satisfy [Q]. *)
Definition wp {A} (m : M A) (Q : A → Store → Prop) (s : Store) : Prop :=
  match m s with
  | (Returned a, s') => Q a s'
  | (Thrown, _) => False
  end.

(** ** Shapes of the store *)

(** The two context directions: backtrack steps grow the [reverse]
    branch-point, lookahead steps the [forward] one. *)
Inductive Direction : Type := Backtrack | Lookahead.

Definition branch (dir : Direction) (v : LookupTreeEntry) : option treeRef :=
  match dir with
  | Backtrack => reverse v
  | Lookahead => forward v
  end.

Definition opposite (dir : Direction) : Direction :=
  match dir with
  | Backtrack => Lookahead
  | Lookahead => Backtrack
  end.

Definition withBranch (dir : Direction) (v : LookupTreeEntry) (t : treeRef)
    : LookupTreeEntry :=
  match dir with
  | Backtrack => mkEntry (forward v) (Some t)
  | Lookahead => mkEntry (Some t) (reverse v)
  end.

Definition contextGlyphStep (dir : Direction)
    : EntryMeta → list EntryMeta → GlyphSpec → M (list EntryMeta) :=
  match dir with
  | Backtrack => backtrackGlyphStep
  | Lookahead => lookaheadGlyphStep
  end.

Definition processContextPosition (dir : Direction)
    : list GlyphSpec → list EntryMeta → M (list EntryMeta) :=
  match dir with
  | Backtrack => processBacktrackPosition
  | Lookahead => processLookaheadPosition
  end.

(** A branch-point after a child was put under a candidate. *)
Definition addChild (glyph : GlyphSpec) (child : entryRef) (tr : LookupTree)
    : LookupTree :=
  match glyph with
  | Single g => mkTree (<[g := child]> (individual tr)) (range tr)
  | Range low high => mkTree (individual tr) (range tr ++ [((low, high), child)])
  end.

(** The children a branch-point dispatches to. *)
Definition isChild (tr : LookupTree) (child : entryRef) : Prop :=
  (∃ g, individual tr !! g = Some child) ∨ (∃ rng, (rng, child) ∈ range tr).

(** A current entry a context step can extend: it exists, and so does its
    branch-point of that direction when it has one. *)
Definition ready (dir : Direction) (s : Store) (currentEntry : EntryMeta) : Prop :=
  ∃ v, entries s !! entry currentEntry = Some v ∧
       ∀ t, branch dir v = Some t → (t < length (trees s))%nat.

(** From index [n] on, the entries of the store are empty leaves. *)
Definition leavesFrom (n : nat) (s : Store) : Prop :=
  ∀ e, (n ≤ e < length (entries s))%nat → entries s !! e = Some emptyEntry.

(** How a context step of direction [dir] with candidates [G] may change
    the store: objects are only added; an entry that existed keeps the
    branch-point of the other direction, and keeps the one of direction
    [dir] if it had one, else may get one made by the step; a branch-point
    that existed keeps its range list as a prefix of the new one, keeps its
    individual children under glyphs that are not candidates, and under any
    glyph either keeps the child or holds one made by the step. *)
Definition grows (dir : Direction) (G : list GlyphSpec) (s s' : Store) : Prop :=
  (length (entries s) ≤ length (entries s'))%nat ∧
  (length (trees s) ≤ length (trees s'))%nat ∧
  (∀ e v, entries s !! e = Some v →
     ∃ v', entries s' !! e = Some v' ∧
           branch (opposite dir) v' = branch (opposite dir) v ∧
           (branch dir v' = branch dir v ∨
            (branch dir v = None ∧
             ∃ t, branch dir v' = Some t ∧
                  (length (trees s) ≤ t < length (trees s'))%nat))) ∧
  (∀ t tr, trees s !! t = Some tr →
     ∃ tr', trees s' !! t = Some tr' ∧
            range tr `prefix_of` range tr' ∧
            (∀ g, Single g ∉ G → individual tr' !! g = individual tr !! g) ∧
            (∀ g c, individual tr !! g = Some c →
                    ∃ c', individual tr' !! g = Some c' ∧
                          (c' = c ∨
                           (length (entries s) ≤ c' < length (entries s'))%nat))).

(** The branch-points numbered from [nT] on dispatch only to entries
    numbered from [n] on. *)
Definition newTreesFresh (nT n : nat) (s : Store) : Prop :=
  ∀ t tr x, (nT ≤ t)%nat → trees s !! t = Some tr → isChild tr x → (n ≤ x)%nat.

(** The branch-point of [currentEntry] dispatches [glyph] to a child made
    since the store had [n] entries. *)
Definition linked (dir : Direction) (n : nat) (s : Store)
    (currentEntry : EntryMeta) (glyph : GlyphSpec) : Prop :=
  ∃ v t tr c,
    entries s !! entry currentEntry = Some v ∧ branch dir v = Some t ∧
    trees s !! t = Some tr ∧ (n ≤ c < length (entries s))%nat ∧
    match glyph with
    | Single g => individual tr !! g = Some c
    | Range low high => ((low, high), c) ∈ range tr
    end.

(** What [getInputTree] hands back for one pair [kv] of a range's
    substitution map, seen in the final store [s'] and branch-point [tr']:
    an entry [r.1] made during the call (the store had [n] entries before
    it) and still empty.  Under a range key that entry is listed in the
    branch-point; under an individual key it is not a child of the
    branch-point at all, which holds another new entry under the glyph. *)
Definition splitOutcome (n : nat) (s' : Store) (tr' : LookupTree)
    (kv : GlyphSpec * option Z) (r : entryRef * option Z) : Prop :=
  r.2 = kv.2 ∧
  (n ≤ r.1 < length (entries s'))%nat ∧
  entries s' !! r.1 = Some emptyEntry ∧
  match kv.1 with
  | Range a b => ((a, b), r.1) ∈ range tr'
  | Single g =>
      ¬ isChild tr' r.1 ∧
      ∃ other, individual tr' !! g = Some other ∧ other ≠ r.1 ∧
               (n ≤ other)%nat ∧ entries s' !! other = Some emptyEntry
  end.

(** Every child of the branch-point is an entry of the store. *)
Definition closedTree (s : Store) (tr : LookupTree) : Prop :=
  ∀ c, isChild tr c → (c < length (entries s))%nat.

(** [m] continues the path of [currentEntry] by one input position. *)
Definition extendedBy (currentEntry m : EntryMeta) : Prop :=
  ∃ substitution,
    substitutions m = substitutions currentEntry ++ [substitution].

(** How an input step may change the store: objects are only added; the
    branch-points that existed keep their contents; an entry that existed
    keeps its [reverse] field, and its [forward] field either stays or
    points to a branch-point made by the step; the entries made are empty
    leaves; and the branch-points made dispatch to entries made. *)
Definition resets (s s' : Store) : Prop :=
  (length (entries s) ≤ length (entries s'))%nat ∧
  (length (trees s) ≤ length (trees s'))%nat ∧
  (∀ t, (t < length (trees s))%nat → trees s' !! t = trees s !! t) ∧
  (∀ e v, entries s !! e = Some v →
     ∃ v', entries s' !! e = Some v' ∧ reverse v' = reverse v ∧
           (forward v' = forward v ∨
            ∃ t, forward v' = Some t ∧
                 (length (trees s) ≤ t < length (trees s'))%nat)) ∧
  (∀ e, (length (entries s) ≤ e < length (entries s'))%nat →
        entries s' !! e = Some emptyEntry) ∧
  (∀ t tr x, (length (trees s) ≤ t)%nat → trees s' !! t = Some tr →
             isChild tr x →
             (length (entries s) ≤ x < length (entries s'))%nat).

(** After an input step the entry has a forward branch-point that the step
    made, and with no candidates that branch-point is empty. *)
Definition wasReset (glyphs : list GlyphSpec) (s s' : Store)
    (currentEntry : EntryMeta) : Prop :=
  ∃ v' t tr,
    entries s' !! entry currentEntry = Some v' ∧ forward v' = Some t ∧
    (length (trees s) ≤ t)%nat ∧ trees s' !! t = Some tr ∧
    (dedupGlyphs glyphs = [] → tr = emptyTree).

(** The store right after [currentEntry.entry.forward = { ... }]. *)
Definition resetStore (s : Store) (e : entryRef) (v : LookupTreeEntry) : Store :=
  mkStore (<[e := mkEntry (Some (length (trees s))) (reverse v)]> (entries s))
          (trees s ++ [emptyTree]).


(** ** Further notions for the tree steps *)

(** The items a context step appends to a range list for the candidates
    [D], when the leaf of the first candidate is [base]: one item per range
    candidate, with the leaf made for it. *)
Fixpoint rangeItems (base : nat) (D : list GlyphSpec)
    : list ((Z * Z) * entryRef) :=
  match D with
  | [] => []
  | Single _ :: rest => rangeItems (S base) rest
  | Range low high :: rest => ((low, high), base) :: rangeItems (S base) rest
  end.

(** The store after an input step threw at its first candidate. *)
Definition thrownStore (s : Store) (e : entryRef) (v : LookupTreeEntry)
    (glyph : GlyphSpec) : Store :=
  match glyph with
  | Single g =>
      mkStore (<[e := mkEntry (Some (length (trees s))) (reverse v)]> (entries s)
               ++ [emptyEntry])
              (trees s ++ [mkTree {[g := length (entries s)]} []])
  | Range _ _ => resetStore s e v
  end.

(** Resolution of a candidate throws. *)
Definition resolutionThrows (lookupRecords : list SubstitutionLookupRecord)
    (lookups : list Lookup) (position : Z) (glyph : GlyphSpec) : Prop :=
  match glyph with
  | Single g =>
      getSubstitutionAtPosition lookupRecords lookups position g = Thrown
  | Range low high =>
      getSubstitutionAtPositionRange lookupRecords lookups position (low, high)
      = Thrown
  end.

(** A branch-point after one child per candidate of [D] was put into it, the
    children being the entries [base], [base + 1], ... in the order of the
    candidates. *)
Fixpoint addChildren (base : nat) (D : list GlyphSpec) (tr : LookupTree)
    : LookupTree :=
  match D with
  | [] => tr
  | glyph :: rest => addChildren (S base) rest (addChild glyph base tr)
  end.

(** The entries made for the candidates [D] of a current entry whose
    accumulated substitutions are [subs], the first of them being [base];
    [last] gives what each candidate adds to the substitutions. *)
Definition madeFor {G} (base : nat) (subs : list (option Z))
    (last : G → list (option Z)) (D : list G) : list EntryMeta :=
  imap (λ k glyph, mkMeta (base + k) (subs ++ last glyph)) D.

(** The entries made by a step for all current entries: those of the
    [i]-th current entry start at [n + i * length D]. *)
Definition madeForAll {G} (n : nat) (last : G → list (option Z))
    (D : list G) (currentEntries : list EntryMeta) : list EntryMeta :=
  concat (imap (λ i ce, madeFor (n + i * length D) (substitutions ce) last D)
               currentEntries).

(** ** Sequences of steps *)

(** A call of one of the three exported steps, with its candidates (and,
    for an input step, the sequence position). *)
Inductive Step : Type :=
  | InputStep (glyphs : list GlyphSpec) (position : Z)
  | LookaheadStep (glyphs : list GlyphSpec)
  | BacktrackStep (glyphs : list GlyphSpec).

Definition runStep (lookupRecords : list SubstitutionLookupRecord)
    (lookups : list Lookup) (step : Step) (currentEntries : list EntryMeta)
    : M (list EntryMeta) :=
  match step with
  | InputStep glyphs position =>
      processInputPosition glyphs position currentEntries lookupRecords lookups
  | LookaheadStep glyphs => processLookaheadPosition glyphs currentEntries
  | BacktrackStep glyphs => processBacktrackPosition glyphs currentEntries
  end.

(** Steps called one after the other, each on the entries the one before
    handed back. *)
Fixpoint runSteps (lookupRecords : list SubstitutionLookupRecord)
    (lookups : list Lookup) (steps : list Step)
    (currentEntries : list EntryMeta) : M (list EntryMeta) :=
  match steps with
  | [] => mret currentEntries
  | step :: rest =>
      nextEntries ← runStep lookupRecords lookups step currentEntries;
      runSteps lookupRecords lookups rest nextEntries
  end.

Definition isInputStep (step : Step) : bool :=
  match step with
  | InputStep _ _ => true
  | _ => false
  end.

(** [m] continues the path of [origin] by [k] input positions. *)
Definition continues (k : nat) (origin m : EntryMeta) : Prop :=
  ∃ added, substitutions m = substitutions origin ++ added ∧ length added = k.

(** An entry that exists and whose branch-points, where it has them, exist. *)
Definition usable (s : Store) (currentEntry : EntryMeta) : Prop :=
  ready Backtrack s currentEntry ∧ ready Lookahead s currentEntry.

(** ** The split of a range candidate *)

(** What [getInputTree] makes for the pairs [subs] of a range's substitution
    map when the store holds [base] entries: the entries it hands back, the
    branch-point it leaves, and the number of entries it makes.  A range key
    costs one entry, which is both pushed and handed back; an individual key
    costs two, the first handed back and the second stored in the map. *)
Fixpoint splitEntries (base : nat) (subs : RangeSubstitutions)
    : list (entryRef * option Z) :=
  match subs with
  | [] => []
  | (Range _ _, substitution) :: rest =>
      (base, substitution) :: splitEntries (S base) rest
  | (Single _, substitution) :: rest =>
      (base, substitution) :: splitEntries (S (S base)) rest
  end.

Fixpoint splitTree (base : nat) (subs : RangeSubstitutions) (tr : LookupTree)
    : LookupTree :=
  match subs with
  | [] => tr
  | (Range a b, _) :: rest =>
      splitTree (S base) rest (addChild (Range a b) base tr)
  | (Single g, _) :: rest =>
      splitTree (S (S base)) rest (addChild (Single g) (S base) tr)
  end.

Fixpoint splitCost (subs : RangeSubstitutions) : nat :=
  match subs with
  | [] => 0
  | (Range _ _, _) :: rest => S (splitCost rest)
  | (Single _, _) :: rest => S (S (splitCost rest))
  end.

(** The items pushed onto the range list: the range keys of [subs], each
    with the entry handed back for it. *)
Fixpoint splitRangeItems (base : nat) (subs : RangeSubstitutions)
    : list ((Z * Z) * entryRef) :=
  match subs with
  | [] => []
  | (Range a b, _) :: rest => ((a, b), base) :: splitRangeItems (S base) rest
  | (Single _, _) :: rest => splitRangeItems (S (S base)) rest
  end.

Definition isIndividualKey (kv : GlyphSpec * option Z) : bool :=
  match kv.1 with
  | Single _ => true
  | Range _ _ => false
  end.
(** * Properties *)

(** ** dedupGlyphs *)

Section DedupFacts.

Import Dedup.

Lemma pairFound_spec lo hi pairs :
  pairFound lo hi pairs = true ↔ (lo, hi) ∈ pairs.
Proof.
  induction pairs as [|[a b] rest IH]; simpl.
  - split; [discriminate | intros H; inversion H].
  - destruct (a =? lo) eqn:Ea; destruct (b =? hi) eqn:Eb; simpl;
      rewrite ?Z.eqb_eq, ?Z.eqb_neq in *; subst;
      rewrite ?IH, elem_of_cons; split; auto;
      intros [?|?]; auto; congruence.
Qed.

Lemma tracks_initial : tracks initial.
Proof. split; intros; simpl; set_solver. Qed.

(** With the sets in step with the array, an iteration is a membership test
    on the array itself. *)
Lemma step_spec st x :
  tracks st →
  (x ∈ result st → step st x = st) ∧
  (x ∉ result st → result (step st x) = result st ++ [x]) ∧
  tracks (step st x).
Proof.
  intros [Hs Hp]. destruct x as [g|lo hi]; simpl.
  - destruct (decide (g ∈ singleGlyphs st)) as [Hin|Hin].
    + split; [done|]. split; [|by split].
      intros Hn. exfalso. apply Hn. by apply Hs.
    + split; [intros Hn; exfalso; apply Hin; by apply Hs|].
      split; [done|]. split; simpl.
      * intros g'. rewrite elem_of_union, elem_of_singleton, elem_of_app,
          list_elem_of_singleton, Hs. intuition congruence.
      * intros lo hi. rewrite elem_of_app, list_elem_of_singleton, Hp.
        intuition congruence.
  - destruct (pairFound lo hi (pairGlyphs st)) eqn:E.
    + apply pairFound_spec, Hp in E.
      split; [done|]. split; [intros Hn; by destruct Hn | by split].
    + assert (Range lo hi ∉ result st) as Hn.
      { intros Hin. apply Hp, pairFound_spec in Hin. congruence. }
      split; [done|]. split; [done|]. split; simpl.
      * intros g'. rewrite elem_of_app, list_elem_of_singleton, Hs.
        intuition congruence.
      * intros lo' hi'.
        rewrite !elem_of_app, !list_elem_of_singleton, Hp. intuition congruence.
Qed.

Lemma step_result st x :
  tracks st →
  result (step st x) = result st ++ (if decide (x ∈ result st) then [] else [x]).
Proof.
  intros Ht. destruct (step_spec st x Ht) as (H1 & H2 & _).
  case_decide as Hin.
  - rewrite H1 by done. by rewrite app_nil_r.
  - by apply H2.
Qed.

Lemma loop_snoc glyphs x st : loop (glyphs ++ [x]) st = step (loop glyphs st) x.
Proof. unfold loop. by rewrite fold_left_app. Qed.

Lemma loop_tracks glyphs : tracks (loop glyphs initial).
Proof.
  induction glyphs as [|x glyphs IH] using rev_ind; [apply tracks_initial|].
  rewrite loop_snoc. by apply step_spec.
Qed.

Lemma firstOccurrences_snoc glyphs x :
  firstOccurrences (glyphs ++ [x]) =
  firstOccurrences glyphs ++ (if decide (x ∈ glyphs) then [] else [x]).
Proof.
  unfold firstOccurrences. rewrite length_app, seq_app, omap_app. simpl. f_equal.
  - apply list_omap_ext, Forall_Forall2_diag, Forall_forall. intros i Hi.
    apply elem_of_seq in Hi. unfold firstOccurrence.
    rewrite lookup_app_l by lia. rewrite take_app_le by lia. done.
  - unfold firstOccurrence. rewrite list_lookup_middle by done.
    rewrite take_app_length. by case_decide.
Qed.

Lemma firstOccurrences_elem glyphs x : x ∈ firstOccurrences glyphs ↔ x ∈ glyphs.
Proof.
  induction glyphs as [|y glyphs IH] using rev_ind; [done|].
  rewrite firstOccurrences_snoc, !elem_of_app, IH, list_elem_of_singleton.
  case_decide; [|rewrite list_elem_of_singleton; tauto].
  split; [intros [?|Hnil]; [tauto|inversion Hnil]|]. intros [?| ->]; tauto.
Qed.

Lemma loop_firstOccurrences glyphs :
  result (loop glyphs initial) = firstOccurrences glyphs.
Proof.
  induction glyphs as [|x glyphs IH] using rev_ind; [done|].
  rewrite loop_snoc, step_result by apply loop_tracks.
  rewrite firstOccurrences_snoc, IH. f_equal.
  destruct (decide (x ∈ glyphs)) as [Hin|Hin].
  - rewrite decide_True; [done|]. by apply firstOccurrences_elem.
  - rewrite decide_False; [done|]. by rewrite firstOccurrences_elem.
Qed.

Lemma firstOccurrences_short glyphs :
  (length glyphs < 2)%nat → firstOccurrences glyphs = glyphs.
Proof.
  destruct glyphs as [|x [|y l]]; simpl; try lia; intros _; [done|].
  unfold firstOccurrences, firstOccurrence. cbn. done.
Qed.

Lemma dedupGlyphs_firstOccurrences glyphs :
  dedupGlyphs glyphs = firstOccurrences glyphs.
Proof.
  unfold dedupGlyphs. destruct (length glyphs <? 2)%nat eqn:E.
  - apply Nat.ltb_lt in E. by rewrite firstOccurrences_short.
  - apply loop_firstOccurrences.
Qed.

Lemma firstOccurrences_NoDup glyphs : NoDup (firstOccurrences glyphs).
Proof.
  induction glyphs as [|x glyphs IH] using rev_ind; [constructor|].
  rewrite firstOccurrences_snoc. case_decide as Hin.
  - by rewrite app_nil_r.
  - apply NoDup_app. split; [by apply IH|]. split; [|apply NoDup_singleton].
    intros y Hy Hy'. apply list_elem_of_singleton in Hy'. subst y.
    apply Hin. by apply firstOccurrences_elem.
Qed.

Lemma firstOccurrences_id glyphs : NoDup glyphs → firstOccurrences glyphs = glyphs.
Proof.
  induction glyphs as [|x glyphs IH] using rev_ind; [done|].
  intros Hnd. apply NoDup_app in Hnd as (Hnd & Hx & _).
  rewrite firstOccurrences_snoc, IH by done.
  rewrite decide_False; [done|]. intros Hin. apply (Hx x Hin). by left.
Qed.

Lemma firstOccurrences_sublist glyphs : firstOccurrences glyphs `sublist_of` glyphs.
Proof.
  induction glyphs as [|x glyphs IH] using rev_ind; [done|].
  rewrite firstOccurrences_snoc. apply sublist_app; [done|].
  case_decide; [apply sublist_nil_l | done].
Qed.


(** An element of the output sits in the input at a position before which
    it does not occur. *)
Lemma firstOccurrences_position glyphs x :
  x ∈ firstOccurrences glyphs →
  ∃ i, glyphs !! i = Some x ∧ x ∉ take i glyphs.
Proof.
  unfold firstOccurrences. rewrite list_elem_of_omap.
  intros (i & _ & Hi). exists i. unfold firstOccurrence in Hi.
  destruct (glyphs !! i) as [y|]; [|done].
  case_decide; [done|]. by simplify_eq.
Qed.

Lemma firstOccurrences_order glyphs i j x y :
  (i < j)%nat →
  firstOccurrences glyphs !! i = Some x →
  firstOccurrences glyphs !! j = Some y →
  ∃ i' j', (i' < j')%nat ∧
           glyphs !! i' = Some x ∧ (x ∉ take i' glyphs) ∧
           glyphs !! j' = Some y ∧ y ∉ take j' glyphs.
Proof.
  revert i j x y.
  induction glyphs as [|z glyphs IH] using rev_ind; intros i j x y Hij Hx Hy;
    [done|].
  rewrite firstOccurrences_snoc in Hx, Hy.
  assert (∀ k w, glyphs !! k = Some w → w ∉ take k glyphs →
                 (glyphs ++ [z]) !! k = Some w ∧ w ∉ take k (glyphs ++ [z]))
    as Hkeep.
  { intros k w Hk Hw. pose proof (lookup_lt_Some _ _ _ Hk).
    rewrite lookup_app_l by lia. by rewrite take_app_le by lia. }
  destruct (decide (j < length (firstOccurrences glyphs))%nat) as [Hj|Hj].
  - rewrite lookup_app_l in Hx, Hy by lia.
    destruct (IH i j x y Hij Hx Hy) as (i' & j' & Hlt & Hi1 & Hi2 & Hj1 & Hj2).
    exists i', j'. split; [done|].
    destruct (Hkeep i' x Hi1 Hi2), (Hkeep j' y Hj1 Hj2). done.
  - case_decide as Hz.
    { rewrite app_nil_r in Hy. apply lookup_lt_Some in Hy. lia. }
    rewrite lookup_app_r in Hy by lia.
    apply list_lookup_singleton_Some in Hy as [Hj0 <-].
    rewrite lookup_app_l in Hx by lia.
    destruct (firstOccurrences_position glyphs x) as (i' & Hi1 & Hi2).
    { by eapply list_elem_of_lookup_2. }
    exists i', (length glyphs). pose proof (lookup_lt_Some _ _ _ Hi1).
    split; [done|]. destruct (Hkeep i' x Hi1 Hi2) as [-> ?].
    split; [done|]. split; [done|].
    rewrite list_lookup_middle by done. by rewrite take_app_length.
Qed.

(** C4 — the deduplicator's contract: the output holds no value twice
    (ranges compared by their two bounds, singles by their number, a single
    never equal to a range), holds exactly the values of the input, lists
    them in the order of their first occurrences in the input, and is the
    input itself when that has at most one element. *)
Theorem dedupGlyphs_contract (glyphs : list GlyphSpec) :
  NoDup (dedupGlyphs glyphs) ∧
  (∀ x, x ∈ dedupGlyphs glyphs ↔ x ∈ glyphs) ∧
  dedupGlyphs glyphs = firstOccurrences glyphs ∧
  (∀ i j x y, (i < j)%nat →
     dedupGlyphs glyphs !! i = Some x → dedupGlyphs glyphs !! j = Some y →
     ∃ i' j', (i' < j')%nat ∧
              glyphs !! i' = Some x ∧ (x ∉ take i' glyphs) ∧
              glyphs !! j' = Some y ∧ y ∉ take j' glyphs) ∧
  ((length glyphs ≤ 1)%nat → dedupGlyphs glyphs = glyphs) ∧
  (∀ a b c d, Range a b = Range c d ↔ a = c ∧ b = d) ∧
  (∀ a b, Single a = Single b ↔ a = b) ∧
  (∀ a b c, Single a ≠ Range b c).
Proof.
  rewrite dedupGlyphs_firstOccurrences.
  split; [apply firstOccurrences_NoDup|].
  split; [apply firstOccurrences_elem|].
  split; [done|].
  split; [apply firstOccurrences_order|].
  split; [intros Hlen; apply firstOccurrences_short; lia|].
  split; [|split].
  - intros a b c d. split; [by intros [= -> ->] | by intros [-> ->]].
  - intros a b. split; [by intros [= ->] | by intros ->].
  - intros a b c. discriminate.
Qed.

(** C10 — deduplicating twice is deduplicating once, and a list that holds
    no value twice is returned as it is. *)
Theorem dedupGlyphs_idempotent (glyphs : list GlyphSpec) :
  dedupGlyphs (dedupGlyphs glyphs) = dedupGlyphs glyphs ∧
  (NoDup glyphs → dedupGlyphs glyphs = glyphs).
Proof.
  split.
  - rewrite (dedupGlyphs_firstOccurrences (dedupGlyphs glyphs)).
    apply firstOccurrences_id. rewrite dedupGlyphs_firstOccurrences.
    apply firstOccurrences_NoDup.
  - intros Hnd. rewrite dedupGlyphs_firstOccurrences.
    by apply firstOccurrences_id.
Qed.

Lemma dedupGlyphs_idempotent_witness :
  NoDup [Single 65; Range 10 20; Single 70] ∧
  dedupGlyphs [Single 65; Range 10 20; Single 70] =
    [Single 65; Range 10 20; Single 70].
Proof.
  assert (NoDup [Single 65; Range 10 20; Single 70]) as Hnd.
  { apply (bool_decide_unpack _). vm_compute. exact I. }
  split; [exact Hnd|].
  exact (proj2 (dedupGlyphs_idempotent _) Hnd).
Defined.
End DedupFacts.

(** ** The resolvers *)

Section Resolvers.

Context {R : Type} (consult : Lookup → option R) (fallback : R).
Implicit Types (records : list SubstitutionLookupRecord) (lookups : list Lookup).

Lemma scanWith_valid records lookups :
  validRecords records lookups →
  ∃ r, scanWith consult fallback records lookups = Returned r.
Proof.
  induction 1 as [|s rest [lookup Hs] _ IH]; simpl; [eauto|].
  rewrite Hs. destruct (consult lookup); eauto.
Qed.



(** The first record that decides ends the scan, whatever follows it. *)
Lemma scanWith_first pre s rest lookups lookup r :
  Forall (silent consult lookups) pre →
  lookupAt lookups (lookupListIndex s) = Some lookup →
  consult lookup = Some r →
  scanWith consult fallback (pre ++ s :: rest) lookups = Returned r.
Proof.
  intros Hpre Hs Hc.
  induction Hpre as [|p pre (lookup' & Hp & Hc') _ IH]; simpl.
  - by rewrite Hs, Hc.
  - by rewrite Hp, Hc'.
Qed.

End Resolvers.

Lemma scanRecords_scanWith records lookups glyphId :
  scanRecords records lookups glyphId =
  scanWith (consultIndividual glyphId) None records lookups.
Proof.
  induction records as [|s rest IH]; simpl; [done|].
  destruct (lookupAt lookups (lookupListIndex s)) as [lookup|]; [|done].
  unfold consultIndividual.
  destruct (scanSubtables (subtables lookup) glyphId); simpl; [done|apply IH].
Qed.

Lemma scanRecordsRange_scanWith records lookups rng :
  scanRecordsRange records lookups rng =
  scanWith (consultRange rng) [(Range rng.1 rng.2, None)] records lookups.
Proof.
  induction records as [|s rest IH]; simpl; [done|].
  destruct (lookupAt lookups (lookupListIndex s)) as [lookup|]; [|done].
  unfold consultRange.
  destruct (scanSubtablesRange (subtables lookup) rng); simpl; [done|apply IH].
Qed.

Lemma firstNonNull_app {A} (l1 l2 : list (option A)) :
  firstNonNull (l1 ++ l2) =
  match firstNonNull l1 with Some a => Some a | None => firstNonNull l2 end.
Proof. induction l1 as [|[a|] l1 IH]; simpl; auto. Qed.

Lemma scanSubtables_firstNonNull tables glyphId :
  scanSubtables tables glyphId =
  firstNonNull (map (λ t, getIndividualSubstitutionGlyph t glyphId) tables).
Proof.
  induction tables as [|t rest IH]; simpl; [done|].
  by destruct (getIndividualSubstitutionGlyph t glyphId).
Qed.

(** Whatever the scan returns is the first non-null output among the
    subtables of the records' lookups, taken in order. *)
Lemma scanRecords_returned records lookups glyphId r :
  scanRecords records lookups glyphId = Returned r →
  r = firstNonNull
        (map (λ t, getIndividualSubstitutionGlyph t glyphId)
             (flat_map (λ s, from_option subtables []
                                (lookupAt lookups (lookupListIndex s)))
                       records)).
Proof.
  induction records as [|s rest IH]; simpl; [by intros [= <-]|].
  destruct (lookupAt lookups (lookupListIndex s)) as [lookup|]; [|done].
  simpl. rewrite map_app, firstNonNull_app, <- scanSubtables_firstNonNull.
  destruct (scanSubtables (subtables lookup) glyphId); [by intros [= <-]|done].
Qed.

Lemma validRecords_recordsAt substitutions lookups index :
  validRecords substitutions lookups →
  validRecords (recordsAt substitutions index) lookups.
Proof.
  unfold validRecords, recordsAt. rewrite !Forall_forall.
  intros H s Hs. apply list_elem_of_filter in Hs as [_ Hs]. by apply H.
Qed.


(** C5 — single-glyph resolution consults only the records of the given
    position, in the order of the record list, and each lookup's subtables
    in order: what it returns is the first non-null output in that order,
    null when there is none; it returns whenever those records name lookups
    that exist; and the first record and subtable to substitute the glyph
    decide the result, whatever records follow. *)
Theorem getSubstitutionAtPosition_order
    (substitutions : list SubstitutionLookupRecord) (lookups : list Lookup)
    (index glyphId : Z) :
  recordsAt substitutions index `sublist_of` substitutions ∧
  (∀ s, s ∈ recordsAt substitutions index ↔
        s ∈ substitutions ∧ sequenceIndex s = index) ∧
  (∀ r, getSubstitutionAtPosition substitutions lookups index glyphId = Returned r →
        r = firstNonNull
              (map (λ t, getIndividualSubstitutionGlyph t glyphId)
                   (applicableTables substitutions lookups index))) ∧
  (validRecords (recordsAt substitutions index) lookups →
   getSubstitutionAtPosition substitutions lookups index glyphId =
     Returned (firstNonNull
                 (map (λ t, getIndividualSubstitutionGlyph t glyphId)
                      (applicableTables substitutions lookups index)))) ∧
  (∀ pre s rest lookup out,
     recordsAt substitutions index = pre ++ s :: rest →
     Forall (silent (consultIndividual glyphId) lookups) pre →
     lookupAt lookups (lookupListIndex s) = Some lookup →
     firstNonNull (map (λ t, getIndividualSubstitutionGlyph t glyphId)
                       (subtables lookup)) = Some out →
     getSubstitutionAtPosition substitutions lookups index glyphId =
       Returned (Some out)).
Proof.
  unfold getSubstitutionAtPosition, applicableTables.
  split; [apply sublist_filter|].
  split.
  { intros s. unfold recordsAt. rewrite list_elem_of_filter. tauto. }
  split; [apply scanRecords_returned|].
  split.
  - intros Hvalid.
    destruct (scanWith_valid (consultIndividual glyphId) None _ _ Hvalid)
      as [r Hr].
    rewrite <- scanRecords_scanWith in Hr. rewrite Hr. f_equal.
    by apply scanRecords_returned.
  - intros pre s rest lookup out -> Hpre Hs Hout.
    rewrite scanRecords_scanWith.
    apply scanWith_first with (lookup := lookup); [done..|].
    unfold consultIndividual. by rewrite scanSubtables_firstNonNull, Hout.
Qed.

Lemma getSubstitutionAtPosition_order_witness :
  getSubstitutionAtPosition
    [mkRecord 0 0; mkRecord 1 1; mkRecord 0 1]
    [mkLookup [letterTable 66]; mkLookup [successorTable; letterTable 67]]
    0 65 = Returned (Some 66).
Proof.
  destruct (getSubstitutionAtPosition_order
              [mkRecord 0 0; mkRecord 1 1; mkRecord 0 1]
              [mkLookup [letterTable 66];
               mkLookup [successorTable; letterTable 67]] 0 65)
    as (_ & _ & _ & Hvalid & _).
  rewrite Hvalid; [reflexivity|].
  repeat constructor; eexists; reflexivity.
Defined.




Lemma scanSubtablesRange_has_null tables rng sub :
  scanSubtablesRange tables rng = Some sub → everyNonNull sub = false.
Proof.
  induction tables as [|t rest IH]; simpl; [done|].
  destruct (everyNonNull (getRangeSubstitutionGlyphs t rng)) eqn:E; simpl;
    [done|]. by intros [= <-].
Qed.

Lemma scanRecordsRange_has_null records lookups rng m :
  scanRecordsRange records lookups rng = Returned m → everyNonNull m = false.
Proof.
  induction records as [|s rest IH]; simpl; [by intros [= <-]|].
  destruct (lookupAt lookups (lookupListIndex s)) as [lookup|]; [|done].
  destruct (scanSubtablesRange (subtables lookup) rng) as [sub|] eqn:E;
    [|done].
  intros [= <-]. by eapply scanSubtablesRange_has_null.
Qed.

(** C1 at a failing input — a subtable that maps every glyph of [10, 20] to
    a non-null output is not accepted: its result is passed over and the
    range comes back as one unsubstituted pair, while single-glyph
    resolution of a glyph of that range does return its substitute.  On no
    input at all does range resolution return a mapping whose values are
    all non-null. *)
Theorem range_all_substituted_rejected :
  getRangeSubstitutionGlyphs successorTable (10, 20) = [(Range 10 20, Some 11)] ∧
  everyNonNull (getRangeSubstitutionGlyphs successorTable (10, 20)) = true ∧
  getSubstitutionAtPositionRange [mkRecord 0 0] [mkLookup [successorTable]]
    0 (10, 20) = Returned [(Range 10 20, None)] ∧
  getSubstitutionAtPosition [mkRecord 0 0] [mkLookup [successorTable]]
    0 10 = Returned (Some 11) ∧
  (∀ substitutions lookups index rng m,
     getSubstitutionAtPositionRange substitutions lookups index rng
     = Returned m →
     everyNonNull m = false).
Proof.
  split; [done|]. split; [done|]. split; [done|]. split; [done|].
  intros substitutions lookups index rng m.
  apply scanRecordsRange_has_null.
Qed.

(** ** Rules of the program logic *)

Section ProgramLogic.

Context {A B : Type}.

Lemma wp_elim (m : M A) Q s :
  wp m Q s → ∃ a s', m s = (Returned a, s') ∧ Q a s'.
Proof.
  unfold wp. destruct (m s) as [[a|] s']; [eauto | tauto].
Qed.

Lemma wp_intro (m : M A) (Q : A → Store → Prop) s a s' :
  m s = (Returned a, s') → Q a s' → wp m Q s.
Proof. unfold wp. by intros ->. Qed.

Lemma wp_mono (m : M A) (Q Q' : A → Store → Prop) s :
  (∀ a s', Q a s' → Q' a s') → wp m Q s → wp m Q' s.
Proof. unfold wp. destruct (m s) as [[a|] s']; auto. Qed.

Lemma wp_ret (a : A) (Q : A → Store → Prop) s : Q a s → wp (mret a) Q s.
Proof. done. Qed.

Lemma wp_bind (m : M A) (k : A → M B) (Q : B → Store → Prop) s :
  wp m (λ a s', wp (k a) Q s') s → wp (m ≫= k) Q s.
Proof.
  unfold wp, mbind, M_bind. destruct (m s) as [[a|] s']; auto.
Qed.

Lemma wp_lift (a : A) (Q : A → Store → Prop) s :
  Q a s → wp (lift (Returned a)) Q s.
Proof. done. Qed.

End ProgramLogic.

(** A loop keeps an invariant of the items already visited. *)
Lemma wp_foldM {A B} (body : B → A → M B) (I : list A → B → Store → Prop) l acc s :
  I [] acc s →
  (∀ done x rest acc s,
     l = done ++ x :: rest → I done acc s →
     wp (body acc x) (I (done ++ [x])) s) →
  wp (foldM body l acc) (I l) s.
Proof.
  intros Hinit Hstep.
  cut (∀ rest done acc s, l = done ++ rest → I done acc s →
                          wp (foldM body rest acc) (I l) s).
  { intros H. by apply (H l []). }
  clear acc s Hinit.
  induction rest as [|x rest IH]; intros done acc s Hl HI; simpl.
  - rewrite app_nil_r in Hl. subst. exact HI.
  - apply wp_bind. eapply wp_mono; [|by eapply Hstep].
    intros acc' s' HI'. apply (IH (done ++ [x])); [|done].
    by rewrite <- app_assoc.
Qed.

Lemma wp_newEntry (Q : entryRef → Store → Prop) s :
  Q (length (entries s)) (mkStore (entries s ++ [emptyEntry]) (trees s)) →
  wp newEntry Q s.
Proof. done. Qed.

Lemma wp_newTree (Q : treeRef → Store → Prop) s :
  Q (length (trees s)) (mkStore (entries s) (trees s ++ [emptyTree])) →
  wp newTree Q s.
Proof. done. Qed.

Lemma wp_readEntry e v (Q : LookupTreeEntry → Store → Prop) s :
  entries s !! e = Some v → Q v s → wp (readEntry e) Q s.
Proof. unfold wp, readEntry. by intros ->. Qed.

Lemma wp_writeEntry e v (Q : unit → Store → Prop) s :
  is_Some (entries s !! e) →
  Q () (mkStore (<[e := v]> (entries s)) (trees s)) →
  wp (writeEntry e v) Q s.
Proof. unfold wp, writeEntry. intros [? ->] HQ. exact HQ. Qed.

Lemma wp_readTree t tr (Q : LookupTree → Store → Prop) s :
  trees s !! t = Some tr → Q tr s → wp (readTree t) Q s.
Proof. unfold wp, readTree. by intros ->. Qed.

Lemma wp_writeTree t tr (Q : unit → Store → Prop) s :
  is_Some (trees s !! t) →
  Q () (mkStore (entries s) (<[t := tr]> (trees s))) →
  wp (writeTree t tr) Q s.
Proof. unfold wp, writeTree. intros [? ->] HQ. exact HQ. Qed.

Lemma wp_addChild t tr glyph child (Q : unit → Store → Prop) s :
  trees s !! t = Some tr →
  Q () (mkStore (entries s) (<[t := addChild glyph child tr]> (trees s))) →
  wp (match glyph with
      | Range low high => rangePush t (low, high) child
      | Single g => individualSet t g child
      end) Q s.
Proof.
  intros Ht HQ. destruct glyph; unfold individualSet, rangePush;
    (apply wp_bind; eapply wp_readTree; [done|]; by apply wp_writeTree).
Qed.

(** ** getInputTree *)

(** What a call with a single-glyph candidate does, exactly. *)
Lemma getInputTree_single_run tree substitutions lookups inputIndex g s tr :
  trees s !! tree = Some tr →
  getInputTree tree substitutions lookups inputIndex (Single g) s =
  (match getSubstitutionAtPosition substitutions lookups inputIndex g with
   | Returned substitution => Returned [(length (entries s), substitution)]
   | Thrown => Thrown
   end,
   mkStore (entries s ++ [emptyEntry])
           (<[tree := addChild (Single g) (length (entries s)) tr]> (trees s))).
Proof.
  intros Ht. pose proof (lookup_lt_Some _ _ _ Ht) as Hlt.
  unfold getInputTree, individualSet, individualGet, readTree, writeTree,
    newEntry, lift, throw, mbind, M_bind, mret, M_ret. simpl.
  rewrite Ht. simpl. rewrite Ht. simpl.
  rewrite list_lookup_insert_eq by done. simpl. rewrite lookup_insert_eq.
  by destruct (getSubstitutionAtPosition substitutions lookups inputIndex g).
Qed.

(** C7 — a single-glyph candidate always gets a brand-new empty child: the
    entry stored under the glyph ID after the call did not exist before it,
    has neither branch-point, replaces whatever child the map held under
    that ID, and is the entry handed back in the result; nothing else of the
    branch-point changes. *)
Theorem getInputTree_single_overwrites
    (tree : treeRef) (substitutions : list SubstitutionLookupRecord)
    (lookups : list Lookup) (inputIndex g : Z) (s : Store) (tr : LookupTree)
    (Htree : trees s !! tree = Some tr) :
  ∃ o s' tr' child,
    getInputTree tree substitutions lookups inputIndex (Single g) s = (o, s') ∧
    entries s !! child = None ∧
    entries s' !! child = Some emptyEntry ∧
    trees s' !! tree = Some tr' ∧
    individual tr' !! g = Some child ∧
    (∀ old, individual tr !! g = Some old → is_Some (entries s !! old) →
            old ≠ child ∧ ∀ g', individual tr' !! g' = Some old →
                                individual tr !! g' = Some old ∧ g' ≠ g) ∧
    (∀ g', g' ≠ g → individual tr' !! g' = individual tr !! g') ∧
    range tr' = range tr ∧
    (∀ e v, entries s !! e = Some v → entries s' !! e = Some v) ∧
    (∀ result, o = Returned result →
               ∃ substitution,
                 getSubstitutionAtPosition substitutions lookups inputIndex g
                 = Returned substitution ∧
                 result = [(child, substitution)]) ∧
    (o = Thrown ↔
     getSubstitutionAtPosition substitutions lookups inputIndex g = Thrown).
Proof.
  pose proof (lookup_lt_Some _ _ _ Htree) as Hlt.
  eexists _, _, (addChild (Single g) (length (entries s)) tr),
    (length (entries s)).
  split; [by apply getInputTree_single_run|]. simpl.
  split; [by apply lookup_ge_None_2|].
  split; [by rewrite list_lookup_middle|].
  split; [by apply list_lookup_insert_eq|].
  split; [apply lookup_insert_eq|].
  split.
  { intros old Hold [v Hv]. apply lookup_lt_Some in Hv.
    split; [lia|]. intros g' Hg'.
    destruct (decide (g = g')) as [<-|Hne].
    - rewrite lookup_insert_eq in Hg'. simplify_eq. lia.
    - rewrite lookup_insert_ne in Hg' by done. done. }
  split; [intros g' Hne; by rewrite lookup_insert_ne|].
  split; [done|].
  split; [intros e v Hv; by apply lookup_app_l_Some|].
  destruct (getSubstitutionAtPosition substitutions lookups inputIndex g)
    as [substitution|]; split.
  - intros result [= <-]. eauto.
  - done.
  - done.
  - done.
Qed.

Lemma getInputTree_single_overwrites_witness :
  ∃ o s' tr' child,
    getInputTree 0%nat [mkRecord 0 0] [mkLookup [letterTable 66]] 0 (Single 65)
      (mkStore [mkEntry (Some 0%nat) None; mkEntry None None]
               [mkTree {[65 := 1%nat]} []]) = (o, s') ∧
    trees s' !! 0%nat = Some tr' ∧
    individual tr' !! 65 = Some child ∧
    child ≠ 1%nat ∧
    o = Returned [(child, Some 66)].
Proof.
  destruct (getInputTree_single_overwrites
              0%nat [mkRecord 0 0] [mkLookup [letterTable 66]] 0 65
              (mkStore [mkEntry (Some 0%nat) None; mkEntry None None]
                       [mkTree {[65 := 1%nat]} []])
              (mkTree {[65 := 1%nat]} []) eq_refl)
    as (o & s' & tr' & child & Hrun & Hnew & _ & Htr' & Hg & _).
  exists o, s', tr', child.
  rewrite getInputTree_single_run with (tr := mkTree {[65 := 1%nat]} []) in Hrun
    by reflexivity.
  injection Hrun as <- <-.
  injection Htr' as <-.
  injection Hg as <-.
  repeat split. discriminate.
Defined.

Lemma isChild_addChild glyph c tr x :
  isChild (addChild glyph c tr) x → isChild tr x ∨ x = c.
Proof.
  destruct glyph as [g|a b]; simpl; intros [[g' Hg']|[rng Hrng]]; simpl in *.
  - destruct (decide (g = g')) as [<-|Hne].
    + rewrite lookup_insert_eq in Hg'. right. congruence.
    + rewrite lookup_insert_ne in Hg' by done. left. left. eauto.
  - left. right. eauto.
  - left. left. eauto.
  - apply elem_of_app in Hrng as [Hrng|Hrng]; [left; right; eauto|].
    apply list_elem_of_singleton in Hrng. right. congruence.
Qed.

Lemma isChild_addChild_new glyph c tr : isChild (addChild glyph c tr) c.
Proof.
  destruct glyph as [g|a b]; simpl.
  - left. exists g. apply lookup_insert_eq.
  - right. exists (a, b). apply elem_of_app. right. by left.
Qed.

(** An outcome recorded earlier stays true when the branch-point receives a
    child that is newer than the recorded entry. *)
Lemma splitOutcome_keep n s1 s2 tr1 glyph c kv r :
  splitOutcome n s1 tr1 kv r →
  entries s1 `prefix_of` entries s2 →
  (length (entries s1) ≤ c)%nat →
  entries s2 !! c = Some emptyEntry →
  splitOutcome n s2 (addChild glyph c tr1) kv r.
Proof.
  intros (Hsub & [Hn Hlt] & Hempty & Hkey) Hpre Hc Hcempty.
  pose proof (prefix_length _ _ Hpre) as Hlen.
  assert (∀ e v, entries s1 !! e = Some v → entries s2 !! e = Some v) as Hold.
  { intros e v Hv. by eapply prefix_lookup_Some. }
  split; [done|]. split; [lia|]. split; [by apply Hold|].
  destruct kv as [[g|a b] sub]; simpl in *.
  - destruct Hkey as (Hnot & other & Hother & Hne & Hno & Hoempty). split.
    + intros [Hchild|Heq]%isChild_addChild; [done|lia].
    + destruct glyph as [g'|a' b']; simpl; [|eauto 6 using Hold].
      destruct (decide (g' = g)) as [->|Hg].
      * exists c. rewrite lookup_insert_eq.
        split; [done|]. split; [lia|]. split; [lia|done].
      * exists other. rewrite lookup_insert_ne by done. eauto 6 using Hold.
  - destruct glyph as [g'|a' b']; simpl; [done|].
    apply elem_of_app. by left.
Qed.

Lemma closedTree_addChild s1 s2 tr glyph c :
  closedTree s1 tr →
  (length (entries s1) ≤ length (entries s2))%nat →
  (c < length (entries s2))%nat →
  closedTree s2 (addChild glyph c tr).
Proof.
  intros Hclosed Hlen Hc x [Hx| ->]%isChild_addChild; [|done].
  apply Hclosed in Hx. lia.
Qed.

(** One pair of the substitution map, run from a store that holds the
    branch-point. *)
Lemma inputTreeStep_run tree result key substitution s tr :
  trees s !! tree = Some tr →
  inputTreeStep tree result (key, substitution) s =
  (Returned (result ++ [(length (entries s), substitution)]),
   match key with
   | Single g =>
       mkStore ((entries s ++ [emptyEntry]) ++ [emptyEntry])
               (<[tree := addChild key (S (length (entries s))) tr]> (trees s))
   | Range _ _ =>
       mkStore (entries s ++ [emptyEntry])
               (<[tree := addChild key (length (entries s)) tr]> (trees s))
   end).
Proof.
  intros Ht.
  unfold inputTreeStep, individualSet, rangePush, readTree, writeTree,
    newEntry, mbind, M_bind, mret, M_ret.
  destruct key as [g|a b]; simpl; rewrite Ht; simpl; rewrite Ht; simpl;
    rewrite ?length_app; simpl; rewrite ?Nat.add_1_r; done.
Qed.

Lemma inputTreeStep_spec tree n done result kv s1 tr1 :
  trees s1 !! tree = Some tr1 →
  closedTree s1 tr1 →
  (n ≤ length (entries s1))%nat →
  Forall (λ e, (e < length (entries s1))%nat) result.*1 →
  NoDup result.*1 →
  Forall2 (splitOutcome n s1 tr1) done result →
  wp (inputTreeStep tree result kv)
     (λ result' s2,
        entries s1 `prefix_of` entries s2 ∧
        (∀ e, (length (entries s1) ≤ e < length (entries s2))%nat →
              entries s2 !! e = Some emptyEntry) ∧
        (∀ t, t ≠ tree → trees s2 !! t = trees s1 !! t) ∧
        length (trees s2) = length (trees s1) ∧
        Forall (λ e, (e < length (entries s2))%nat) result'.*1 ∧
        NoDup result'.*1 ∧
        ∃ tr2, trees s2 !! tree = Some tr2 ∧ closedTree s2 tr2 ∧
               (∀ x, isChild tr2 x →
                     isChild tr1 x ∨ (length (entries s1) ≤ x)%nat) ∧
               Forall2 (splitOutcome n s2 tr2) (done ++ [kv]) result')
     s1.
Proof.
  intros Htree Hclosed Hn Hres Hnd Hdone.
  pose proof (lookup_lt_Some _ _ _ Htree) as Htlt.
  destruct kv as [key substitution].
  eapply wp_intro; [by apply inputTreeStep_run|].
  set (child := length (entries s1)).
  assert (child ∉ result.*1) as Hfresh.
  { intros Hin. rewrite Forall_forall in Hres. apply Hres in Hin.
    unfold child in Hin. lia. }
  (* the entry that ends up in the branch-point, and the entries made *)
  set (c := match key with Single _ => S child | Range _ _ => child end).
  set (extra := match key with
                | Single _ => [emptyEntry; emptyEntry]
                | Range _ _ => [emptyEntry]
                end).
  assert (match key with
          | Single g =>
              mkStore ((entries s1 ++ [emptyEntry]) ++ [emptyEntry])
                      (<[tree := addChild key (S child) tr1]> (trees s1))
          | Range _ _ =>
              mkStore (entries s1 ++ [emptyEntry])
                      (<[tree := addChild key child tr1]> (trees s1))
          end = mkStore (entries s1 ++ extra)
                        (<[tree := addChild key c tr1]> (trees s1))) as ->.
  { destruct key; simpl; [by rewrite <- app_assoc | done]. }
  simpl.
  assert (child < length (entries s1 ++ extra))%nat as Hchild.
  { rewrite length_app. unfold child, extra. destruct key; simpl; lia. }
  assert ((entries s1 ++ extra) !! child = Some emptyEntry) as Hc1.
  { unfold extra. destruct key; by rewrite list_lookup_middle. }
  assert (child ≤ c < length (entries s1 ++ extra))%nat as Hc.
  { rewrite length_app. unfold c, child, extra. destruct key; simpl; lia. }
  assert ((entries s1 ++ extra) !! c = Some emptyEntry) as Hc2.
  { unfold c, extra. destruct key; [|by rewrite list_lookup_middle].
    rewrite lookup_app_r by (unfold child; lia).
    by replace (S child - length (entries s1))%nat with 1%nat
      by (unfold child; lia). }
  split; [by apply prefix_app_r|].
  split.
  { intros e [He1 He2]. rewrite lookup_app_r by done.
    rewrite length_app in He2.
    assert (is_Some (extra !! (e - length (entries s1))%nat)) as [x Hx].
    { apply lookup_lt_is_Some. lia. }
    rewrite Hx. f_equal. apply list_elem_of_lookup_2 in Hx.
    unfold extra in Hx.
    destruct key; repeat (apply elem_of_cons in Hx as [->|Hx]; [done|]);
      by apply elem_of_nil in Hx. }
  split; [intros t Hne; by rewrite list_lookup_insert_ne|].
  split; [by rewrite length_insert|].
  split.
  { rewrite fmap_app, Forall_app. split; [|by repeat constructor].
    eapply Forall_impl; [done|]. simpl. intros e He. unfold child in *. lia. }
  split.
  { rewrite fmap_app. apply NoDup_app. split; [done|]. split.
    - intros e He Hin. apply list_elem_of_singleton in Hin. by subst.
    - apply NoDup_singleton. }
  exists (addChild key c tr1).
  split; [by apply list_lookup_insert_eq|].
  split.
  { eapply closedTree_addChild; [done| |]; simpl; lia. }
  split.
  { intros x [Hx| ->]%isChild_addChild; [by left|right; unfold child in *; lia]. }
  apply Forall2_app.
  - eapply Forall2_impl; [done|]. intros kv r Hkv.
    apply (splitOutcome_keep n s1); [done|by apply prefix_app_r|lia|done].
  - repeat constructor; simpl; [unfold child in *; lia|lia|done|].
    destruct key as [g|a b]; simpl.
    + split.
      * intros [Hx|Heq]%(isChild_addChild (Single g)); [|unfold c in Heq; lia].
        apply Hclosed in Hx. unfold child in Hx. lia.
      * exists c. rewrite lookup_insert_eq.
        split; [done|]. split; [unfold c; lia|]. split; [lia|done].
    + apply elem_of_app. right. by left.
Qed.

(** The loop over the substitution map of a range candidate. *)
Lemma getInputTree_range_loop tree subs s tr :
  trees s !! tree = Some tr →
  closedTree s tr →
  wp (foldM (inputTreeStep tree) subs [])
     (λ result s',
        entries s `prefix_of` entries s' ∧
        (∀ e, (length (entries s) ≤ e < length (entries s'))%nat →
              entries s' !! e = Some emptyEntry) ∧
        (∀ t, t ≠ tree → trees s' !! t = trees s !! t) ∧
        length (trees s') = length (trees s) ∧
        NoDup result.*1 ∧
        ∃ tr', trees s' !! tree = Some tr' ∧ closedTree s' tr' ∧
               (∀ x, isChild tr' x →
                     isChild tr x ∨ (length (entries s) ≤ x)%nat) ∧
               Forall2 (splitOutcome (length (entries s)) s' tr') subs result)
     s.
Proof.
  intros Htree Hclosed.
  eapply wp_mono; [|apply wp_foldM with
    (I := λ done result s',
       entries s `prefix_of` entries s' ∧
       (∀ e, (length (entries s) ≤ e < length (entries s'))%nat →
             entries s' !! e = Some emptyEntry) ∧
       (∀ t, t ≠ tree → trees s' !! t = trees s !! t) ∧
       length (trees s') = length (trees s) ∧
       Forall (λ e, (e < length (entries s'))%nat) result.*1 ∧
       NoDup result.*1 ∧
       ∃ tr', trees s' !! tree = Some tr' ∧ closedTree s' tr' ∧
              (∀ x, isChild tr' x →
                    isChild tr x ∨ (length (entries s) ≤ x)%nat) ∧
              Forall2 (splitOutcome (length (entries s)) s' tr') done result)].
  - intros result s' (? & ? & ? & ? & _ & ? & ?). eauto 10.
  - split; [done|]. split; [intros e; lia|]. split; [done|]. split; [done|].
    split; [constructor|]. split; [constructor|].
    exists tr. split; [done|]. split; [done|]. split; [by left|constructor].
  - intros done kv rest result s1 _
      (Hpre & Hleaf & Hother & Hlen & Hres & Hnd & tr1 & Htr1 & Hcl1 & Hch1 & Hdone).
    pose proof (prefix_length _ _ Hpre) as Hlen1.
    eapply wp_mono;
      [|apply (inputTreeStep_spec tree (length (entries s)) done _ _ _ tr1);
        [done|done|done|done|done|done]].
    intros result' s2
      (Hpre' & Hleaf' & Hother' & Hlen' & ? & ? & tr2 & ? & ? & Hch2 & ?).
    pose proof (prefix_length _ _ Hpre') as Hlen2.
    split; [by etrans|].
    split.
    { intros e He. destruct (decide (e < length (entries s1))%nat).
      - eapply prefix_lookup_Some; [|done]. apply Hleaf. lia.
      - apply Hleaf'. lia. }
    split; [intros t Hne; rewrite Hother' by done; by apply Hother|].
    split; [congruence|]. split; [done|]. split; [done|].
    exists tr2. split; [done|]. split; [done|]. split; [|done].
    intros x [Hx|Hx]%Hch2; [|right; lia]. by apply Hch1.
Qed.

(** C8 — a range candidate whose substitution map has an individual-glyph
    key: the entry handed back for that key is a new, empty entry that the
    branch-point does not dispatch to at all, while the map holds a second
    new entry under the glyph.  For a range key the entry handed back is
    the one pushed onto the range list, and for a single-glyph candidate it
    is the one stored in the map. *)
Theorem getInputTree_split_individual_disconnected
    (tree : treeRef) (substitutions : list SubstitutionLookupRecord)
    (lookups : list Lookup) (inputIndex low high : Z) (s : Store)
    (tr : LookupTree) (subs : RangeSubstitutions)
    (Htree : trees s !! tree = Some tr)
    (Hclosed : closedTree s tr)
    (Hsubs : getSubstitutionAtPositionRange substitutions lookups inputIndex
               (low, high) = Returned subs) :
  (∃ result s' tr',
     getInputTree tree substitutions lookups inputIndex (Range low high) s
     = (Returned result, s') ∧
     trees s' !! tree = Some tr' ∧
     length result = length subs ∧
     NoDup result.*1 ∧
     ∀ i key substitution,
       subs !! i = Some (key, substitution) →
       ∃ e, result !! i = Some (e, substitution) ∧
            entries s !! e = None ∧
            entries s' !! e = Some emptyEntry ∧
            match key with
            | Single g =>
                ¬ isChild tr' e ∧
                ∃ other, individual tr' !! g = Some other ∧ other ≠ e ∧
                         entries s !! other = None ∧
                         entries s' !! other = Some emptyEntry
            | Range a b => ((a, b), e) ∈ range tr'
            end) ∧
  (∀ g o s',
     getInputTree tree substitutions lookups inputIndex (Single g) s = (o, s') →
     ∃ tr', trees s' !! tree = Some tr' ∧
            ∀ result, o = Returned result →
                      ∃ e substitution, result = [(e, substitution)] ∧
                                        individual tr' !! g = Some e).
Proof.
  split.
  - unfold getInputTree. unfold mbind at 1, M_bind at 1, lift.
    rewrite Hsubs.
    destruct (wp_elim _ _ _ (getInputTree_range_loop tree subs s tr Htree Hclosed))
      as (result & s' & Hrun & _ & _ & _ & _ & Hnd & tr' & Htr' & _ & _ & Hall).
    exists result, s', tr'. split; [done|]. split; [done|].
    split; [symmetry; by eapply Forall2_length|]. split; [done|].
    intros i key substitution Hi.
    destruct (Forall2_lookup_l _ _ _ _ _ Hall Hi)
      as ([e sub'] & Hr & Hsub & [Hge Hlt] & Hempty & Hkey).
    simpl in *. subst sub'. exists e. split; [done|].
    split; [by apply lookup_ge_None_2|]. split; [done|].
    destruct key as [g|a b]; [|done].
    destruct Hkey as (Hnot & other & Hother & Hne & Hoge & Hoempty).
    split; [done|]. exists other. split; [done|]. split; [done|].
    split; [by apply lookup_ge_None_2|done].
  - intros g o s'. rewrite (getInputTree_single_run _ _ _ _ _ _ tr) by done.
    intros [= <- <-]. simpl. pose proof (lookup_lt_Some _ _ _ Htree).
    exists (addChild (Single g) (length (entries s)) tr).
    split; [by apply list_lookup_insert_eq|].
    intros result Hresult.
    destruct (getSubstitutionAtPosition substitutions lookups inputIndex g)
      as [substitution|]; [|done].
    injection Hresult as <-. exists (length (entries s)), substitution.
    split; [done|]. apply lookup_insert_eq.
Qed.

Lemma isChild_empty x : ¬ isChild emptyTree x.
Proof.
  intros [[g Hg]|[rng Hrng]]; simpl in *.
  - by rewrite lookup_empty in Hg.
  - by apply elem_of_nil in Hrng.
Qed.

Lemma closedTree_empty s : closedTree s emptyTree.
Proof. intros c Hc. by apply isChild_empty in Hc. Qed.

Lemma getInputTree_split_individual_disconnected_witness :
  ∃ result s' tr' e other,
    getInputTree 0%nat [mkRecord 0 0] [mkLookup [splitTable]] 0 (Range 10 20)
      rootStore = (Returned result, s') ∧
    trees s' !! 0%nat = Some tr' ∧
    result !! 1%nat = Some (e, Some 100) ∧
    ¬ isChild tr' e ∧
    individual tr' !! 15 = Some other ∧ other ≠ e.
Proof.
  destruct (getInputTree_split_individual_disconnected
              0%nat [mkRecord 0 0] [mkLookup [splitTable]] 0 10 20
              rootStore emptyTree
              [(Range 10 14, None); (Single 15, Some 100); (Range 16 20, None)]
              eq_refl (closedTree_empty rootStore) eq_refl)
    as [(result & s' & tr' & Hrun & Htr' & _ & _ & Hall) _].
  destruct (Hall 1%nat (Single 15) (Some 100) eq_refl)
    as (e & He & _ & _ & Hnot & other & Hother & Hne & _).
  exists result, s', tr', e, other. done.
Defined.

(** ** processInputPosition *)

(** [getInputTree] on either kind of candidate, when resolution does not
    throw: it only adds empty entries, touches no other branch-point, and
    hands back entries it made. *)
Lemma getInputTree_spec tree substitutions lookups inputIndex glyph s1 tr :
  trees s1 !! tree = Some tr →
  closedTree s1 tr →
  validRecords (recordsAt substitutions inputIndex) lookups →
  wp (getInputTree tree substitutions lookups inputIndex glyph)
     (λ made s2,
        entries s1 `prefix_of` entries s2 ∧
        (∀ e, (length (entries s1) ≤ e < length (entries s2))%nat →
              entries s2 !! e = Some emptyEntry) ∧
        (∀ t, t ≠ tree → trees s2 !! t = trees s1 !! t) ∧
        length (trees s2) = length (trees s1) ∧
        NoDup made.*1 ∧
        Forall (λ e, (length (entries s1) ≤ e < length (entries s2))%nat)
               made.*1 ∧
        ∃ tr2, trees s2 !! tree = Some tr2 ∧ closedTree s2 tr2 ∧
               (∀ x, isChild tr2 x →
                     isChild tr x ∨ (length (entries s1) ≤ x)%nat))
     s1.
Proof.
  intros Htree Hclosed Hvalid.
  pose proof (lookup_lt_Some _ _ _ Htree) as Htlt.
  destruct glyph as [g|low high].
  - destruct (scanWith_valid (consultIndividual g) None _ _ Hvalid) as [r Hr].
    rewrite <- scanRecords_scanWith in Hr.
    eapply wp_intro.
    { rewrite (getInputTree_single_run _ _ _ _ _ _ tr) by done.
      unfold getSubstitutionAtPosition. by rewrite Hr. }
    simpl. split; [by apply prefix_app_r|].
    split.
    { intros e. rewrite length_app. simpl. intros He.
      replace e with (length (entries s1)) by lia.
      by rewrite list_lookup_middle. }
    split; [intros t Hne; by rewrite list_lookup_insert_ne|].
    split; [by rewrite length_insert|].
    split; [apply NoDup_singleton|].
    split; [repeat constructor; rewrite length_app; simpl; lia|].
    exists (addChild (Single g) (length (entries s1)) tr).
    split; [by apply list_lookup_insert_eq|].
    split.
    { eapply closedTree_addChild; [done|..]; simpl; rewrite length_app;
        simpl; lia. }
    intros x [Hx| ->]%isChild_addChild; [by left|by right].
  - destruct (scanWith_valid (consultRange (low, high))
                [(Range low high, None)] _ _ Hvalid) as [subs Hsubs].
    change [(Range low high, None)]
      with [(Range (low, high).1 (low, high).2, @None Z)] in Hsubs.
    rewrite <- scanRecordsRange_scanWith in Hsubs.
    unfold getInputTree, getSubstitutionAtPositionRange.
    rewrite Hsubs. apply wp_bind, wp_lift.
    eapply wp_mono; [|by apply (getInputTree_range_loop tree subs s1 tr)].
    intros made s2 (Hpre & Hleaf & Hother & Hlen & Hnd & tr2 & Htr2 & Hcl2 & Hch & Hall).
    split; [done|]. split; [done|]. split; [done|]. split; [done|].
    split; [done|]. split; [|eauto].
    apply Forall_fmap, Forall_lookup. intros i r Hr.
    destruct (Forall2_lookup_r _ _ _ _ _ Hall Hr) as (kv & _ & _ & Hbound & _).
    done.
Qed.

Lemma inputEntryStep_run glyphs position lookupRecords lookups next ce s v :
  entries s !! entry ce = Some v →
  inputEntryStep glyphs position lookupRecords lookups next ce s =
  foldM (inputGlyphStep ce lookupRecords lookups position)
        (dedupGlyphs glyphs) next (resetStore s (entry ce) v).
Proof.
  intros Hv.
  unfold inputEntryStep, setForward, newTree, readEntry, writeEntry,
    mbind, M_bind. simpl. rewrite Hv. simpl. by rewrite Hv.
Qed.

(** The loop over the candidates of one current entry, from a store in
    which the entry's forward branch-point [t] is the last one made. *)
Lemma inputGlyphLoop_spec ce lookupRecords lookups position G next0 sb v t tr :
  entries sb !! entry ce = Some v →
  forward v = Some t →
  trees sb !! t = Some tr →
  closedTree sb tr →
  validRecords (recordsAt lookupRecords position) lookups →
  wp (foldM (inputGlyphStep ce lookupRecords lookups position) G next0)
     (λ next' s2,
        entries sb `prefix_of` entries s2 ∧
        (∀ e, (length (entries sb) ≤ e < length (entries s2))%nat →
              entries s2 !! e = Some emptyEntry) ∧
        (∀ t', t' ≠ t → trees s2 !! t' = trees sb !! t') ∧
        length (trees s2) = length (trees sb) ∧
        (∃ tr2, trees s2 !! t = Some tr2 ∧ closedTree s2 tr2 ∧
                (∀ x, isChild tr2 x →
                      isChild tr x ∨ (length (entries sb) ≤ x)%nat) ∧
                (G = [] → tr2 = tr)) ∧
        ∃ added, next' = next0 ++ added ∧
                 NoDup (entry <$> added) ∧
                 Forall (λ m, (length (entries sb) ≤ entry m
                               < length (entries s2))%nat ∧
                              extendedBy ce m) added)
     sb.
Proof.
  intros Hv Hfwd Htree Hclosed Hvalid.
  eapply wp_mono; [|apply wp_foldM with
    (I := λ done next' s2,
       entries sb `prefix_of` entries s2 ∧
       (∀ e, (length (entries sb) ≤ e < length (entries s2))%nat →
             entries s2 !! e = Some emptyEntry) ∧
       (∀ t', t' ≠ t → trees s2 !! t' = trees sb !! t') ∧
       length (trees s2) = length (trees sb) ∧
       (∃ tr2, trees s2 !! t = Some tr2 ∧ closedTree s2 tr2 ∧
               (∀ x, isChild tr2 x →
                     isChild tr x ∨ (length (entries sb) ≤ x)%nat) ∧
               (done = [] → tr2 = tr)) ∧
       ∃ added, next' = next0 ++ added ∧
                NoDup (entry <$> added) ∧
                Forall (λ m, (length (entries sb) ≤ entry m
                              < length (entries s2))%nat ∧
                             extendedBy ce m) added)].
  - done.
  - split; [done|]. split; [intros e; lia|]. split; [done|]. split; [done|].
    split; [exists tr; split; [done|]; split; [done|]; split; [by left|done]|].
    exists []. rewrite app_nil_r. split; [done|]. split; constructor.
  - intros done glyph rest next1 s1 _
      (Hpre & Hleaf & Hother & Hlen & (tr1 & Htr1 & Hcl1 & Hch1 & _)
       & added & -> & Hnd & Hadded).
    pose proof (prefix_length _ _ Hpre) as Hlen1.
    unfold inputGlyphStep. apply wp_bind.
    eapply wp_readEntry; [by eapply prefix_lookup_Some|]. rewrite Hfwd.
    apply wp_bind.
    eapply wp_mono; [|by apply (getInputTree_spec t _ _ _ _ s1 tr1)].
    intros made s2
      (Hpre' & Hleaf' & Hother' & Hlen' & Hnd' & Hmade & tr2 & Htr2 & Hcl2 & Hch2).
    pose proof (prefix_length _ _ Hpre') as Hlen2.
    apply wp_ret.
    split; [by etrans|].
    split.
    { intros e He. destruct (decide (e < length (entries s1))%nat).
      - eapply prefix_lookup_Some; [|done]. apply Hleaf. lia.
      - apply Hleaf'. lia. }
    split; [intros t' Hne; rewrite Hother' by done; by apply Hother|].
    split; [congruence|].
    split.
    { exists tr2. split; [done|]. split; [done|]. split.
      - intros x [Hx|Hx]%Hch2; [by apply Hch1|right; lia].
      - intros Hnil. by destruct done. }
    exists (added ++ map (λ es, mkMeta es.1 (substitutions ce ++ [es.2])) made).
    split; [by rewrite app_assoc|].
    assert (entry <$> map (λ es, mkMeta es.1 (substitutions ce ++ [es.2])) made
            = made.*1) as Hentries.
    { rewrite <- list_fmap_compose. done. }
    split.
    { rewrite fmap_app, Hentries. apply NoDup_app. split; [done|].
      split; [|done]. intros e He Hin.
      rewrite Forall_forall in Hmade. apply Hmade in Hin.
      apply list_elem_of_fmap in He as (m & -> & Hm).
      rewrite Forall_forall in Hadded. apply Hadded in Hm as [Hm _]. lia. }
    apply Forall_app. split.
    + eapply Forall_impl; [done|]. simpl. intros m [Hm ?]. split; [lia|done].
    + apply Forall_forall. intros m Hm.
      apply list_elem_of_fmap in Hm as ([e sub] & -> & Hes). simpl.
      split; [|by exists sub].
      rewrite Forall_forall in Hmade.
      assert (e ∈ made.*1) as He.
      { apply list_elem_of_fmap. by exists (e, sub). }
      apply Hmade in He. lia.
Qed.

(** The whole input step, when the current entries exist and resolution
    does not throw. *)
Lemma processInputPosition_spec glyphs position currentEntries lookupRecords
    lookups s :
  Forall (λ ce, is_Some (entries s !! entry ce)) currentEntries →
  validRecords (recordsAt lookupRecords position) lookups →
  wp (processInputPosition glyphs position currentEntries lookupRecords lookups)
     (λ next s',
        resets s s' ∧
        NoDup (entry <$> next) ∧
        Forall (λ m, (length (entries s) ≤ entry m < length (entries s'))%nat ∧
                     ∃ ce, ce ∈ currentEntries ∧ extendedBy ce m) next ∧
        ∀ ce, ce ∈ currentEntries → wasReset glyphs s s' ce)
     s.
Proof.
  intros Hcur Hvalid. unfold processInputPosition.
  eapply wp_mono; [|apply wp_foldM with
    (I := λ done next s1,
       resets s s1 ∧
       NoDup (entry <$> next) ∧
       Forall (λ m, (length (entries s) ≤ entry m < length (entries s1))%nat ∧
                    ∃ ce, ce ∈ currentEntries ∧ extendedBy ce m) next ∧
       ∀ ce, ce ∈ done → wasReset glyphs s s1 ce)].
  - done.
  - split.
    { split; [done|]. split; [done|]. split; [done|].
      split; [intros e v Hv; exists v; auto|].
      split; [intros e; lia|].
      intros t tr x Ht Htr. apply lookup_lt_Some in Htr. lia. }
    split; [constructor|]. split; [constructor|].
    intros ce Hce. by apply elem_of_nil in Hce.
  - intros done ce rest next s1 Hsplit
      ((HlenE & HlenT & Htrees & Hentries & Hleaf & Hnew) & Hnd & Hnext & Hdone).
    assert (ce ∈ currentEntries) as Hce.
    { rewrite Hsplit. apply elem_of_app. right. by left. }
    rewrite Forall_forall in Hcur. destruct (Hcur ce Hce) as [v0 Hv0].
    destruct (Hentries _ _ Hv0) as (v1 & Hv1 & Hrev1 & _).
    pose proof (lookup_lt_Some _ _ _ Hv0) as Hce0.
    pose proof (lookup_lt_Some _ _ _ Hv1) as Hce1.
    unfold wp. rewrite (inputEntryStep_run _ _ _ _ _ _ _ v1) by done.
    set (t := length (trees s1)).
    set (v := mkEntry (Some t) (reverse v1)).
    set (sb := resetStore s1 (entry ce) v1).
    assert (length (entries sb) = length (entries s1)) as HlenB
      by (simpl; by rewrite length_insert).
    assert (length (trees sb) = S t) as HlenBT
      by (simpl; rewrite length_app; simpl; unfold t; lia).
    assert (entries sb !! entry ce = Some v) as Hv
      by (simpl; by apply list_lookup_insert_eq).
    assert (trees sb !! t = Some emptyTree) as Ht
      by (simpl; by apply list_lookup_middle).
    assert (∀ e, e ≠ entry ce → entries sb !! e = entries s1 !! e) as HotherE.
    { intros e Hne. simpl. by apply list_lookup_insert_ne. }
    assert (∀ t', (t' < t)%nat → trees sb !! t' = trees s1 !! t') as HotherT.
    { intros t' Hlt. simpl. by apply lookup_app_l. }
    eapply wp_mono;
      [|by apply (inputGlyphLoop_spec ce _ _ _ (dedupGlyphs glyphs) next sb v t
                    emptyTree Hv eq_refl Ht (closedTree_empty sb))].
    intros next' s2
      (Hpre & Hleaf2 & Hother2 & HlenT2 & (tr2 & Htr2 & Hcl2 & Hch2 & Hnil2)
       & added & -> & Hnd2 & Hadded).
    pose proof (prefix_length _ _ Hpre) as HlenE2.
    assert (∀ e x, entries sb !! e = Some x → entries s2 !! e = Some x) as Hkeep.
    { intros e x Hx. by eapply prefix_lookup_Some. }
    assert (wasReset glyphs s s2 ce) as Hreset.
    { exists v, t, tr2. split; [by apply Hkeep|]. split; [done|].
      split; [unfold t; lia|]. split; [done|]. done. }
    split; [|split; [|split]].
    + (* the store *)
      split; [lia|]. split; [lia|].
      split.
      { intros t' Hlt. rewrite Hother2 by (unfold t; lia).
        rewrite HotherT by (unfold t; lia). by apply Htrees. }
      split.
      { intros e x Hx. destruct (decide (e = entry ce)) as [->|Hne].
        - exists v. split; [by apply Hkeep|].
          split; [unfold v; simpl; congruence|].
          right. exists t. split; [done|]. unfold t. lia.
        - destruct (Hentries _ _ Hx) as (x1 & Hx1 & Hrev & Hfwd).
          exists x1. split; [apply Hkeep; by rewrite HotherE|].
          split; [done|]. destruct Hfwd as [?|(t0 & ? & ?)]; [by left|].
          right. exists t0. split; [done|]. lia. }
      split.
      { intros e He. destruct (decide (e < length (entries s1))%nat).
        - apply Hkeep. rewrite HotherE by lia. apply Hleaf. lia.
        - apply Hleaf2. lia. }
      intros t' tr' x Hge Htr' Hx.
      destruct (decide (t' = t)) as [->|Hne].
      * simplify_eq. split; [|by apply Hcl2].
        apply Hch2 in Hx as [Hx|Hx]; [|lia].
        by apply isChild_empty in Hx.
      * rewrite Hother2 in Htr' by done.
        pose proof (lookup_lt_Some _ _ _ Htr') as Hlt'.
        rewrite HotherT in Htr' by lia.
        specialize (Hnew _ _ _ Hge Htr' Hx). lia.
    + (* the returned entries are pairwise distinct *)
      rewrite fmap_app. apply NoDup_app. split; [done|]. split; [|done].
      intros e He Hin.
      apply list_elem_of_fmap in He as (m & -> & Hm).
      apply list_elem_of_fmap in Hin as (m' & Heq & Hm').
      rewrite Forall_forall in Hnext. apply Hnext in Hm as [Hm _].
      rewrite Forall_forall in Hadded. apply Hadded in Hm' as [Hm' _]. lia.
    + apply Forall_app. split.
      * eapply Forall_impl; [done|]. simpl. intros m [Hm ?]. split; [lia|done].
      * eapply Forall_impl; [done|]. cbv beta. intros m [Hm ?].
        split; [lia|]. by exists ce.
    + intros ce' [Hce'| ->%list_elem_of_singleton]%elem_of_app; [|done].
      destruct (decide (entry ce' = entry ce)) as [Heq|Hne].
      { destruct Hreset as (v' & t' & tr' & ? & ? & ? & ? & ?).
        exists v', t', tr'. by rewrite Heq. }
      destruct (Hdone ce' Hce') as (v' & t' & tr' & Hv' & Hf' & Hge' & Htr' & Hnil').
      exists v', t', tr'. split; [apply Hkeep; by rewrite HotherE|].
      split; [done|]. split; [done|]. split; [|done].
      pose proof (lookup_lt_Some _ _ _ Htr') as Hlt'.
      rewrite Hother2 by (unfold t; lia). by rewrite HotherT.
Qed.



(** C2, amended — an input step never reuses a node: every entry it hands
    back is an entry that did not exist before the call (so none of them is
    a node made for an earlier rule), they are pairwise distinct empty
    leaves, each continues the substitutions of a current entry by one
    position, and the forward branch-point the call leaves on a current
    entry is a new one that dispatches to no entry that existed before.
    Two rules that start from the same root therefore share the root
    only. *)
Theorem processInputPosition_makes_new_nodes
    (glyphs : list GlyphSpec) (position : Z) (currentEntries : list EntryMeta)
    (lookupRecords : list SubstitutionLookupRecord) (lookups : list Lookup)
    (s : Store)
    (Hcur : Forall (λ ce, is_Some (entries s !! entry ce)) currentEntries)
    (Hvalid : validRecords (recordsAt lookupRecords position) lookups) :
  ∃ next s',
    processInputPosition glyphs position currentEntries lookupRecords lookups s
    = (Returned next, s') ∧
    NoDup (entry <$> next) ∧
    Forall (λ m, entries s !! entry m = None ∧
                 entries s' !! entry m = Some emptyEntry ∧
                 ∃ ce, ce ∈ currentEntries ∧ extendedBy ce m) next ∧
    (∀ e v, entries s !! e = Some v → is_Some (entries s' !! e)) ∧
    (∀ ce, ce ∈ currentEntries →
       ∃ v' t tr,
         entries s' !! entry ce = Some v' ∧ forward v' = Some t ∧
         trees s !! t = None ∧ trees s' !! t = Some tr ∧
         ∀ x, isChild tr x → entries s !! x = None).
Proof.
  destruct (wp_elim _ _ _
              (processInputPosition_spec glyphs position currentEntries
                 lookupRecords lookups s Hcur Hvalid))
    as (next & s' & Hrun & (_ & _ & _ & Hentries & Hleaf & Hnew) & Hnd & Hnext
        & Hreset).
  exists next, s'. split; [done|]. split; [done|].
  split.
  { eapply Forall_impl; [done|]. cbv beta. intros m [[Hge Hlt] Hce].
    split; [by apply lookup_ge_None_2|]. split; [|done]. apply Hleaf. lia. }
  split.
  { intros e v Hv. destruct (Hentries _ _ Hv) as (v' & -> & _). by eexists. }
  intros ce Hce.
  destruct (Hreset ce Hce) as (v' & t & tr & Hv' & Hfwd & Hge & Htr & _).
  exists v', t, tr. split; [done|]. split; [done|].
  split; [by apply lookup_ge_None_2|]. split; [done|].
  intros x Hx. destruct (Hnew _ _ _ Hge Htr Hx) as [Hx1 _].
  by apply lookup_ge_None_2.
Qed.

Lemma processInputPosition_makes_new_nodes_witness :
  ∃ next s',
    processInputPosition [Single 65] 0 [mkMeta 0%nat []]
      [mkRecord 0 0] [mkLookup [letterTable 66]] rootStore
    = (Returned next, s') ∧
    NoDup (entry <$> next) ∧
    Forall (λ m, entries rootStore !! entry m = None) next.
Proof.
  destruct (processInputPosition_makes_new_nodes
              [Single 65] 0 [mkMeta 0%nat []]
              [mkRecord 0 0] [mkLookup [letterTable 66]] rootStore)
    as (next & s' & Hrun & Hnd & Hnew & _).
  { repeat constructor. by eexists. }
  { repeat constructor. by eexists. }
  exists next, s'. split; [done|]. split; [done|].
  eapply Forall_impl; [done|]. by intros m [? _].
Defined.

(** C2 as stated fails: the same first input position, processed for a
    second rule from the same root, yields another node than the one made
    for the first rule, and the root then dispatches glyph 65 to the second
    node only. *)
Lemma second_rule_makes_another_node :
  ∃ s1 s2,
    processInputPosition [Single 65] 0 [mkMeta 0%nat []]
      [mkRecord 0 0] [mkLookup [letterTable 66]] rootStore
    = (Returned [mkMeta 1%nat [Some 66]], s1) ∧
    processInputPosition [Single 65] 0 [mkMeta 0%nat []]
      [mkRecord 0 0] [mkLookup [letterTable 66]] s1
    = (Returned [mkMeta 2%nat [Some 66]], s2) ∧
    (entries s1 !! 0%nat ≫= forward) = Some 1%nat ∧
    (trees s1 !! 1%nat ≫= λ tr, individual tr !! 65) = Some 1%nat ∧
    (entries s2 !! 0%nat ≫= forward) = Some 2%nat ∧
    (trees s2 !! 2%nat ≫= λ tr, individual tr !! 65) = Some 2%nat.
Proof. eexists _, _. repeat split. Qed.

(** ** processLookaheadPosition and processBacktrackPosition *)

Lemma processContextPosition_unfold dir glyphs currentEntries :
  processContextPosition dir glyphs currentEntries =
  foldM (λ nextEntries currentEntry,
           foldM (contextGlyphStep dir currentEntry) (dedupGlyphs glyphs)
                 nextEntries)
        currentEntries [].
Proof. by destruct dir. Qed.

Lemma branch_withBranch dir v t : branch dir (withBranch dir v t) = Some t.
Proof. by destruct dir. Qed.

Lemma branch_opposite_withBranch dir v t :
  branch (opposite dir) (withBranch dir v t) = branch (opposite dir) v.
Proof. by destruct dir. Qed.

(** One candidate under a current entry that has the branch-point. *)
Lemma contextGlyphStep_run_present dir ce next glyph s v t tr :
  entries s !! entry ce = Some v →
  branch dir v = Some t →
  trees s !! t = Some tr →
  contextGlyphStep dir ce next glyph s =
  (Returned (next ++ [mkMeta (length (entries s)) (substitutions ce)]),
   mkStore (entries s ++ [emptyEntry])
           (<[t := addChild glyph (length (entries s)) tr]> (trees s))).
Proof.
  intros Hv Hb Ht.
  assert ((entries s ++ [emptyEntry]) !! entry ce = Some v) as Hv'
    by by apply lookup_app_l_Some.
  destruct dir; simpl in Hb;
    unfold contextGlyphStep, backtrackGlyphStep, lookaheadGlyphStep,
      individualSet, rangePush, readEntry, readTree, writeTree, newEntry,
      mbind, M_bind, mret, M_ret;
    simpl; rewrite Hv'; simpl; rewrite Hb; simpl; rewrite Hv'; simpl;
    rewrite Hb; destruct glyph; simpl; rewrite Ht; simpl; rewrite Ht; done.
Qed.

(** One candidate under a current entry that lacks the branch-point. *)
Lemma contextGlyphStep_run_absent dir ce next glyph s v :
  entries s !! entry ce = Some v →
  branch dir v = None →
  contextGlyphStep dir ce next glyph s =
  (Returned (next ++ [mkMeta (length (entries s)) (substitutions ce)]),
   mkStore (<[entry ce := withBranch dir v (length (trees s))]>
              (entries s ++ [emptyEntry]))
           (<[length (trees s) := addChild glyph (length (entries s)) emptyTree]>
              (trees s ++ [emptyTree]))).
Proof.
  intros Hv Hb.
  assert ((entries s ++ [emptyEntry]) !! entry ce = Some v) as Hv'
    by by apply lookup_app_l_Some.
  pose proof (lookup_lt_Some _ _ _ Hv') as Hlt.
  assert (∀ w, <[entry ce := w]> (entries s ++ [emptyEntry]) !! entry ce
               = Some w) as Hw by (intros w; by apply list_lookup_insert_eq).
  assert ((trees s ++ [emptyTree]) !! length (trees s) = Some emptyTree) as Ht
    by by apply list_lookup_middle.
  destruct dir; simpl in Hb;
    unfold contextGlyphStep, backtrackGlyphStep, lookaheadGlyphStep,
      setForward, setReverse, individualSet, rangePush, readEntry, writeEntry,
      readTree, writeTree, newEntry, newTree, mbind, M_bind, mret, M_ret;
    simpl; rewrite Hv'; simpl; rewrite Hb; simpl; rewrite Hv'; simpl;
    rewrite Hv'; simpl; rewrite Hw; simpl;
    destruct glyph; simpl; rewrite Ht; simpl; rewrite Ht; done.
Qed.

Lemma grows_refl dir G s : grows dir G s s.
Proof.
  split; [done|]. split; [done|]. split.
  - intros e v Hv. exists v. auto.
  - intros t tr Ht. exists tr. split; [done|]. split; [done|].
    split; [done|]. intros g c Hc. exists c. auto.
Qed.

Lemma grows_trans dir G s1 s2 s3 :
  grows dir G s1 s2 → grows dir G s2 s3 → grows dir G s1 s3.
Proof.
  intros (HE1 & HT1 & He1 & Ht1) (HE2 & HT2 & He2 & Ht2).
  split; [lia|]. split; [lia|]. split.
  - intros e v Hv.
    destruct (He1 _ _ Hv) as (v' & Hv' & Ho1 & Hb1).
    destruct (He2 _ _ Hv') as (v'' & Hv'' & Ho2 & Hb2).
    exists v''. split; [done|]. split; [congruence|].
    destruct Hb1 as [Hb1|(Hnone & t & Hb1 & Hlt)].
    + destruct Hb2 as [Hb2|(Hnone & t & Hb2 & Hlt)]; [left; congruence|].
      right. split; [congruence|]. exists t. split; [done|lia].
    + destruct Hb2 as [Hb2|(Hnone' & _)]; [|congruence].
      right. split; [done|]. exists t. split; [congruence|lia].
  - intros t tr Ht.
    destruct (Ht1 _ _ Ht) as (tr' & Ht' & Hp1 & Hk1 & Hc1).
    destruct (Ht2 _ _ Ht') as (tr'' & Ht'' & Hp2 & Hk2 & Hc2).
    exists tr''. split; [done|]. split; [by etrans|]. split.
    + intros g Hg. rewrite Hk2 by done. by apply Hk1.
    + intros g c Hc.
      destruct (Hc1 _ _ Hc) as (c' & Hc' & Hb1).
      destruct (Hc2 _ _ Hc') as (c'' & Hc'' & Hb2).
      exists c''. split; [done|]. lia.
Qed.

Lemma grows_ready dir G s s' ce :
  grows dir G s s' → ready dir s ce → ready dir s' ce.
Proof.
  intros (_ & HT & He & _) (v & Hv & Hb).
  destruct (He _ _ Hv) as (v' & Hv' & _ & Hb').
  exists v'. split; [done|]. intros t Ht.
  destruct Hb' as [Hb'|(_ & t' & Hb' & Hlt)].
  - rewrite Hb' in Ht. apply Hb in Ht. lia.
  - simplify_eq. lia.
Qed.

Lemma grows_linked dir G n s s' ce glyph :
  grows dir G s s' → linked dir n s ce glyph → linked dir n s' ce glyph.
Proof.
  intros (HE & _ & He & Ht) (v & t & tr & c & Hv & Hb & Htr & Hc & Hkey).
  destruct (He _ _ Hv) as (v' & Hv' & _ & Hb').
  destruct (Ht _ _ Htr) as (tr' & Htr' & Hp & _ & Hch).
  assert (branch dir v' = Some t) as Hbt.
  { destruct Hb' as [Hb'|(Hnone & _)]; congruence. }
  destruct glyph as [g|a b].
  - destruct (Hch _ _ Hkey) as (c' & Hc' & Hbound).
    exists v', t, tr', c'. split; [done|]. split; [done|]. split; [done|].
    split; [lia|done].
  - exists v', t, tr', c. split; [done|]. split; [done|]. split; [done|].
    split; [lia|]. destruct Hp as [k ->]. apply elem_of_app. by left.
Qed.

(** One candidate under one current entry. *)
Lemma contextGlyphStep_spec dir G n nT ce next glyph s1 :
  glyph ∈ G →
  ready dir s1 ce →
  (entry ce < n)%nat →
  (n ≤ length (entries s1))%nat →
  leavesFrom n s1 →
  newTreesFresh nT n s1 →
  wp (contextGlyphStep dir ce next glyph)
     (λ next' s2,
        next' = next ++ [mkMeta (length (entries s1)) (substitutions ce)] ∧
        length (entries s2) = S (length (entries s1)) ∧
        leavesFrom n s2 ∧
        newTreesFresh nT n s2 ∧
        grows dir G s1 s2 ∧
        linked dir n s2 ce glyph)
     s1.
Proof.
  intros HG (v & Hv & Hb) Hce Hn Hleaf Hfresh.
  pose proof (lookup_lt_Some _ _ _ Hv) as Hlt.
  set (child := length (entries s1)).
  destruct (branch dir v) as [t|] eqn:Hbranch.
  - (* the branch-point is there *)
    destruct (lookup_lt_is_Some_2 (trees s1) t (Hb t eq_refl)) as [tr Htr].
    pose proof (lookup_lt_Some _ _ _ Htr) as Htlt.
    eapply wp_intro; [by eapply contextGlyphStep_run_present|].
    split; [done|]. split; [simpl; rewrite length_app; simpl; lia|].
    split.
    { intros e. simpl. rewrite length_app. simpl. intros He.
      destruct (decide (e < length (entries s1))%nat).
      - rewrite lookup_app_l by done. apply Hleaf. lia.
      - replace e with (length (entries s1)) by lia.
        by rewrite list_lookup_middle. }
    split.
    { intros t0 tr0 x Hge. simpl. destruct (decide (t0 = t)) as [->|Hne].
      - rewrite list_lookup_insert_eq by done. intros [= <-].
        intros [Hx| ->]%isChild_addChild; [by eapply Hfresh|done].
      - rewrite list_lookup_insert_ne by done. by apply Hfresh. }
    split.
    { split; [simpl; rewrite length_app; lia|].
      split; [simpl; by rewrite length_insert|]. split.
      - intros e x Hx. exists x. split; [by apply lookup_app_l_Some|]. auto.
      - intros t0 tr0 Ht0. simpl. destruct (decide (t0 = t)) as [->|Hne].
        + rewrite list_lookup_insert_eq by done. simplify_eq.
          exists (addChild glyph child tr). split; [done|].
          destruct glyph as [g0|a b]; simpl.
          * split; [done|]. split.
            -- intros g Hg. apply lookup_insert_ne. by intros ->.
            -- intros g c Hc. destruct (decide (g0 = g)) as [->|Hg].
               ++ exists child. rewrite lookup_insert_eq. split; [done|].
                  right. rewrite length_app. simpl. unfold child. lia.
               ++ exists c. rewrite lookup_insert_ne by done. auto.
          * split; [by apply prefix_app_r|]. split; [done|].
            intros g c Hc. exists c. auto.
        + rewrite list_lookup_insert_ne by done. exists tr0.
          split; [done|]. split; [done|]. split; [done|].
          intros g c Hc. exists c. auto. }
    exists v, t, (addChild glyph child tr), child. simpl.
    split; [by apply lookup_app_l_Some|]. split; [done|].
    split; [by apply list_lookup_insert_eq|].
    split; [rewrite length_app; simpl; unfold child; lia|].
    destruct glyph as [g|a b]; simpl.
    + apply lookup_insert_eq.
    + apply elem_of_app. right. by left.
  - (* the branch-point is made first *)
    eapply wp_intro; [by eapply contextGlyphStep_run_absent|].
    set (tnew := length (trees s1)).
    assert (entry ce < length (entries s1 ++ [emptyEntry]))%nat as Hlt'
      by (rewrite length_app; lia).
    assert (tnew < length (trees s1 ++ [emptyTree]))%nat as Htnew
      by (rewrite length_app; simpl; unfold tnew; lia).
    split; [done|].
    split; [simpl; rewrite length_insert, length_app; simpl; lia|].
    split.
    { intros e. simpl. rewrite length_insert, length_app. simpl. intros He.
      rewrite list_lookup_insert_ne by lia.
      destruct (decide (e < length (entries s1))%nat).
      - rewrite lookup_app_l by done. apply Hleaf. lia.
      - replace e with (length (entries s1)) by lia.
        by rewrite list_lookup_middle. }
    split.
    { intros t0 tr0 x Hge. simpl. destruct (decide (t0 = tnew)) as [->|Hne].
      - rewrite list_lookup_insert_eq by done. intros [= <-].
        intros [Hx| ->]%isChild_addChild; [by apply isChild_empty in Hx|done].
      - rewrite list_lookup_insert_ne by done. intros Ht0.
        pose proof (lookup_lt_Some _ _ _ Ht0) as Hlt0.
        rewrite length_app in Hlt0. simpl in Hlt0.
        rewrite lookup_app_l in Ht0 by (unfold tnew in Hne; lia).
        by eapply Hfresh. }
    split.
    { split; [simpl; rewrite length_insert, length_app; lia|].
      split; [simpl; rewrite length_insert, length_app; lia|]. split.
      - intros e x Hx. simpl. destruct (decide (e = entry ce)) as [->|Hne].
        + rewrite list_lookup_insert_eq by done. simplify_eq.
          exists (withBranch dir v tnew). split; [done|].
          split; [apply branch_opposite_withBranch|].
          right. split; [done|]. exists tnew.
          split; [apply branch_withBranch|].
          rewrite length_insert, length_app. simpl. unfold tnew. lia.
        + rewrite list_lookup_insert_ne by done. exists x.
          split; [by apply lookup_app_l_Some|]. auto.
      - intros t0 tr0 Ht0. simpl.
        pose proof (lookup_lt_Some _ _ _ Ht0) as Hlt0.
        rewrite list_lookup_insert_ne by (unfold tnew; lia).
        exists tr0. split; [by apply lookup_app_l_Some|].
        split; [done|]. split; [done|]. intros g c Hc. exists c. auto. }
    exists (withBranch dir v tnew), tnew, (addChild glyph child emptyTree),
      child. simpl.
    split; [by apply list_lookup_insert_eq|].
    split; [apply branch_withBranch|].
    split; [by apply list_lookup_insert_eq|].
    split; [rewrite length_insert, length_app; simpl; unfold child; lia|].
    destruct glyph as [g|a b]; simpl.
    + apply lookup_insert_eq.
    + by left.
Qed.

(** The loop over the candidates of one current entry. *)
Lemma contextGlyphLoop_spec dir G n nT ce D next0 s1 :
  (∀ glyph, glyph ∈ D → glyph ∈ G) →
  ready dir s1 ce →
  (entry ce < n)%nat →
  (n ≤ length (entries s1))%nat →
  leavesFrom n s1 →
  newTreesFresh nT n s1 →
  wp (foldM (contextGlyphStep dir ce) D next0)
     (λ next' s2,
        substitutions <$> next' =
          (substitutions <$> next0) ++ replicate (length D) (substitutions ce) ∧
        entry <$> next' =
          (entry <$> next0) ++ seq (length (entries s1)) (length D) ∧
        length (entries s2) = (length (entries s1) + length D)%nat ∧
        leavesFrom n s2 ∧
        newTreesFresh nT n s2 ∧
        grows dir G s1 s2 ∧
        ∀ glyph, glyph ∈ D → linked dir n s2 ce glyph)
     s1.
Proof.
  intros HD Hready Hce Hn Hleaf Hfresh.
  apply wp_foldM with
    (I := λ done next' s2,
       substitutions <$> next' =
         (substitutions <$> next0) ++ replicate (length done) (substitutions ce) ∧
       entry <$> next' =
         (entry <$> next0) ++ seq (length (entries s1)) (length done) ∧
       length (entries s2) = (length (entries s1) + length done)%nat ∧
       leavesFrom n s2 ∧
       newTreesFresh nT n s2 ∧
       grows dir G s1 s2 ∧
       ∀ glyph, glyph ∈ done → linked dir n s2 ce glyph).
  - simpl. rewrite !app_nil_r, Nat.add_0_r.
    split; [done|]. split; [done|]. split; [done|]. split; [done|].
    split; [done|]. split; [apply grows_refl|].
    intros glyph Hin. by apply elem_of_nil in Hin.
  - intros done glyph rest next1 s2 Hsplit
      (Hsubs & Hents & Hlen & Hleaf2 & Hfresh2 & Hgrow & Hlinked).
    assert (glyph ∈ G) as HG.
    { apply HD. rewrite Hsplit. apply elem_of_app. right. by left. }
    eapply wp_mono;
      [|apply (contextGlyphStep_spec dir G n nT ce next1 glyph s2);
        [done|by eapply grows_ready|done|lia|done|done]].
    intros next' s3 (-> & Hlen3 & Hleaf3 & Hfresh3 & Hgrow3 & Hlinked3).
    rewrite length_app. simpl. rewrite Nat.add_1_r.
    split.
    { rewrite fmap_app, Hsubs, replicate_S_end. simpl. by rewrite app_assoc. }
    split.
    { rewrite fmap_app, Hents, seq_S. simpl. rewrite Hlen.
      by rewrite app_assoc. }
    split; [lia|]. split; [done|]. split; [done|].
    split; [by eapply grows_trans|].
    intros glyph' [Hin| ->%list_elem_of_singleton]%elem_of_app; [|done].
    eapply grows_linked; [done|]. by apply Hlinked.
Qed.

(** The whole context step. *)
Lemma processContextPosition_spec dir glyphs currentEntries s :
  Forall (ready dir s) currentEntries →
  wp (processContextPosition dir glyphs currentEntries)
     (λ next s',
        substitutions <$> next =
          flat_map (λ ce, replicate (length (dedupGlyphs glyphs))
                                    (substitutions ce)) currentEntries ∧
        entry <$> next =
          seq (length (entries s))
              (length currentEntries * length (dedupGlyphs glyphs)) ∧
        length (entries s') =
          (length (entries s)
           + length currentEntries * length (dedupGlyphs glyphs))%nat ∧
        leavesFrom (length (entries s)) s' ∧
        newTreesFresh (length (trees s)) (length (entries s)) s' ∧
        grows dir glyphs s s' ∧
        ∀ ce glyph, ce ∈ currentEntries → glyph ∈ glyphs →
                    linked dir (length (entries s)) s' ce glyph)
     s.
Proof.
  intros Hcur. rewrite processContextPosition_unfold.
  set (D := dedupGlyphs glyphs). set (n := length (entries s)).
  assert (∀ glyph, glyph ∈ D ↔ glyph ∈ glyphs) as HD.
  { intros glyph. unfold D. rewrite dedupGlyphs_firstOccurrences.
    apply firstOccurrences_elem. }
  apply wp_foldM with
    (I := λ done next s1,
       substitutions <$> next =
         flat_map (λ ce, replicate (length D) (substitutions ce)) done ∧
       entry <$> next = seq n (length done * length D) ∧
       length (entries s1) = (n + length done * length D)%nat ∧
       leavesFrom n s1 ∧
       newTreesFresh (length (trees s)) n s1 ∧
       grows dir glyphs s s1 ∧
       ∀ ce glyph, ce ∈ done → glyph ∈ glyphs → linked dir n s1 ce glyph).
  - simpl. split; [done|]. split; [done|]. split; [unfold n; lia|].
    split; [intros e; unfold n; lia|].
    split.
    { intros t tr x Hge Ht. apply lookup_lt_Some in Ht. lia. }
    split; [apply grows_refl|].
    intros ce glyph Hin. by apply elem_of_nil in Hin.
  - intros done ce rest next s1 Hsplit
      (Hsubs & Hents & Hlen & Hleaf & Hfresh & Hgrow & Hlinked).
    assert (ready dir s ce) as Hready.
    { rewrite Forall_forall in Hcur. apply Hcur. rewrite Hsplit.
      apply elem_of_app. right. by left. }
    assert (entry ce < n)%nat as Hce.
    { destruct Hready as (v & Hv & _). by apply lookup_lt_Some in Hv. }
    eapply wp_mono;
      [|apply (contextGlyphLoop_spec dir glyphs n (length (trees s)) ce D next s1);
        [by intros glyph ?%HD|by eapply grows_ready|done|lia|done|done]].
    intros next' s2
      (Hsubs' & Hents' & Hlen' & Hleaf' & Hfresh' & Hgrow' & Hlinked').
    rewrite length_app. simpl.
    split.
    { rewrite Hsubs', Hsubs, flat_map_app. simpl. by rewrite app_nil_r. }
    split.
    { rewrite Hents', Hents, Hlen.
      replace ((length done + 1) * length D)%nat
        with (length done * length D + length D)%nat by lia.
      by rewrite seq_app. }
    split; [lia|]. split; [done|]. split; [done|].
    split; [by eapply grows_trans|].
    intros ce' glyph [Hin| ->%list_elem_of_singleton]%elem_of_app HG.
    + eapply grows_linked; [done|]. by apply Hlinked.
    + apply Hlinked'. by apply HD.
Qed.

(** C6, amended — a backtrack step (on the reverse branch-point) and a
    lookahead step (on the forward one) hand back, for every current entry
    and every deduplicated candidate, one new empty leaf that carries the
    current entry's substitutions unchanged.  A current entry keeps the
    branch-point it has; one is made only for an entry that has none, and
    then dispatches only to leaves made by the step.  The branch-point of
    the other direction is not touched.  A branch-point that existed keeps
    its range list as the front part of the new one and keeps its children
    under glyphs that are not candidates; under a candidate glyph the child
    is replaced by a new leaf.  After the step every current entry
    dispatches every candidate to a leaf made by the step. *)
Theorem context_steps_extend_branch_points
    (dir : Direction) (glyphs : list GlyphSpec)
    (currentEntries : list EntryMeta) (s : Store)
    (Hcur : Forall (ready dir s) currentEntries) :
  ∃ next s',
    processContextPosition dir glyphs currentEntries s = (Returned next, s') ∧
    substitutions <$> next =
      flat_map (λ ce, replicate (length (dedupGlyphs glyphs))
                                (substitutions ce)) currentEntries ∧
    entry <$> next =
      seq (length (entries s))
          (length currentEntries * length (dedupGlyphs glyphs)) ∧
    (∀ m, m ∈ next →
          entries s !! entry m = None ∧
          entries s' !! entry m = Some emptyEntry) ∧
    (∀ e v, entries s !! e = Some v →
       ∃ v', entries s' !! e = Some v' ∧
             branch (opposite dir) v' = branch (opposite dir) v ∧
             match branch dir v with
             | Some t => branch dir v' = Some t
             | None =>
                 branch dir v' = None ∨
                 ∃ t tr, branch dir v' = Some t ∧ trees s !! t = None ∧
                         trees s' !! t = Some tr ∧
                         ∀ x, isChild tr x → entries s !! x = None
             end) ∧
    (∀ t tr, trees s !! t = Some tr →
       ∃ tr', trees s' !! t = Some tr' ∧
              range tr `prefix_of` range tr' ∧
              (∀ g, Single g ∉ glyphs →
                    individual tr' !! g = individual tr !! g) ∧
              (∀ g c, individual tr !! g = Some c →
                      ∃ c', individual tr' !! g = Some c' ∧
                            (c' = c ∨ entries s !! c' = None))) ∧
    (∀ ce glyph, ce ∈ currentEntries → glyph ∈ glyphs →
       ∃ v t tr c,
         entries s' !! entry ce = Some v ∧ branch dir v = Some t ∧
         trees s' !! t = Some tr ∧
         entries s !! c = None ∧ entries s' !! c = Some emptyEntry ∧
         match glyph with
         | Single g => individual tr !! g = Some c
         | Range a b => ((a, b), c) ∈ range tr
         end).
Proof.
  destruct (wp_elim _ _ _
              (processContextPosition_spec dir glyphs currentEntries s Hcur))
    as (next & s' & Hrun & Hsubs & Hents & Hlen & Hleaf & Hfresh
        & (HE & HT & He & Ht) & Hlinked).
  exists next, s'. split; [done|]. split; [done|]. split; [done|].
  split.
  { intros m Hm.
    assert (entry m ∈ entry <$> next) as Hin
      by (apply list_elem_of_fmap; eauto).
    rewrite Hents in Hin. apply elem_of_seq in Hin.
    split; [apply lookup_ge_None_2; lia|]. apply Hleaf. lia. }
  split.
  { intros e v Hv. destruct (He _ _ Hv) as (v' & Hv' & Hopp & Hb).
    exists v'. split; [done|]. split; [done|].
    destruct (branch dir v) as [t|] eqn:Hbranch.
    - destruct Hb as [Hb|(Hnone & _)]; [done|discriminate].
    - destruct Hb as [Hb|(_ & t & Hb & Hge & Hlt)]; [by left|].
      right. destruct (lookup_lt_is_Some_2 (trees s') t Hlt) as [tr Htr].
      exists t, tr. split; [done|].
      split; [by apply lookup_ge_None_2|]. split; [done|].
      intros x Hx. apply lookup_ge_None_2. by eapply Hfresh. }
  split.
  { intros t tr Htr. destruct (Ht _ _ Htr) as (tr' & Htr' & Hp & Hk & Hc).
    exists tr'. split; [done|]. split; [done|]. split; [done|].
    intros g c Hg. destruct (Hc _ _ Hg) as (c' & Hc' & [->|Hbound]).
    - exists c. auto.
    - exists c'. split; [done|]. right. apply lookup_ge_None_2. lia. }
  intros ce glyph Hce Hglyph.
  destruct (Hlinked ce glyph Hce Hglyph)
    as (v & t & tr & c & Hv & Hb & Htr & Hc & Hkey).
  exists v, t, tr, c. split; [done|]. split; [done|]. split; [done|].
  split; [apply lookup_ge_None_2; lia|]. split; [|done]. apply Hleaf. lia.
Qed.

Lemma populatedStore_ready dir : Forall (ready dir populatedStore) [mkMeta 0%nat []].
Proof.
  repeat constructor. eexists. split; [reflexivity|].
  destruct dir; simpl; intros t [= <-]; lia.
Qed.

Lemma context_steps_extend_branch_points_witness :
  ∃ next s',
    processBacktrackPosition [Range 10 20; Single 70; Range 10 20]
      [mkMeta 0%nat []] populatedStore = (Returned next, s') ∧
    substitutions <$> next = [[]; []] ∧
    entry <$> next = [2%nat; 3%nat].
Proof.
  destruct (context_steps_extend_branch_points
              Backtrack [Range 10 20; Single 70; Range 10 20]
              [mkMeta 0%nat []] populatedStore (populatedStore_ready Backtrack))
    as (next & s' & Hrun & Hsubs & Hents & _).
  exists next, s'. done.
Defined.

(** C6 as stated fails: a branch-point that exists does not keep all its
    contents.  When the same backtrack (or lookahead) position is processed
    a second time from the same root, the child the first call stored under
    glyph 65 is replaced by the leaf of the second call. *)
Lemma context_step_replaces_existing_child :
  ∃ s1 s2 s1' s2',
    processBacktrackPosition [Single 65] [mkMeta 0%nat []] rootStore
    = (Returned [mkMeta 1%nat []], s1) ∧
    (entries s1 !! 0%nat ≫= reverse) = Some 1%nat ∧
    (trees s1 !! 1%nat ≫= λ tr, individual tr !! 65) = Some 1%nat ∧
    processBacktrackPosition [Single 65] [mkMeta 0%nat []] s1
    = (Returned [mkMeta 2%nat []], s2) ∧
    (entries s2 !! 0%nat ≫= reverse) = Some 1%nat ∧
    (trees s2 !! 1%nat ≫= λ tr, individual tr !! 65) = Some 2%nat ∧
    processLookaheadPosition [Single 65] [mkMeta 0%nat []] rootStore
    = (Returned [mkMeta 1%nat []], s1') ∧
    (entries s1' !! 0%nat ≫= forward) = Some 0%nat ∧
    (trees s1' !! 0%nat ≫= λ tr, individual tr !! 65) = Some 1%nat ∧
    processLookaheadPosition [Single 65] [mkMeta 0%nat []] s1'
    = (Returned [mkMeta 2%nat []], s2') ∧
    (entries s2' !! 0%nat ≫= forward) = Some 0%nat ∧
    (trees s2' !! 0%nat ≫= λ tr, individual tr !! 65) = Some 2%nat.
Proof. eexists _, _, _, _. repeat split. Qed.

(** * Further properties *)

(** ** dedupGlyphs *)

Lemma firstOccurrences_app l1 l2 :
  firstOccurrences (l1 ++ l2) =
  firstOccurrences l1 ++ filter (λ x, x ∉ l1) (firstOccurrences l2).
Proof.
  induction l2 as [|x l2 IH] using rev_ind.
  - by rewrite !app_nil_r.
  - rewrite app_assoc, !firstOccurrences_snoc, IH, filter_app, app_assoc.
    f_equal.
    destruct (decide (x ∈ l2)) as [H2|H2].
    + rewrite decide_True by (apply elem_of_app; by right). done.
    + destruct (decide (x ∈ l1)) as [H1|H1].
      * rewrite decide_True by (apply elem_of_app; by left).
        rewrite filter_cons_False by (intros Hn; by apply Hn). done.
      * rewrite decide_False by (rewrite elem_of_app; tauto).
        by rewrite filter_cons_True.
Qed.

(** X1 — deduplicating a concatenation: the first list is deduplicated on
    its own, and of the second only the values that the first does not hold
    are added, deduplicated and in their order. *)
Theorem dedupGlyphs_app (l1 l2 : list GlyphSpec) :
  dedupGlyphs (l1 ++ l2) =
  dedupGlyphs l1 ++ filter (λ x, x ∉ l1) (dedupGlyphs l2).
Proof. rewrite !dedupGlyphs_firstOccurrences. apply firstOccurrences_app. Qed.

(** X2 — the deduplicator never lengthens a list, keeps its length exactly
    when the list holds no value twice, keeps the first element in front,
    and returns the empty list only for the empty list. *)
Theorem dedupGlyphs_length (glyphs : list GlyphSpec) :
  (length (dedupGlyphs glyphs) ≤ length glyphs)%nat ∧
  (length (dedupGlyphs glyphs) = length glyphs ↔ NoDup glyphs) ∧
  head (dedupGlyphs glyphs) = head glyphs ∧
  (dedupGlyphs glyphs = [] ↔ glyphs = []).
Proof.
  rewrite dedupGlyphs_firstOccurrences.
  pose proof (firstOccurrences_sublist glyphs) as Hsub.
  split; [by apply sublist_length|]. split; [|split].
  - split.
    + intros Hlen.
      assert (firstOccurrences glyphs ≡ₚ glyphs) as <-.
      { apply submseteq_length_Permutation; [by apply sublist_submseteq|lia]. }
      apply firstOccurrences_NoDup.
    + intros Hnd. by rewrite firstOccurrences_id.
  - destruct glyphs as [|x l]; [done|].
    change (x :: l) with ([x] ++ l). by rewrite firstOccurrences_app.
  - split; [|by intros ->]. intros Hnil.
    destruct glyphs as [|x l]; [done|].
    assert (x ∈ firstOccurrences (x :: l)) as Hin
      by (apply firstOccurrences_elem; by left).
    rewrite Hnil in Hin. by apply elem_of_nil in Hin.
Qed.

(** ** The resolvers *)

Lemma recordsAt_other pre s post index :
  sequenceIndex s ≠ index →
  recordsAt (pre ++ s :: post) index = recordsAt (pre ++ post) index.
Proof.
  intros Hne. unfold recordsAt.
  by rewrite !filter_app, filter_cons_False.
Qed.

Lemma lookupAt_more lookups more i lookup :
  lookupAt lookups i = Some lookup → lookupAt (lookups ++ more) i = Some lookup.
Proof.
  unfold lookupAt. destruct (i <? 0); [done|]. apply lookup_app_l_Some.
Qed.

Lemma scanWith_more {R} (consult : Lookup → option R) fallback records
    lookups more r :
  scanWith consult fallback records lookups = Returned r →
  scanWith consult fallback records (lookups ++ more) = Returned r.
Proof.
  induction records as [|s rest IH]; simpl; [done|].
  destruct (lookupAt lookups (lookupListIndex s)) as [lookup|] eqn:Hs; [|done].
  rewrite (lookupAt_more _ more _ _ Hs).
  destruct (consult lookup); [done|apply IH].
Qed.

(** X3 — resolution is local: a record of another sequence position can be
    dropped from the record list without changing the result of either
    resolver (thrown or returned), and a result that was returned stays the
    same when lookups are appended to the lookup table. *)
Theorem resolution_is_local
    (substitutions : list SubstitutionLookupRecord) (lookups : list Lookup)
    (index : Z) :
  (∀ pre s post g,
     substitutions = pre ++ s :: post → sequenceIndex s ≠ index →
     getSubstitutionAtPosition substitutions lookups index g =
     getSubstitutionAtPosition (pre ++ post) lookups index g) ∧
  (∀ pre s post rng,
     substitutions = pre ++ s :: post → sequenceIndex s ≠ index →
     getSubstitutionAtPositionRange substitutions lookups index rng =
     getSubstitutionAtPositionRange (pre ++ post) lookups index rng) ∧
  (∀ more g r,
     getSubstitutionAtPosition substitutions lookups index g = Returned r →
     getSubstitutionAtPosition substitutions (lookups ++ more) index g
     = Returned r) ∧
  (∀ more rng m,
     getSubstitutionAtPositionRange substitutions lookups index rng
     = Returned m →
     getSubstitutionAtPositionRange substitutions (lookups ++ more) index rng
     = Returned m).
Proof.
  unfold getSubstitutionAtPosition, getSubstitutionAtPositionRange.
  split; [|split; [|split]].
  - intros pre s post g -> Hne. by rewrite recordsAt_other.
  - intros pre s post rng -> Hne. by rewrite recordsAt_other.
  - intros more g r. rewrite !scanRecords_scanWith. apply scanWith_more.
  - intros more rng m. rewrite !scanRecordsRange_scanWith. apply scanWith_more.
Qed.

Lemma resolution_is_local_witness :
  getSubstitutionAtPosition [mkRecord 1 5; mkRecord 0 0]
    [mkLookup [letterTable 66]] 0 65 =
  getSubstitutionAtPosition [mkRecord 0 0] [mkLookup [letterTable 66]] 0 65 ∧
  getSubstitutionAtPosition [mkRecord 1 5; mkRecord 0 0]
    ([mkLookup [letterTable 66]] ++ [mkLookup [successorTable]]) 0 65 =
  Returned (Some 66).
Proof.
  destruct (resolution_is_local [mkRecord 1 5; mkRecord 0 0]
              [mkLookup [letterTable 66]] 0) as (Hdrop & _ & Hmore & _).
  split.
  - apply (Hdrop [] (mkRecord 1 5) [mkRecord 0 0]); [reflexivity|].
    cbn [sequenceIndex]. lia.
  - apply Hmore. reflexivity.
Defined.

(** ** getInputTree *)

(** X4 — a range candidate that resolution answers with a single range
    pair (as it does when no record belongs to the position) makes exactly
    one new entry, appends it to the range list under that pair's range,
    leaves the individual map alone and hands back that same entry. *)
Theorem getInputTree_range_unsplit
    (tree : treeRef) (substitutions : list SubstitutionLookupRecord)
    (lookups : list Lookup) (inputIndex low high : Z) (s : Store)
    (tr : LookupTree)
    (Htree : trees s !! tree = Some tr) :
  (∀ a b substitution,
     getSubstitutionAtPositionRange substitutions lookups inputIndex (low, high)
     = Returned [(Range a b, substitution)] →
     getInputTree tree substitutions lookups inputIndex (Range low high) s =
     (Returned [(length (entries s), substitution)],
      mkStore (entries s ++ [emptyEntry])
              (<[tree := mkTree (individual tr)
                                (range tr ++ [((a, b), length (entries s))])]>
                 (trees s)))) ∧
  (recordsAt substitutions inputIndex = [] →
   getInputTree tree substitutions lookups inputIndex (Range low high) s =
   (Returned [(length (entries s), None)],
    mkStore (entries s ++ [emptyEntry])
            (<[tree := mkTree (individual tr)
                              (range tr ++ [((low, high), length (entries s))])]>
               (trees s)))).
Proof.
  assert (∀ a b substitution,
     getSubstitutionAtPositionRange substitutions lookups inputIndex (low, high)
     = Returned [(Range a b, substitution)] →
     getInputTree tree substitutions lookups inputIndex (Range low high) s =
     (Returned [(length (entries s), substitution)],
      mkStore (entries s ++ [emptyEntry])
              (<[tree := mkTree (individual tr)
                                (range tr ++ [((a, b), length (entries s))])]>
                 (trees s)))) as Hone.
  { intros a b substitution Hres. unfold getInputTree.
    unfold mbind at 1, M_bind at 1, lift. rewrite Hres.
    cbv beta iota. cbn [foldM]. unfold mbind, M_bind.
    by rewrite (inputTreeStep_run tree [] (Range a b) substitution s tr). }
  split; [exact Hone|].
  intros Hnone. apply Hone.
  unfold getSubstitutionAtPositionRange. by rewrite Hnone.
Qed.

Lemma getInputTree_range_unsplit_witness :
  getInputTree 0%nat [mkRecord 1 0] [mkLookup [splitTable]] 0 (Range 10 20)
    rootStore =
  (Returned [(1%nat, None)],
   mkStore [mkEntry (Some 0%nat) None; emptyEntry]
           [mkTree ∅ [((10, 20), 1%nat)]]).
Proof.
  exact (proj2 (getInputTree_range_unsplit
                  0%nat [mkRecord 1 0] [mkLookup [splitTable]] 0 10 20
                  rootStore emptyTree eq_refl) eq_refl).
Defined.

(** ** processInputPosition *)

(** X5 — an input step is not undone by a throw: when resolution of the
    first candidate throws, the step throws while working on the first
    current entry, whose forward branch-point has by then been replaced by a
    new one (holding a fresh child already if the candidate is a single
    glyph); nothing else of the store has changed. *)
Theorem processInputPosition_thrown_keeps_reset
    (glyphs : list GlyphSpec) (position : Z)
    (currentEntry : EntryMeta) (others : list EntryMeta)
    (lookupRecords : list SubstitutionLookupRecord) (lookups : list Lookup)
    (s : Store) (v : LookupTreeEntry) (glyph : GlyphSpec)
    (more : list GlyphSpec)
    (Hentry : entries s !! entry currentEntry = Some v)
    (Hglyphs : dedupGlyphs glyphs = glyph :: more)
    (Hthrows : resolutionThrows lookupRecords lookups position glyph) :
  processInputPosition glyphs position (currentEntry :: others)
    lookupRecords lookups s =
  (Thrown, thrownStore s (entry currentEntry) v glyph).
Proof.
  pose proof (lookup_lt_Some _ _ _ Hentry) as Hlt.
  unfold processInputPosition. simpl. unfold mbind at 1, M_bind at 1.
  rewrite (inputEntryStep_run _ _ _ _ _ _ _ v) by done.
  rewrite Hglyphs. simpl. unfold mbind at 1, M_bind at 1.
  unfold inputGlyphStep. unfold mbind at 1, M_bind at 1.
  unfold readEntry at 1. simpl.
  rewrite list_lookup_insert_eq by done. simpl.
  unfold mbind at 1, M_bind at 1.
  destruct glyph as [g|low high]; simpl in Hthrows.
  - rewrite (getInputTree_single_run _ _ _ _ _ _ emptyTree)
      by (simpl; by apply list_lookup_middle).
    rewrite Hthrows. simpl. rewrite length_insert.
    f_equal. f_equal.
    rewrite insert_app_r_alt by done. by rewrite Nat.sub_diag.
  - unfold getInputTree. unfold mbind at 1, M_bind at 1, lift.
    by rewrite Hthrows.
Qed.

Lemma processInputPosition_thrown_keeps_reset_witness :
  processInputPosition [Single 65; Single 70] 0 [mkMeta 0%nat []]
    [mkRecord 0 7] [] populatedStore =
  (Thrown,
   mkStore [mkEntry (Some 2%nat) (Some 1%nat); emptyEntry; emptyEntry]
           [mkTree {[65 := 1%nat]} [];
            mkTree {[65 := 1%nat]} [((10, 20), 1%nat)];
            mkTree {[65 := 2%nat]} []]).
Proof.
  exact (processInputPosition_thrown_keeps_reset
           [Single 65; Single 70] 0 (mkMeta 0%nat []) []
           [mkRecord 0 7] [] populatedStore
           (mkEntry (Some 0%nat) (Some 1%nat)) (Single 65) [Single 70]
           eq_refl eq_refl eq_refl).
Defined.

(** ** Candidate lists *)

Lemma foldM_nil_body {A B} (l : list A) (acc : B) s :
  foldM (λ acc' _, mret acc') l acc s = (Returned acc, s).
Proof. induction l as [|x l IH]; simpl; [done|]. apply IH. Qed.

(** X6 — with no candidates a backtrack or lookahead step does nothing at
    all: it hands back no entry and leaves the store as it is (not even the
    branch-point is made), whatever the current entries are. *)
Theorem context_step_without_candidates
    (dir : Direction) (currentEntries : list EntryMeta) (s : Store) :
  processContextPosition dir [] currentEntries s = (Returned [], s).
Proof.
  rewrite processContextPosition_unfold.
  change (dedupGlyphs []) with (@nil GlyphSpec). simpl.
  apply (foldM_nil_body currentEntries []).
Qed.

(** X7 — with no candidates an input step still replaces the forward
    branch-point of every current entry by a new empty one and hands back
    no entry; no lookup is consulted, so it returns whatever the records
    are. *)
Theorem input_step_without_candidates
    (position : Z) (currentEntries : list EntryMeta)
    (lookupRecords : list SubstitutionLookupRecord) (lookups : list Lookup)
    (s : Store)
    (Hcur : Forall (λ ce, is_Some (entries s !! entry ce)) currentEntries) :
  ∃ s',
    processInputPosition [] position currentEntries lookupRecords lookups s
    = (Returned [], s') ∧
    length (entries s') = length (entries s) ∧
    trees s' = trees s ++ replicate (length currentEntries) emptyTree ∧
    (∀ e v, entries s !! e = Some v →
       ∃ v', entries s' !! e = Some v' ∧ reverse v' = reverse v ∧
             (e ∉ entry <$> currentEntries → v' = v)) ∧
    (∀ ce, ce ∈ currentEntries →
       ∃ v' t, entries s' !! entry ce = Some v' ∧ forward v' = Some t ∧
               trees s !! t = None ∧ trees s' !! t = Some emptyTree).
Proof.
  unfold processInputPosition.
  assert (wp (foldM (inputEntryStep [] position lookupRecords lookups)
                    currentEntries [])
            (λ next s',
               next = [] ∧
               length (entries s') = length (entries s) ∧
               trees s' = trees s ++ replicate (length currentEntries) emptyTree ∧
               (∀ e v, entries s !! e = Some v →
                  ∃ v', entries s' !! e = Some v' ∧ reverse v' = reverse v ∧
                        (e ∉ entry <$> currentEntries → v' = v)) ∧
               (∀ ce, ce ∈ currentEntries →
                  ∃ v' t, entries s' !! entry ce = Some v' ∧
                          forward v' = Some t ∧
                          (length (trees s) ≤ t)%nat ∧
                          trees s' !! t = Some emptyTree)) s) as Hwp.
  { apply wp_foldM with
      (I := λ done next s',
         next = [] ∧
         length (entries s') = length (entries s) ∧
         trees s' = trees s ++ replicate (length done) emptyTree ∧
         (∀ e v, entries s !! e = Some v →
            ∃ v', entries s' !! e = Some v' ∧ reverse v' = reverse v ∧
                  (e ∉ entry <$> done → v' = v)) ∧
         (∀ ce, ce ∈ done →
            ∃ v' t, entries s' !! entry ce = Some v' ∧
                    forward v' = Some t ∧
                    (length (trees s) ≤ t)%nat ∧
                    trees s' !! t = Some emptyTree)).
    - split; [done|]. split; [done|]. split; [by rewrite app_nil_r|].
      split; [intros e v Hv; exists v; auto|].
      intros ce Hce. by apply elem_of_nil in Hce.
    - intros done ce rest next s1 Hsplit (-> & Hlen & Htrees & Hold & Hdone).
      rewrite Forall_forall in Hcur.
      destruct (Hcur ce) as [v0 Hv0].
      { rewrite Hsplit. apply elem_of_app. right. by left. }
      destruct (Hold _ _ Hv0) as (v1 & Hv1 & Hrev1 & _).
      pose proof (lookup_lt_Some _ _ _ Hv1) as Hlt1.
      eapply wp_intro.
      { rewrite (inputEntryStep_run _ _ _ _ _ _ _ v1) by done.
        change (dedupGlyphs []) with (@nil GlyphSpec). reflexivity. }
      split; [done|]. simpl.
      split; [by rewrite length_insert|].
      split.
      { rewrite Htrees, length_app. simpl.
        rewrite Nat.add_1_r, replicate_S_end. by rewrite app_assoc. }
      split.
      { intros e v Hv. destruct (Hold _ _ Hv) as (v' & Hv' & Hrev & Hsame).
        destruct (decide (e = entry ce)) as [->|Hne].
        - rewrite list_lookup_insert_eq by done. eexists. split; [done|].
          simpl. split; [congruence|]. intros Hnot. exfalso. apply Hnot.
          rewrite fmap_app. apply elem_of_app. right. by left.
        - rewrite list_lookup_insert_ne by done. exists v'.
          split; [done|]. split; [done|]. intros Hnot. apply Hsame.
          intros Hin. apply Hnot. rewrite fmap_app. apply elem_of_app.
          by left. }
      intros ce' Hce'.
      assert (trees s1 ++ [emptyTree] =
              trees s ++ replicate (S (length done)) emptyTree) as Hnew.
      { rewrite Htrees, replicate_S_end. by rewrite app_assoc. }
      destruct (decide (entry ce' = entry ce)) as [Heq|Hne].
      + rewrite Heq, list_lookup_insert_eq by done.
        eexists _, (length (trees s1)). split; [done|]. split; [done|].
        split; [rewrite Htrees, length_app; lia|].
        by apply list_lookup_middle.
      + apply elem_of_app in Hce' as [Hce'|Hce'%list_elem_of_singleton];
          [|by subst].
        destruct (Hdone ce' Hce') as (v' & t & Hv' & Hf & Hge & Ht).
        exists v', t. rewrite list_lookup_insert_ne by done.
        split; [done|]. split; [done|]. split; [done|].
        by apply lookup_app_l_Some. }
  destruct (wp_elim _ _ _ Hwp) as (next & s' & Hrun & -> & Hlen & Htrees & Hold
                                   & Hreset).
  exists s'. split; [done|]. split; [done|]. split; [done|]. split; [done|].
  intros ce Hce. destruct (Hreset ce Hce) as (v' & t & Hv' & Hf & Hge & Ht).
  exists v', t. split; [done|]. split; [done|].
  split; [by apply lookup_ge_None_2|done].
Qed.

Lemma input_step_without_candidates_witness :
  ∃ s',
    processInputPosition [] 0 [mkMeta 0%nat []] [mkRecord 0 7] [] populatedStore
    = (Returned [], s') ∧
    trees s' = trees populatedStore ++ [emptyTree].
Proof.
  destruct (input_step_without_candidates 0 [mkMeta 0%nat []] [mkRecord 0 7] []
              populatedStore)
    as (s' & Hrun & _ & Htrees & _).
  { repeat constructor. by eexists. }
  exists s'. split; [done|]. exact Htrees.
Defined.



(** ** Branch-points built by a step *)

Lemma addChildren_app base D1 D2 tr :
  addChildren base (D1 ++ D2) tr =
  addChildren (base + length D1) D2 (addChildren base D1 tr).
Proof.
  revert base tr. induction D1 as [|g D1 IH]; intros base tr; simpl.
  - by rewrite Nat.add_0_r.
  - rewrite IH. f_equal. lia.
Qed.

Lemma rangeItems_app base D1 D2 :
  rangeItems base (D1 ++ D2) =
  rangeItems base D1 ++ rangeItems (base + length D1) D2.
Proof.
  revert base. induction D1 as [|[g|a b] D1 IH]; intros base; simpl.
  - by rewrite Nat.add_0_r.
  - rewrite IH. do 2 f_equal. lia.
  - rewrite IH. do 3 f_equal. lia.
Qed.

Lemma addChildren_range base D tr :
  range (addChildren base D tr) = range tr ++ rangeItems base D.
Proof.
  revert base tr. induction D as [|[g|a b] D IH]; intros base tr; simpl.
  - by rewrite app_nil_r.
  - by rewrite IH.
  - rewrite IH. simpl. by rewrite <- app_assoc.
Qed.

Lemma addChildren_individual_other base D tr g :
  Single g ∉ D →
  individual (addChildren base D tr) !! g = individual tr !! g.
Proof.
  revert base tr. induction D as [|[g'|a b] D IH]; intros base tr Hnot; simpl.
  - done.
  - rewrite IH by (intros Hin; apply Hnot; by right). simpl.
    apply lookup_insert_ne. intros ->. apply Hnot. by left.
  - rewrite IH by (intros Hin; apply Hnot; by right). done.
Qed.

Lemma addChildren_individual base D tr k g :
  NoDup D → D !! k = Some (Single g) →
  individual (addChildren base D tr) !! g = Some (base + k)%nat.
Proof.
  revert base tr k. induction D as [|glyph D IH]; intros base tr k Hnd Hk;
    [done|].
  apply NoDup_cons in Hnd as [Hnot Hnd]. simpl. destruct k as [|k]; simpl in Hk.
  - injection Hk as ->. rewrite addChildren_individual_other by done. simpl.
    rewrite lookup_insert_eq. f_equal. lia.
  - rewrite (IH _ _ k) by done. f_equal. lia.
Qed.

Lemma madeFor_snoc {G} base subs (last : G → list (option Z)) (D : list G) x :
  madeFor base subs last (D ++ [x]) =
  madeFor base subs last D ++ [mkMeta (base + length D) (subs ++ last x)].
Proof. unfold madeFor. rewrite imap_app. simpl. by rewrite Nat.add_0_r. Qed.

Lemma madeFor_cons {G} base subs (last : G → list (option Z)) (D : list G) x :
  madeFor base subs last (x :: D) =
  mkMeta base (subs ++ last x) :: madeFor (S base) subs last D.
Proof.
  unfold madeFor. simpl. rewrite Nat.add_0_r. f_equal.
  apply imap_ext. intros k y _. simpl. f_equal. lia.
Qed.

Lemma madeFor_lookup {G} base subs (last : G → list (option Z)) (D : list G) k x :
  D !! k = Some x →
  madeFor base subs last D !! k = Some (mkMeta (base + k) (subs ++ last x)).
Proof. intros Hk. unfold madeFor. by rewrite list_lookup_imap, Hk. Qed.

Lemma length_madeFor {G} base subs (last : G → list (option Z)) (D : list G) :
  length (madeFor base subs last D) = length D.
Proof. unfold madeFor. apply length_imap. Qed.

Lemma madeForAll_snoc {G} n (last : G → list (option Z)) (D : list G) done ce :
  madeForAll n last D (done ++ [ce]) =
  madeForAll n last D done ++
  madeFor (n + length done * length D) (substitutions ce) last D.
Proof.
  unfold madeForAll. rewrite imap_app, concat_app. simpl.
  by rewrite app_nil_r, Nat.add_0_r.
Qed.

Lemma length_madeForAll {G} n (last : G → list (option Z)) (D : list G) cur :
  length (madeForAll n last D cur) = (length cur * length D)%nat.
Proof.
  induction cur as [|ce cur IH] using rev_ind; [done|].
  rewrite madeForAll_snoc, !length_app, IH, length_madeFor. simpl. lia.
Qed.

Lemma madeForAll_lookup {G} n (last : G → list (option Z)) (D : list G)
    cur i ce k x :
  cur !! i = Some ce → D !! k = Some x →
  madeForAll n last D cur !! (i * length D + k)%nat =
  Some (mkMeta (n + i * length D + k) (substitutions ce ++ last x)).
Proof.
  revert i. induction cur as [|ce' cur IH] using rev_ind; intros i Hi Hk;
    [done|].
  pose proof (lookup_lt_Some _ _ _ Hk) as Hklt.
  rewrite madeForAll_snoc.
  destruct (decide (i < length cur)%nat) as [Hlt|Hge].
  - rewrite lookup_app_l in Hi by done.
    rewrite lookup_app_l by (rewrite length_madeForAll; nia).
    by apply IH.
  - pose proof (lookup_lt_Some _ _ _ Hi) as Hilt.
    rewrite length_app in Hilt. simpl in Hilt.
    assert (i = length cur) as -> by lia.
    rewrite list_lookup_middle in Hi by done. injection Hi as ->.
    rewrite lookup_app_r by (rewrite length_madeForAll; lia).
    rewrite length_madeForAll.
    replace (length cur * length D + k - length cur * length D)%nat
      with k by lia.
    by apply madeFor_lookup.
Qed.

(** ** Context steps on entries without a branch-point *)

(** The candidates of one current entry that has the branch-point. *)
Lemma contextGlyphLoop_run_present dir ce D next s v t tr :
  entries s !! entry ce = Some v →
  branch dir v = Some t →
  trees s !! t = Some tr →
  foldM (contextGlyphStep dir ce) D next s =
  (Returned (next ++ madeFor (length (entries s)) (substitutions ce)
                             (λ _, []) D),
   mkStore (entries s ++ replicate (length D) emptyEntry)
           (<[t := addChildren (length (entries s)) D tr]> (trees s))).
Proof.
  revert next s tr. induction D as [|glyph D IH]; intros next s tr Hv Hb Ht.
  - simpl. unfold madeFor. simpl. rewrite !app_nil_r.
    rewrite list_insert_id by done. by destruct s.
  - pose proof (lookup_lt_Some _ _ _ Ht) as Htlt.
    simpl. unfold mbind, M_bind.
    rewrite (contextGlyphStep_run_present dir ce next glyph s v t tr) by done.
    rewrite (IH _ _ (addChild glyph (length (entries s)) tr));
      [|by apply lookup_app_l_Some|done|by apply list_lookup_insert_eq].
    simpl. rewrite length_app. simpl. rewrite Nat.add_1_r.
    rewrite madeFor_cons, app_nil_r, <- !app_assoc. simpl.
    by rewrite list_insert_insert_eq.
Qed.

(** The candidates of one current entry that lacks the branch-point: the
    first candidate makes it. *)
Lemma contextGlyphLoop_run_absent dir ce D next s v :
  D ≠ [] →
  entries s !! entry ce = Some v →
  branch dir v = None →
  foldM (contextGlyphStep dir ce) D next s =
  (Returned (next ++ madeFor (length (entries s)) (substitutions ce)
                             (λ _, []) D),
   mkStore (<[entry ce := withBranch dir v (length (trees s))]> (entries s)
            ++ replicate (length D) emptyEntry)
           (trees s ++ [addChildren (length (entries s)) D emptyTree])).
Proof.
  intros HD Hv Hb. destruct D as [|glyph D]; [done|].
  pose proof (lookup_lt_Some _ _ _ Hv) as Hlt.
  simpl. unfold mbind, M_bind.
  rewrite (contextGlyphStep_run_absent dir ce next glyph s v) by done.
  rewrite (contextGlyphLoop_run_present dir ce D _ _
             (withBranch dir v (length (trees s))) (length (trees s))
             (addChild glyph (length (entries s)) emptyTree)).
  - simpl. rewrite length_insert, length_app. simpl. rewrite Nat.add_1_r.
    rewrite madeFor_cons, app_nil_r, <- !app_assoc. simpl.
    rewrite list_insert_insert_eq.
    rewrite insert_app_l by done.
    rewrite insert_app_r_alt by done. rewrite Nat.sub_diag. simpl.
    by rewrite <- app_assoc.
  - simpl. apply list_lookup_insert_eq. rewrite length_app. lia.
  - apply branch_withBranch.
  - simpl. apply list_lookup_insert_eq. rewrite length_app. simpl. lia.
Qed.

Lemma context_step_on_leaves_run dir glyphs currentEntries s :
  NoDup (entry <$> currentEntries) →
  Forall (λ ce, ∃ v, entries s !! entry ce = Some v ∧ branch dir v = None)
         currentEntries →
  glyphs ≠ [] →
  wp (processContextPosition dir glyphs currentEntries)
     (λ next s',
        next = madeForAll (length (entries s)) (λ _, []) (dedupGlyphs glyphs)
                          currentEntries ∧
        length (entries s') =
          (length (entries s)
           + length currentEntries * length (dedupGlyphs glyphs))%nat ∧
        trees s' =
          trees s ++
          imap (λ i _, addChildren
                         (length (entries s) + i * length (dedupGlyphs glyphs))
                         (dedupGlyphs glyphs) emptyTree) currentEntries ∧
        (∀ e v, entries s !! e = Some v → e ∉ entry <$> currentEntries →
                entries s' !! e = Some v) ∧
        (∀ i ce v, currentEntries !! i = Some ce →
                   entries s !! entry ce = Some v →
                   entries s' !! entry ce
                   = Some (withBranch dir v (length (trees s) + i))) ∧
        (∀ e, (length (entries s) ≤ e < length (entries s'))%nat →
              entries s' !! e = Some emptyEntry))
     s.
Proof.
  intros Hnd Hfresh Hglyphs. rewrite processContextPosition_unfold.
  set (D := dedupGlyphs glyphs). set (n := length (entries s)).
  set (nT := length (trees s)).
  assert (D ≠ []) as HD.
  { unfold D. rewrite dedupGlyphs_firstOccurrences. intros Hnil.
    destruct glyphs as [|x l]; [done|].
    assert (x ∈ firstOccurrences (x :: l)) as Hin
      by (apply firstOccurrences_elem; by left).
    rewrite Hnil in Hin. by apply elem_of_nil in Hin. }
  apply wp_foldM with
    (I := λ done next s1,
       next = madeForAll n (λ _, []) D done ∧
       length (entries s1) = (n + length done * length D)%nat ∧
       trees s1 =
         trees s ++
         imap (λ i _, addChildren (n + i * length D) D emptyTree) done ∧
       (∀ e v, entries s !! e = Some v → e ∉ entry <$> done →
               entries s1 !! e = Some v) ∧
       (∀ i ce v, done !! i = Some ce → entries s !! entry ce = Some v →
                  entries s1 !! entry ce = Some (withBranch dir v (nT + i))) ∧
       (∀ e, (n ≤ e < length (entries s1))%nat →
             entries s1 !! e = Some emptyEntry)).
  - split; [done|]. split; [simpl; unfold n; lia|].
    split; [simpl; by rewrite app_nil_r|]. split; [done|]. split; [done|].
    intros e. unfold n. lia.
  - intros done ce rest next s1 Hsplit
      (-> & Hlen & Htrees & Hkeep & Hset & Hleaf).
    assert (entry ce ∉ entry <$> done) as Hnew.
    { rewrite Hsplit, fmap_app in Hnd. apply NoDup_app in Hnd as (_ & Hdis & _).
      intros Hin. apply (Hdis _ Hin). simpl. by left. }
    rewrite Forall_forall in Hfresh. destruct (Hfresh ce) as (v & Hv & Hb).
    { rewrite Hsplit. apply elem_of_app. right. by left. }
    pose proof (Hkeep _ _ Hv Hnew) as Hv1.
    pose proof (lookup_lt_Some _ _ _ Hv) as Hlt.
    pose proof (lookup_lt_Some _ _ _ Hv1) as Hlt1.
    assert (length (trees s1) = (nT + length done)%nat) as HlenT.
    { rewrite Htrees, length_app, length_imap. done. }
    eapply wp_intro; [by apply contextGlyphLoop_run_absent|].
    rewrite Hlen, HlenT. simpl.
    split; [by rewrite madeForAll_snoc|].
    split.
    { rewrite length_app, length_insert, length_replicate, length_app. simpl.
      lia. }
    split.
    { rewrite Htrees, imap_app, <- app_assoc. simpl.
      by rewrite Nat.add_0_r. }
    split.
    { intros e x Hx Hnot. rewrite fmap_app in Hnot.
      apply not_elem_of_app in Hnot as [Hnot1 Hnot2].
      apply lookup_app_l_Some. rewrite list_lookup_insert_ne.
      - by apply Hkeep.
      - intros <-. apply Hnot2. by left. }
    split.
    { intros i ce' x Hi Hx. apply lookup_app_l_Some.
      destruct (decide (i < length done)%nat) as [Hi1|Hi1].
      - rewrite lookup_app_l in Hi by done.
        rewrite list_lookup_insert_ne; [by eapply Hset|].
        intros Heq. apply Hnew. rewrite Heq.
        apply list_elem_of_fmap. exists ce'. split; [done|].
        by eapply list_elem_of_lookup_2.
      - pose proof (lookup_lt_Some _ _ _ Hi) as Hi2.
        rewrite length_app in Hi2. simpl in Hi2.
        assert (i = length done) as -> by lia.
        rewrite list_lookup_middle in Hi by done. injection Hi as <-.
        rewrite list_lookup_insert_eq by done. congruence. }
    intros e. rewrite length_app, length_insert, length_replicate.
    intros He. destruct (decide (e < length (entries s1))%nat) as [He1|He1].
    + rewrite lookup_app_l by (by rewrite length_insert).
      rewrite list_lookup_insert_ne by lia. apply Hleaf. lia.
    + rewrite lookup_app_r by (rewrite length_insert; lia).
      rewrite length_insert. apply lookup_replicate_2. lia.
Qed.

(** X9 — a backtrack or lookahead step on distinct current entries that
    have no branch-point of that direction yet: the step makes one
    branch-point per current entry, in their order, and one leaf per current
    entry and deduplicated candidate.  The leaf handed back for the [k]-th
    candidate of the [i]-th entry is exactly the child that entry's new
    branch-point dispatches the candidate to: a single glyph through the
    individual map, which holds nothing else, a range through the range
    list, which lists the range candidates in their order. *)
Theorem context_step_on_leaves
    (dir : Direction) (glyphs : list GlyphSpec)
    (currentEntries : list EntryMeta) (s : Store)
    (Hdistinct : NoDup (entry <$> currentEntries))
    (Hleaves : Forall (λ ce, ∃ v, entries s !! entry ce = Some v ∧
                                  branch dir v = None) currentEntries)
    (Hglyphs : glyphs ≠ []) :
  ∃ next s',
    processContextPosition dir glyphs currentEntries s = (Returned next, s') ∧
    length next = (length currentEntries * length (dedupGlyphs glyphs))%nat ∧
    length (trees s') = (length (trees s) + length currentEntries)%nat ∧
    (∀ t, (t < length (trees s))%nat → trees s' !! t = trees s !! t) ∧
    (∀ e v, entries s !! e = Some v → e ∉ entry <$> currentEntries →
            entries s' !! e = Some v) ∧
    ∀ i ce, currentEntries !! i = Some ce →
      ∃ v tr,
        entries s !! entry ce = Some v ∧
        entries s' !! entry ce
        = Some (withBranch dir v (length (trees s) + i)) ∧
        trees s' !! (length (trees s) + i)%nat = Some tr ∧
        (∀ k glyph, dedupGlyphs glyphs !! k = Some glyph →
           next !! (i * length (dedupGlyphs glyphs) + k)%nat =
           Some (mkMeta (length (entries s)
                         + i * length (dedupGlyphs glyphs) + k)
                        (substitutions ce)) ∧
           entries s' !! (length (entries s)
                          + i * length (dedupGlyphs glyphs) + k)%nat
           = Some emptyEntry ∧
           ∀ g, glyph = Single g →
                individual tr !! g =
                Some (length (entries s)
                      + i * length (dedupGlyphs glyphs) + k)%nat) ∧
        (∀ g, Single g ∉ glyphs → individual tr !! g = None) ∧
        range tr =
          rangeItems (length (entries s) + i * length (dedupGlyphs glyphs))
                     (dedupGlyphs glyphs).
Proof.
  destruct (wp_elim _ _ _
              (context_step_on_leaves_run dir glyphs currentEntries s
                 Hdistinct Hleaves Hglyphs))
    as (next & s' & Hrun & -> & Hlen & Htrees & Hkeep & Hset & Hleaf).
  set (D := dedupGlyphs glyphs) in *. set (n := length (entries s)) in *.
  assert (NoDup D) as HndD.
  { unfold D. rewrite dedupGlyphs_firstOccurrences.
    apply firstOccurrences_NoDup. }
  exists (madeForAll n (λ _, []) D currentEntries), s'.
  split; [done|]. split; [apply length_madeForAll|].
  split; [by rewrite Htrees, length_app, length_imap|].
  split; [intros t Ht; rewrite Htrees; by apply lookup_app_l|].
  split; [done|].
  intros i ce Hi. rewrite Forall_forall in Hleaves.
  destruct (Hleaves ce) as (v & Hv & Hb); [by eapply list_elem_of_lookup_2|].
  pose proof (lookup_lt_Some _ _ _ Hi) as Hilt.
  exists v, (addChildren (n + i * length D) D emptyTree).
  split; [done|]. split; [by eapply Hset|].
  split.
  { rewrite Htrees, lookup_app_r by lia.
    replace (length (trees s) + i - length (trees s))%nat with i by lia.
    by rewrite list_lookup_imap, Hi. }
  split.
  { intros k glyph Hk. pose proof (lookup_lt_Some _ _ _ Hk) as Hklt.
    split.
    { rewrite (madeForAll_lookup _ _ _ _ i ce k glyph) by done.
      by rewrite app_nil_r. }
    split; [apply Hleaf; unfold n in *; nia|].
    intros g ->. by apply addChildren_individual. }
  split.
  { intros g Hg. rewrite addChildren_individual_other; [apply lookup_empty|].
    unfold D. rewrite dedupGlyphs_firstOccurrences, firstOccurrences_elem.
    done. }
  by rewrite addChildren_range.
Qed.

Lemma context_step_on_leaves_witness :
  ∃ next s' tr,
    processBacktrackPosition [Single 65; Range 10 20; Single 65]
      [mkMeta 0%nat [Some 7]] rootStore = (Returned next, s') ∧
    next = [mkMeta 1%nat [Some 7]; mkMeta 2%nat [Some 7]] ∧
    trees s' !! 1%nat = Some tr ∧
    individual tr !! 65 = Some 1%nat ∧
    range tr = [((10, 20), 2%nat)].
Proof.
  destruct (context_step_on_leaves Backtrack
              [Single 65; Range 10 20; Single 65]
              [mkMeta 0%nat [Some 7]] rootStore)
    as (next & s' & Hrun & Hlen & _ & _ & _ & Hall).
  { apply NoDup_singleton. }
  { repeat constructor. by eexists. }
  { done. }
  destruct (Hall 0%nat (mkMeta 0%nat [Some 7]) eq_refl)
    as (v & tr & _ & _ & Htr & Hk & _ & Hrange).
  destruct (Hk 0%nat (Single 65) eq_refl) as (Hn0 & _ & Hg).
  destruct (Hk 1%nat (Range 10 20) eq_refl) as (Hn1 & _ & _).
  exists next, s', tr. split; [exact Hrun|].
  split.
  { destruct next as [|m0 [|m1 [|m2 next]]]; try discriminate Hlen.
    simpl in Hn0, Hn1. by injection Hn0 as ->; injection Hn1 as ->. }
  split; [exact Htr|]. split; [exact (Hg 65 eq_refl)|exact Hrange].
Defined.

(** ** Input steps with single-glyph candidates *)

Lemma inputGlyphStep_run_single ce lookupRecords lookups position next g s v t
    tr substitution :
  entries s !! entry ce = Some v →
  forward v = Some t →
  trees s !! t = Some tr →
  getSubstitutionAtPosition lookupRecords lookups position g
  = Returned substitution →
  inputGlyphStep ce lookupRecords lookups position next (Single g) s =
  (Returned (next ++ [mkMeta (length (entries s))
                             (substitutions ce ++ [substitution])]),
   mkStore (entries s ++ [emptyEntry])
           (<[t := addChild (Single g) (length (entries s)) tr]> (trees s))).
Proof.
  intros Hv Hf Ht Hsub. unfold inputGlyphStep.
  unfold mbind at 1, M_bind at 1, readEntry. rewrite Hv. cbv beta iota.
  rewrite Hf. unfold mbind at 1, M_bind at 1.
  rewrite (getInputTree_single_run _ _ _ _ _ _ tr) by done.
  by rewrite Hsub.
Qed.

Lemma inputGlyphLoop_run_singles ce lookupRecords lookups position
    (sub : Z → option Z) gs next s v t tr :
  entries s !! entry ce = Some v →
  forward v = Some t →
  trees s !! t = Some tr →
  (∀ g, g ∈ gs →
        getSubstitutionAtPosition lookupRecords lookups position g
        = Returned (sub g)) →
  foldM (inputGlyphStep ce lookupRecords lookups position) (Single <$> gs)
        next s =
  (Returned (next ++ madeFor (length (entries s)) (substitutions ce)
                             (λ g, [sub g]) gs),
   mkStore (entries s ++ replicate (length gs) emptyEntry)
           (<[t := addChildren (length (entries s)) (Single <$> gs) tr]>
              (trees s))).
Proof.
  revert next s tr. induction gs as [|g gs IH]; intros next s tr Hv Hf Ht Hsub.
  - simpl. unfold madeFor. simpl. rewrite !app_nil_r.
    rewrite list_insert_id by done. by destruct s.
  - pose proof (lookup_lt_Some _ _ _ Ht) as Htlt.
    rewrite fmap_cons. cbn [foldM]. unfold mbind, M_bind.
    rewrite (inputGlyphStep_run_single _ _ _ _ _ _ _ v t tr (sub g));
      [|done|done|done|apply Hsub; by left].
    rewrite (IH _ _ (addChild (Single g) (length (entries s)) tr));
      [|by apply lookup_app_l_Some|done|by apply list_lookup_insert_eq
       |intros g' Hg'; apply Hsub; by right].
    cbn [entries trees]. rewrite length_app. cbn [length].
    rewrite Nat.add_1_r, madeFor_cons, <- !app_assoc.
    cbn [addChildren]. by rewrite list_insert_insert_eq.
Qed.

Lemma input_step_single_glyphs_run glyphs gs (sub : Z → option Z) position
    currentEntries lookupRecords lookups s :
  NoDup (entry <$> currentEntries) →
  Forall (λ ce, is_Some (entries s !! entry ce)) currentEntries →
  dedupGlyphs glyphs = Single <$> gs →
  (∀ g, g ∈ gs →
        getSubstitutionAtPosition lookupRecords lookups position g
        = Returned (sub g)) →
  wp (processInputPosition glyphs position currentEntries lookupRecords lookups)
     (λ next s',
        next = madeForAll (length (entries s)) (λ g, [sub g]) gs
                          currentEntries ∧
        trees s' =
          trees s ++
          imap (λ i _, addChildren (length (entries s) + i * length gs)
                                   (Single <$> gs) emptyTree) currentEntries ∧
        (∀ e v, entries s !! e = Some v → e ∉ entry <$> currentEntries →
                entries s' !! e = Some v) ∧
        (∀ i ce v, currentEntries !! i = Some ce →
                   entries s !! entry ce = Some v →
                   entries s' !! entry ce
                   = Some (mkEntry (Some (length (trees s) + i)%nat) (reverse v))) ∧
        length (entries s') =
          (length (entries s) + length currentEntries * length gs)%nat ∧
        (∀ e, (length (entries s) ≤ e < length (entries s'))%nat →
              entries s' !! e = Some emptyEntry))
     s.
Proof.
  intros Hnd Hcur HD Hsub. unfold processInputPosition.
  set (n := length (entries s)). set (nT := length (trees s)).
  apply wp_foldM with
    (I := λ done next s1,
       next = madeForAll n (λ g, [sub g]) gs done ∧
       trees s1 =
         trees s ++
         imap (λ i _, addChildren (n + i * length gs) (Single <$> gs) emptyTree)
              done ∧
       (∀ e v, entries s !! e = Some v → e ∉ entry <$> done →
               entries s1 !! e = Some v) ∧
       (∀ i ce v, done !! i = Some ce → entries s !! entry ce = Some v →
                  entries s1 !! entry ce
                  = Some (mkEntry (Some (nT + i)%nat) (reverse v))) ∧
       length (entries s1) = (n + length done * length gs)%nat ∧
       (∀ e, (n ≤ e < length (entries s1))%nat →
             entries s1 !! e = Some emptyEntry)).
  - split; [done|]. split; [simpl; by rewrite app_nil_r|].
    split; [done|]. split; [done|]. split; [simpl; unfold n; lia|].
    intros e. unfold n. lia.
  - intros done ce rest next s1 Hsplit
      (-> & Htrees & Hkeep & Hset & Hlen & Hleaf).
    assert (entry ce ∉ entry <$> done) as Hnew.
    { rewrite Hsplit, fmap_app in Hnd. apply NoDup_app in Hnd as (_ & Hdis & _).
      intros Hin. apply (Hdis _ Hin). simpl. by left. }
    rewrite Forall_forall in Hcur. destruct (Hcur ce) as (v & Hv).
    { rewrite Hsplit. apply elem_of_app. right. by left. }
    pose proof (Hkeep _ _ Hv Hnew) as Hv1.
    pose proof (lookup_lt_Some _ _ _ Hv) as Hlt.
    pose proof (lookup_lt_Some _ _ _ Hv1) as Hlt1.
    assert (length (trees s1) = (nT + length done)%nat) as HlenT.
    { rewrite Htrees, length_app, length_imap. done. }
    eapply wp_intro.
    { rewrite (inputEntryStep_run _ _ _ _ _ _ _ v) by done. rewrite HD.
      apply (inputGlyphLoop_run_singles _ _ _ _ sub gs _ _
               (mkEntry (Some (length (trees s1))) (reverse v))
               (length (trees s1)) emptyTree); [|done| |done].
      - simpl. by apply list_lookup_insert_eq.
      - simpl. by apply list_lookup_middle. }
    cbn [entries trees resetStore]. rewrite length_insert, Hlen, HlenT.
    split; [by rewrite madeForAll_snoc|].
    split.
    { rewrite <- HlenT, insert_app_r_alt by done. rewrite Nat.sub_diag.
      rewrite Htrees, imap_app, <- app_assoc. cbn [imap app list_insert insert].
      by rewrite Nat.add_0_r. }
    split.
    { intros e x Hx Hnot. rewrite fmap_app in Hnot.
      apply not_elem_of_app in Hnot as [Hnot1 Hnot2].
      apply lookup_app_l_Some. rewrite list_lookup_insert_ne.
      - by apply Hkeep.
      - intros <-. apply Hnot2. by left. }
    split.
    { intros i ce' x Hi Hx. apply lookup_app_l_Some.
      destruct (decide (i < length done)%nat) as [Hi1|Hi1].
      - rewrite lookup_app_l in Hi by done.
        rewrite list_lookup_insert_ne; [by eapply Hset|].
        intros Heq. apply Hnew. rewrite Heq.
        apply list_elem_of_fmap. exists ce'. split; [done|].
        by eapply list_elem_of_lookup_2.
      - pose proof (lookup_lt_Some _ _ _ Hi) as Hi2.
        rewrite length_app in Hi2. simpl in Hi2.
        assert (i = length done) as -> by lia.
        rewrite list_lookup_middle in Hi by done. injection Hi as <-.
        rewrite list_lookup_insert_eq by done. congruence. }
    split.
    { rewrite length_app, length_insert, length_replicate, length_app. simpl.
      lia. }
    intros e. rewrite length_app, length_insert, length_replicate.
    intros He. destruct (decide (e < length (entries s1))%nat) as [He1|He1].
    + rewrite lookup_app_l by (by rewrite length_insert).
      rewrite list_lookup_insert_ne by lia. apply Hleaf. lia.
    + rewrite lookup_app_r by (rewrite length_insert; lia).
      rewrite length_insert. apply lookup_replicate_2. lia.
Qed.

(** X10 — an input step whose deduplicated candidates are the single glyphs
    [gs], none of which makes resolution throw, on distinct current entries:
    the entry handed back for the [k]-th glyph of the [i]-th current entry
    is the child that entry's new forward branch-point stores under the
    glyph, it is an empty leaf, and it carries the current entry's
    substitutions followed by what [getSubstitutionAtPosition] returns for
    the glyph.  The new branch-point holds nothing else. *)
Theorem input_step_single_glyphs
    (glyphs : list GlyphSpec) (gs : list Z) (sub : Z → option Z)
    (position : Z) (currentEntries : list EntryMeta)
    (lookupRecords : list SubstitutionLookupRecord) (lookups : list Lookup)
    (s : Store)
    (Hdistinct : NoDup (entry <$> currentEntries))
    (Hcur : Forall (λ ce, is_Some (entries s !! entry ce)) currentEntries)
    (Hsingles : dedupGlyphs glyphs = Single <$> gs)
    (Hsub : ∀ g, g ∈ gs →
                 getSubstitutionAtPosition lookupRecords lookups position g
                 = Returned (sub g)) :
  ∃ next s',
    processInputPosition glyphs position currentEntries lookupRecords lookups s
    = (Returned next, s') ∧
    length next = (length currentEntries * length gs)%nat ∧
    length (trees s') = (length (trees s) + length currentEntries)%nat ∧
    (∀ t, (t < length (trees s))%nat → trees s' !! t = trees s !! t) ∧
    (∀ e v, entries s !! e = Some v → e ∉ entry <$> currentEntries →
            entries s' !! e = Some v) ∧
    ∀ i ce, currentEntries !! i = Some ce →
      ∃ v tr,
        entries s !! entry ce = Some v ∧
        entries s' !! entry ce
        = Some (mkEntry (Some (length (trees s) + i)%nat) (reverse v)) ∧
        trees s' !! (length (trees s) + i)%nat = Some tr ∧
        range tr = [] ∧
        (∀ g, g ∉ gs → individual tr !! g = None) ∧
        ∀ k g, gs !! k = Some g →
          next !! (i * length gs + k)%nat =
          Some (mkMeta (length (entries s) + i * length gs + k)
                       (substitutions ce ++ [sub g])) ∧
          individual tr !! g
          = Some (length (entries s) + i * length gs + k)%nat ∧
          entries s' !! (length (entries s) + i * length gs + k)%nat
          = Some emptyEntry.
Proof.
  destruct (wp_elim _ _ _
              (input_step_single_glyphs_run glyphs gs sub position
                 currentEntries lookupRecords lookups s
                 Hdistinct Hcur Hsingles Hsub))
    as (next & s' & Hrun & -> & Htrees & Hkeep & Hset & Hlen & Hleaf).
  set (n := length (entries s)) in *.
  assert (NoDup (Single <$> gs)) as HndD.
  { rewrite <- Hsingles, dedupGlyphs_firstOccurrences.
    apply firstOccurrences_NoDup. }
  exists (madeForAll n (λ g, [sub g]) gs currentEntries), s'.
  split; [done|]. split; [apply length_madeForAll|].
  split; [by rewrite Htrees, length_app, length_imap|].
  split; [intros t Ht; rewrite Htrees; by apply lookup_app_l|].
  split; [done|].
  intros i ce Hi. rewrite Forall_forall in Hcur.
  destruct (Hcur ce) as (v & Hv); [by eapply list_elem_of_lookup_2|].
  pose proof (lookup_lt_Some _ _ _ Hi) as Hilt.
  exists v, (addChildren (n + i * length gs) (Single <$> gs) emptyTree).
  split; [done|]. split; [by eapply Hset|].
  split.
  { rewrite Htrees, lookup_app_r by lia.
    replace (length (trees s) + i - length (trees s))%nat with i by lia.
    by rewrite list_lookup_imap, Hi. }
  split.
  { rewrite addChildren_range. simpl.
    clear. generalize (n + i * length gs)%nat.
    induction gs as [|g gs IH]; intros base; [done|apply IH]. }
  split.
  { intros g Hg. rewrite addChildren_individual_other; [apply lookup_empty|].
    intros Hin. apply list_elem_of_fmap in Hin as (g' & [= ->] & Hin). done. }
  intros k g Hk. pose proof (lookup_lt_Some _ _ _ Hk) as Hklt.
  split; [by apply (madeForAll_lookup n (λ g, [sub g]) gs currentEntries i ce k g)|].
  split.
  - apply addChildren_individual; [done|]. by rewrite list_lookup_fmap, Hk.
  - apply Hleaf. unfold n in *. nia.
Qed.

Lemma input_step_single_glyphs_witness :
  ∃ next s' tr,
    processInputPosition [Single 65; Single 70; Single 65] 0
      [mkMeta 0%nat [None]] [mkRecord 0 0] [mkLookup [letterTable 66]]
      rootStore = (Returned next, s') ∧
    next = [mkMeta 1%nat [None; Some 66]; mkMeta 2%nat [None; None]] ∧
    trees s' !! 1%nat = Some tr ∧
    individual tr !! 65 = Some 1%nat ∧ individual tr !! 70 = Some 2%nat.
Proof.
  destruct (input_step_single_glyphs
              [Single 65; Single 70; Single 65] [65; 70]
              (λ g, if g =? 65 then Some 66 else None) 0
              [mkMeta 0%nat [None]] [mkRecord 0 0] [mkLookup [letterTable 66]]
              rootStore)
    as (next & s' & Hrun & Hlen & _ & _ & _ & Hall).
  { apply NoDup_singleton. }
  { repeat constructor. by eexists. }
  { reflexivity. }
  { intros g Hg. apply elem_of_cons in Hg as [->|Hg]; [reflexivity|].
    apply list_elem_of_singleton in Hg as ->. reflexivity. }
  destruct (Hall 0%nat (mkMeta 0%nat [None]) eq_refl)
    as (v & tr & _ & _ & Htr & _ & _ & Hk).
  destruct (Hk 0%nat 65 eq_refl) as (Hn0 & Hg0 & _).
  destruct (Hk 1%nat 70 eq_refl) as (Hn1 & Hg1 & _).
  exists next, s', tr. split; [exact Hrun|].
  split.
  { destruct next as [|m0 [|m1 [|m2 next]]]; try discriminate Hlen.
    simpl in Hn0, Hn1. by injection Hn0 as ->; injection Hn1 as ->. }
  split; [exact Htr|]. split; [exact Hg0|exact Hg1].
Defined.

(** ** Sequences of steps *)

Lemma leaf_usable s m :
  entries s !! entry m = Some emptyEntry → usable s m.
Proof. intros Hm. split; exists emptyEntry; by split. Qed.

Lemma elem_of_flat_map_replicate {A B} (f : A → B) n (l : list A) y :
  y ∈ flat_map (λ x, replicate n (f x)) l → ∃ x, x ∈ l ∧ y = f x.
Proof.
  induction l as [|x l IH]; simpl; [by intros ?%elem_of_nil|].
  intros [Hin|Hin]%elem_of_app.
  - apply elem_of_replicate in Hin as [-> _]. exists x. split; [by left|done].
  - destruct (IH Hin) as (x' & ? & ?). exists x'. split; [by right|done].
Qed.

(** One step from usable entries: it returns, and hands back distinct
    empty leaves that continue the paths of the entries it was given. *)
Lemma runStep_spec lookupRecords lookups step currentEntries s :
  validRecords lookupRecords lookups →
  Forall (usable s) currentEntries →
  wp (runStep lookupRecords lookups step currentEntries)
     (λ next s',
        (length (entries s) ≤ length (entries s'))%nat ∧
        NoDup (entry <$> next) ∧
        Forall (λ m, (length (entries s) ≤ entry m)%nat ∧
                     entries s' !! entry m = Some emptyEntry ∧
                     ∃ ce, ce ∈ currentEntries ∧
                           continues (if isInputStep step then 1 else 0) ce m)
               next)
     s.
Proof.
  intros Hvalid Hcur.
  assert (∀ dir glyphs,
    wp (processContextPosition dir glyphs currentEntries)
       (λ next s',
          (length (entries s) ≤ length (entries s'))%nat ∧
          NoDup (entry <$> next) ∧
          Forall (λ m, (length (entries s) ≤ entry m)%nat ∧
                       entries s' !! entry m = Some emptyEntry ∧
                       ∃ ce, ce ∈ currentEntries ∧ continues 0 ce m) next)
       s) as Hcontext.
  { intros dir glyphs.
    eapply wp_mono; [|apply (processContextPosition_spec dir glyphs)].
    - intros next s' (Hsubs & Hents & Hlen & Hleaf & _).
      split; [lia|]. split; [rewrite Hents; apply NoDup_seq|].
      apply Forall_forall. intros m Hm.
      assert (entry m ∈ entry <$> next) as Hin
        by (apply list_elem_of_fmap; eauto).
      rewrite Hents in Hin. apply elem_of_seq in Hin.
      split; [lia|]. split; [apply Hleaf; lia|].
      assert (substitutions m ∈ substitutions <$> next) as Hsm
        by (apply list_elem_of_fmap; eauto).
      rewrite Hsubs in Hsm.
      apply elem_of_flat_map_replicate in Hsm as (ce & Hce & Heq).
      exists ce. split; [done|]. exists []. by rewrite app_nil_r.
    - eapply Forall_impl; [done|]. intros ce [Hb Hl]. by destruct dir. }
  destruct step as [glyphs position|glyphs|glyphs]; simpl.
  - eapply wp_mono;
      [|apply (processInputPosition_spec glyphs position);
        [|by apply validRecords_recordsAt]].
    + intros next s' ((HlenE & _ & _ & _ & Hleaf & _) & Hnd & Hnext & _).
      split; [done|]. split; [done|]. eapply Forall_impl; [done|]. cbv beta.
      intros m ([Hge Hlt] & ce & Hce & sub & Hsub).
      split; [done|]. split; [apply Hleaf; lia|].
      exists ce. split; [done|]. by exists [sub].
    + eapply Forall_impl; [done|]. intros ce [(v & Hv & _) _]. by eexists.
  - apply (Hcontext Lookahead).
  - apply (Hcontext Backtrack).
Qed.

Lemma runSteps_spec lookupRecords lookups steps :
  validRecords lookupRecords lookups →
  ∀ currentEntries s,
    Forall (usable s) currentEntries →
    wp (runSteps lookupRecords lookups steps currentEntries)
       (λ final s',
          (length (entries s) ≤ length (entries s'))%nat ∧
          Forall (λ m, ∃ ce, ce ∈ currentEntries ∧
                             continues (length (filter isInputStep steps)) ce m)
                 final ∧
          (steps = [] → final = currentEntries ∧ s' = s) ∧
          (steps ≠ [] →
           NoDup (entry <$> final) ∧
           Forall (λ m, (length (entries s) ≤ entry m)%nat ∧
                        entries s' !! entry m = Some emptyEntry) final))
       s.
Proof.
  intros Hvalid. induction steps as [|step rest IH]; intros cur s Hcur.
  - apply wp_ret. split; [done|]. split; [|done].
    apply Forall_forall. intros m Hm.
    exists m. split; [done|]. exists []. by rewrite app_nil_r.
  - simpl. apply wp_bind.
    eapply wp_mono; [|by apply runStep_spec].
    intros next s1 (Hlen1 & Hnd & Hnext).
    eapply wp_mono; [|apply IH].
    + intros final s2 (Hlen2 & Hfinal & Hnone & Hrest). split; [lia|]. split.
      * eapply Forall_impl; [done|]. cbv beta.
        intros m (m1 & Hm1 & added & Hadd & Hlen).
        rewrite Forall_forall in Hnext.
        destruct (Hnext m1 Hm1) as (_ & _ & ce & Hce & added1 & Hadd1 & Hlena).
        exists ce. split; [done|]. exists (added1 ++ added).
        split; [by rewrite Hadd, Hadd1, app_assoc|].
        rewrite length_app, Hlen, Hlena, filter_cons.
        destruct (isInputStep step); simpl; lia.
      * split; [done|]. intros _.
        destruct rest as [|step' rest'].
        -- destruct (Hnone eq_refl) as [-> ->]. split; [done|].
           apply (Forall_impl _ _ _ Hnext). by intros m (? & ? & _).
        -- destruct Hrest as [Hnd2 Hfresh]; [done|]. split; [done|].
           apply (Forall_impl _ _ _ Hfresh). intros m [? ?].
           split; [lia|done].
    + eapply Forall_impl; [done|]. cbv beta. intros m (_ & Hm & _).
      by apply leaf_usable.
Qed.

(** X11 — the steps compose: called one after the other in any order, each
    on the entries the one before handed back, from entries that exist,
    with records that all name existing lookups, they never throw.  Every
    entry handed back at the end carries the substitutions of one of the
    initial entries followed by exactly one item per input step, and (when
    there is at least one step) the entries handed back are pairwise
    distinct empty leaves that did not exist at the start. *)
Theorem steps_compose
    (lookupRecords : list SubstitutionLookupRecord) (lookups : list Lookup)
    (steps : list Step) (currentEntries : list EntryMeta) (s : Store)
    (Hvalid : validRecords lookupRecords lookups)
    (Hcur : Forall (usable s) currentEntries) :
  ∃ final s',
    runSteps lookupRecords lookups steps currentEntries s
    = (Returned final, s') ∧
    Forall (λ m, ∃ ce added,
                   ce ∈ currentEntries ∧
                   substitutions m = substitutions ce ++ added ∧
                   length added = length (filter isInputStep steps)) final ∧
    (steps ≠ [] →
     NoDup (entry <$> final) ∧
     Forall (λ m, entries s !! entry m = None ∧
                  entries s' !! entry m = Some emptyEntry) final).
Proof.
  destruct (wp_elim _ _ _
              (runSteps_spec lookupRecords lookups steps Hvalid
                 currentEntries s Hcur))
    as (final & s' & Hrun & _ & Hfinal & _ & Hrest).
  exists final, s'. split; [done|]. split.
  - eapply Forall_impl; [done|]. cbv beta.
    intros m (ce & Hce & added & Hadd & Hlen). by exists ce, added.
  - intros Hne. destruct (Hrest Hne) as [Hnd Hfresh]. split; [done|].
    eapply Forall_impl; [done|]. cbv beta. intros m [Hge Hm].
    split; [by apply lookup_ge_None_2|done].
Qed.

Lemma rootStore_usable : Forall (usable rootStore) [mkMeta 0%nat []].
Proof.
  repeat constructor; (eexists; split; [reflexivity|]); simpl;
    [done|intros t [= <-]; lia].
Qed.

Lemma steps_compose_witness :
  ∃ final s',
    runSteps [mkRecord 0 0; mkRecord 1 0] [mkLookup [letterTable 66]]
      [BacktrackStep [Single 40]; InputStep [Single 65; Single 70] 0;
       InputStep [Range 10 20] 1; LookaheadStep [Single 41; Range 1 5]]
      [mkMeta 0%nat []] rootStore = (Returned final, s') ∧
    Forall (λ m, ∃ ce added,
                   ce ∈ [mkMeta 0%nat []] ∧
                   substitutions m = substitutions ce ++ added ∧
                   length added = 2%nat) final.
Proof.
  destruct (steps_compose
              [mkRecord 0 0; mkRecord 1 0] [mkLookup [letterTable 66]]
              [BacktrackStep [Single 40]; InputStep [Single 65; Single 70] 0;
               InputStep [Range 10 20] 1; LookaheadStep [Single 41; Range 1 5]]
              [mkMeta 0%nat []] rootStore)
    as (final & s' & Hrun & Hfinal & _).
  { repeat constructor; by eexists. }
  { exact rootStore_usable. }
  exists final, s'. split; [exact Hrun|exact Hfinal].
Defined.

(** ** The split of a range candidate *)

Lemma inputTreeLoop_run tree subs result s tr :
  trees s !! tree = Some tr →
  foldM (inputTreeStep tree) subs result s =
  (Returned (result ++ splitEntries (length (entries s)) subs),
   mkStore (entries s ++ replicate (splitCost subs) emptyEntry)
           (<[tree := splitTree (length (entries s)) subs tr]> (trees s))).
Proof.
  revert result s tr.
  induction subs as [|[key substitution] subs IH]; intros result s tr Ht.
  - simpl. rewrite !app_nil_r, list_insert_id by done. by destruct s.
  - pose proof (lookup_lt_Some _ _ _ Ht) as Hlt.
    cbn [foldM]. unfold mbind, M_bind.
    rewrite (inputTreeStep_run tree result key substitution s tr) by done.
    destruct key as [g|a b].
    + rewrite (IH _ _ (addChild (Single g) (S (length (entries s))) tr))
        by (by apply list_lookup_insert_eq).
      cbn [entries trees splitEntries splitTree splitCost].
      rewrite !length_app. cbn [length]. rewrite !Nat.add_1_r.
      rewrite <- !app_assoc. cbn [app replicate].
      by rewrite list_insert_insert_eq.
    + rewrite (IH _ _ (addChild (Range a b) (length (entries s)) tr))
        by (by apply list_lookup_insert_eq).
      cbn [entries trees splitEntries splitTree splitCost].
      rewrite !length_app. cbn [length]. rewrite !Nat.add_1_r.
      rewrite <- !app_assoc. cbn [app replicate].
      by rewrite list_insert_insert_eq.
Qed.

Lemma splitEntries_snd base subs : (splitEntries base subs).*2 = subs.*2.
Proof.
  revert base. induction subs as [|[[g|a b] sub] subs IH]; intros base;
    simpl; [done|by rewrite IH..].
Qed.

Lemma splitCost_count (subs : list (GlyphSpec * option Z)) :
  splitCost subs = (length subs + length (filter isIndividualKey subs))%nat.
Proof.
  induction subs as [|[[g|a b] sub] subs IH]; [done|..].
  - rewrite filter_cons_True by done. cbn [splitCost length]. lia.
  - rewrite filter_cons_False by (by intros ?). cbn [splitCost length]. lia.
Qed.

Lemma splitTree_range base subs tr :
  range (splitTree base subs tr) = range tr ++ splitRangeItems base subs.
Proof.
  revert base tr. induction subs as [|[[g|a b] sub] subs IH]; intros base tr;
    simpl.
  - by rewrite app_nil_r.
  - by rewrite IH.
  - rewrite IH. simpl. by rewrite <- app_assoc.
Qed.

Lemma splitTree_individual_other base subs tr g :
  Single g ∉ subs.*1 →
  individual (splitTree base subs tr) !! g = individual tr !! g.
Proof.
  revert base tr. induction subs as [|[[g'|a b] sub] subs IH];
    intros base tr Hnot; simpl in *.
  - done.
  - rewrite IH by (intros Hin; apply Hnot; by right). simpl.
    apply lookup_insert_ne. intros ->. apply Hnot. by left.
  - rewrite IH by (intros Hin; apply Hnot; by right). done.
Qed.

Lemma splitTree_individual base subs tr i g sub :
  NoDup subs.*1 → subs !! i = Some (Single g, sub) →
  ∃ e, splitEntries base subs !! i = Some (e, sub) ∧
       individual (splitTree base subs tr) !! g = Some (S e).
Proof.
  revert base tr i. induction subs as [|[key sub'] subs IH];
    intros base tr i Hnd Hi; [done|].
  simpl in Hnd. apply NoDup_cons in Hnd as [Hnot Hnd].
  destruct i as [|i]; simpl in Hi.
  - injection Hi as -> ->. exists base. split; [done|]. simpl.
    rewrite splitTree_individual_other by done. simpl.
    apply lookup_insert_eq.
  - destruct key as [g'|a b]; simpl; by apply IH.
Qed.

Lemma splitRangeItems_lookup base subs i a b sub :
  subs !! i = Some (Range a b, sub) →
  ∃ e, splitEntries base subs !! i = Some (e, sub) ∧
       ((a, b), e) ∈ splitRangeItems base subs.
Proof.
  revert base i. induction subs as [|[key sub'] subs IH]; intros base i Hi;
    [done|].
  destruct i as [|i]; simpl in Hi.
  - injection Hi as -> ->. exists base. split; [done|]. by left.
  - destruct key as [g'|a' b']; simpl.
    + by apply IH.
    + destruct (IH (S base) i Hi) as (e & He & Hin). exists e.
      split; [done|]. by right.
Qed.

(** X12 — what a range candidate costs and leaves behind.  For the pairs
    [subs] that range resolution returns, [getInputTree] hands back one
    entry per pair with the pair's substitution, in order; it makes one
    entry per range key and two per individual key; it appends exactly the
    range keys, each with the entry handed back for it, to the range list;
    it changes the individual map under the individual keys only, where it
    stores the entry made right after the one it hands back; and it touches
    no other branch-point and no existing entry. *)
Theorem getInputTree_range_accounting
    (tree : treeRef) (substitutions : list SubstitutionLookupRecord)
    (lookups : list Lookup) (inputIndex low high : Z) (s : Store)
    (tr : LookupTree) (subs : list (GlyphSpec * option Z))
    (Htree : trees s !! tree = Some tr)
    (Hsubs : getSubstitutionAtPositionRange substitutions lookups inputIndex
               (low, high) = Returned subs) :
  ∃ result s' tr',
    getInputTree tree substitutions lookups inputIndex (Range low high) s
    = (Returned result, s') ∧
    result.*2 = subs.*2 ∧
    entries s' =
      entries s ++
      replicate (length subs + length (filter isIndividualKey subs)) emptyEntry ∧
    trees s' = <[tree := tr']> (trees s) ∧
    range tr' = range tr ++ splitRangeItems (length (entries s)) subs ∧
    (∀ i a b substitution,
       subs !! i = Some (Range a b, substitution) →
       ∃ e, result !! i = Some (e, substitution) ∧
            ((a, b), e) ∈ splitRangeItems (length (entries s)) subs) ∧
    (∀ g, Single g ∉ subs.*1 → individual tr' !! g = individual tr !! g) ∧
    (NoDup subs.*1 →
     ∀ i g substitution,
       subs !! i = Some (Single g, substitution) →
       ∃ e, result !! i = Some (e, substitution) ∧
            individual tr' !! g = Some (S e)).
Proof.
  exists (splitEntries (length (entries s)) subs),
    (mkStore (entries s ++ replicate (splitCost subs) emptyEntry)
             (<[tree := splitTree (length (entries s)) subs tr]> (trees s))),
    (splitTree (length (entries s)) subs tr).
  split.
  { unfold getInputTree. unfold mbind at 1, M_bind at 1, lift.
    rewrite Hsubs. cbv beta iota.
    by rewrite (inputTreeLoop_run tree subs [] s tr). }
  split; [apply splitEntries_snd|].
  split; [simpl; by rewrite splitCost_count|].
  split; [done|].
  split; [apply splitTree_range|].
  split; [intros i a b sub; apply splitRangeItems_lookup|].
  split; [intros g; apply splitTree_individual_other|].
  intros Hnd i g sub. by apply splitTree_individual.
Qed.

Lemma getInputTree_range_accounting_witness :
  ∃ result s' tr',
    getInputTree 0%nat [mkRecord 0 0] [mkLookup [splitTable]] 0 (Range 10 20)
      rootStore = (Returned result, s') ∧
    result.*2 = [None; Some 100; None] ∧
    length (entries s') = 5%nat ∧
    range tr' = [((10, 14), 1%nat); ((16, 20), 4%nat)] ∧
    individual tr' !! 15 = Some 3%nat.
Proof.
  destruct (getInputTree_range_accounting
              0%nat [mkRecord 0 0] [mkLookup [splitTable]] 0 10 20
              rootStore emptyTree
              [(Range 10 14, None); (Single 15, Some 100); (Range 16 20, None)]
              eq_refl eq_refl)
    as (result & s' & tr' & Hrun & Hsnd & Hentries & _ & Hrange & _ & _ & Hind).
  assert (NoDup [(Range 10 14, @None Z); (Single 15, Some 100);
                 (Range 16 20, None)].*1) as Hnd.
  { apply (bool_decide_unpack _). vm_compute. exact I. }
  destruct (Hind Hnd 1%nat 15 (Some 100) eq_refl) as (e & He & Hstored).
  assert (result = [(1%nat, None); (2%nat, Some 100); (4%nat, None)]) as ->.
  { vm_compute in Hrun. by injection Hrun as <- _. }
  injection He as <-.
  exists [(1%nat, None); (2%nat, Some 100); (4%nat, None)], s', tr'.
  split; [exact Hrun|]. split; [exact Hsnd|].
  split; [by rewrite Hentries|]. split; [exact Hrange|exact Hstored].
Defined.

(** ** The Color class *)

Import Color.

(** *** The 32-bit operators, bit by bit *)

Lemma toInt32_testbit (z k : Z) :
  k < 32 → Z.testbit (toInt32 z) k = Z.testbit z k.
Proof.
  intros Hk. destruct (Z.ltb_spec k 0) as [Hneg|Hpos].
  { by rewrite !Z.testbit_neg_r. }
  rewrite <- (Z.mod_pow2_bits_low (toInt32 z) 32 k) by lia.
  rewrite <- (Z.mod_pow2_bits_low z 32 k) by lia.
  f_equal. unfold toInt32. case_match; [|by rewrite Z.mod_mod].
  rewrite Zminus_mod, Z.mod_same, Z.sub_0_r, !Z.mod_mod by lia. done.
Qed.

Lemma toUint32_testbit (z k : Z) :
  Z.testbit (toUint32 z) k = (k <? 32) && Z.testbit z k.
Proof.
  unfold toUint32. destruct (Z.ltb_spec k 0) as [Hneg|Hpos].
  { rewrite !Z.testbit_neg_r by done. by rewrite andb_false_r. }
  destruct (Z.ltb_spec k 32).
  - by rewrite Z.mod_pow2_bits_low by lia.
  - by rewrite Z.mod_pow2_bits_high by lia.
Qed.

Lemma byte_testbit (b k : Z) :
  0 ≤ b ≤ 255 → Z.testbit b k = (0 <=? k) && (k <? 8) && Z.testbit b k.
Proof.
  intros Hb. destruct (Z.leb_spec 0 k); [|by rewrite Z.testbit_neg_r].
  destruct (Z.ltb_spec k 8); [done|]. cbn.
  rewrite <- (Z.mod_small b (2 ^ 8)) by lia.
  by rewrite Z.mod_pow2_bits_high by lia.
Qed.

Lemma testbit_255 (k : Z) : Z.testbit 255 k = (0 <=? k) && (k <? 8).
Proof.
  destruct (Z.leb_spec 0 k); [|by rewrite Z.testbit_neg_r].
  change 255 with (Z.ones 8). by rewrite Z.testbit_ones_nonneg by lia.
Qed.

(** A component read out of a packed number. *)
Lemma unpack_testbit (rgba s k : Z) :
  0 ≤ s →
  Z.testbit (bitAnd (unsignedShiftRight rgba s) 255) k =
  (0 <=? k) && (k <? 8) && (k + s <? 32) && Z.testbit rgba (k + s).
Proof.
  intros Hs. unfold bitAnd, unsignedShiftRight. rewrite Z.land_spec.
  change (toInt32 255) with 255. rewrite testbit_255.
  destruct (Z.leb_spec 0 k); [|by rewrite andb_false_r].
  destruct (Z.ltb_spec k 8); [|by rewrite andb_false_r].
  rewrite toInt32_testbit, Z.shiftr_spec, toUint32_testbit by lia.
  by rewrite andb_true_r.
Qed.

Lemma low_byte_testbit (rgba k : Z) :
  Z.testbit (bitAnd rgba 255) k = (0 <=? k) && (k <? 8) && Z.testbit rgba k.
Proof.
  unfold bitAnd. rewrite Z.land_spec. change (toInt32 255) with 255.
  rewrite testbit_255.
  destruct (Z.leb_spec 0 k); [|by rewrite andb_false_r].
  destruct (Z.ltb_spec k 8); [|by rewrite andb_false_r].
  rewrite toInt32_testbit by lia. by rewrite andb_true_r.
Qed.

(** The packed number of four components. *)
Lemma pack_testbit (c : Color) (n : Z) :
  0 ≤ n →
  Z.testbit (toRGBA c) n =
  (n <? 32) &&
  (Z.testbit (integral (_red c)) (n - 24) ||
   Z.testbit (integral (_green c)) (n - 16) ||
   Z.testbit (integral (_blue c)) (n - 8) ||
   Z.testbit (integral (_opacity c)) n).
Proof.
  intros Hn. unfold toRGBA, unsignedShiftRight, bitOr, shiftLeft.
  rewrite Z.shiftr_0_r, toUint32_testbit.
  destruct (Z.ltb_spec n 32); [|done]. cbn [andb].
  rewrite !Z.lor_spec, !toInt32_testbit, !Z.lor_spec, !toInt32_testbit by lia.
  rewrite !Z.lor_spec, !toInt32_testbit by lia.
  rewrite !Z.shiftl_spec, !toInt32_testbit by lia. done.
Qed.


Ltac bit_cases :=
  repeat match goal with
  | |- context [(?a <? ?b)] => destruct (Z.ltb_spec a b); try lia
  | |- context [(?a <=? ?b)] => destruct (Z.leb_spec a b); try lia
  end;
  cbn [andb orb];
  rewrite ?Z.sub_add, ?orb_false_r, ?andb_true_r;
  try reflexivity.


Lemma testbit_byte_cons (low high n : Z) :
  0 ≤ low ≤ 255 → 0 ≤ n →
  Z.testbit (high * 2 ^ 8 + low) n =
  Z.testbit low n || Z.testbit high (n - 8).
Proof.
  intros Hlow Hn. rewrite (byte_testbit low n) by done.
  destruct (Z.ltb_spec n 8).
  - rewrite (Z.testbit_neg_r high) by lia. rewrite orb_false_r.
    destruct (Z.leb_spec 0 n); [|lia]. cbn [andb].
    rewrite <- (Z.mod_pow2_bits_low (high * 2 ^ 8 + low) 8 n) by lia.
    f_equal. rewrite Z.add_comm, Z.mod_add by lia. apply Z.mod_small. lia.
  - rewrite andb_false_r. cbn [andb orb].
    replace n with (n - 8 + 8) at 1 by lia.
    rewrite <- Z.div_pow2_bits by lia. f_equal.
    rewrite Z.add_comm, Z.div_add by lia. rewrite Z.div_small by lia. done.
Qed.

(** X14 — constructor and toRGBA of ColorUtilities.ts: for four components
    between 0 and 255, [toRGBA] is [r * 2^24 + g * 2^16 + b * 2^8 + o], and
    constructing a colour from that one number gives the four components
    back. *)
Theorem construct_of_toRGBA (r g b o : Z) :
  0 ≤ r ≤ 255 → 0 ≤ g ≤ 255 → 0 ≤ b ≤ 255 → 0 ≤ o ≤ 255 →
  let c := construct (FromNumber (Some (Int r))) (Some (Int g))
                     (Some (Int b)) (Some (Int o)) in
  toRGBA c = r * 2 ^ 24 + g * 2 ^ 16 + b * 2 ^ 8 + o ∧
  construct (FromNumber (Some (Int (toRGBA c)))) None None None = c.
Proof.
  intros Hr Hg Hb Ho. cbn zeta.
  set (c := construct _ _ _ _).
  assert (Hbits : ∀ n, 0 ≤ n →
    Z.testbit (toRGBA c) n =
    Z.testbit r (n - 24) || Z.testbit g (n - 16) ||
    Z.testbit b (n - 8) || Z.testbit o n).
  { intros n Hn. rewrite pack_testbit by done.
    cbn [c construct fromFields _red _green _blue _opacity integral].
    destruct (Z.ltb_spec n 32); [done|]. cbn [andb].
    rewrite (byte_testbit r), (byte_testbit g), (byte_testbit b),
      (byte_testbit o) by done.
    bit_cases. }
  split.
  - apply Z.bits_inj'. intros n Hn. rewrite Hbits by done.
    replace (r * 2 ^ 24 + g * 2 ^ 16 + b * 2 ^ 8 + o)
      with (((r * 2 ^ 8 + g) * 2 ^ 8 + b) * 2 ^ 8 + o) by lia.
    rewrite testbit_byte_cons by done.
    destruct (Z.ltb_spec n 8).
    { rewrite !(Z.testbit_neg_r _ (n - _)) by lia.
      cbn [orb]. by rewrite orb_false_r. }
    rewrite testbit_byte_cons by lia.
    destruct (Z.ltb_spec n 16).
    { rewrite (Z.testbit_neg_r r), (Z.testbit_neg_r g) by lia.
      rewrite (Z.testbit_neg_r _ (n - 8 - 8)) by lia.
      cbn [orb]. by rewrite orb_false_r, orb_comm. }
    rewrite testbit_byte_cons by lia.
    replace (n - 8 - 8 - 8) with (n - 24) by lia.
    replace (n - 8 - 8) with (n - 16) by lia.
    destruct (Z.testbit r _), (Z.testbit g _), (Z.testbit b _),
      (Z.testbit o _); done.
  - cbn [c construct fromFields integral]. fold c.
    assert (Hpart : ∀ s x,
      0 ≤ s ≤ 24 → 0 ≤ x ≤ 255 →
      (∀ k, 0 ≤ k < 8 → Z.testbit (toRGBA c) (k + s) = Z.testbit x k) →
      bitAnd (unsignedShiftRight (toRGBA c) s) 255 = x).
    { intros s x Hs Hx Hsame. apply Z.bits_inj'. intros k Hk.
      rewrite unpack_testbit, (byte_testbit x k) by lia.
      bit_cases. apply Hsame. lia. }
    unfold fromFields. f_equal; do 2 f_equal.
    + apply Hpart; [lia|done|]. intros k Hk. rewrite Hbits by lia.
      rewrite (byte_testbit g), (byte_testbit b), (byte_testbit o) by done.
      bit_cases. f_equal. lia.
    + apply Hpart; [lia|done|]. intros k Hk. rewrite Hbits by lia.
      rewrite (byte_testbit r), (byte_testbit b), (byte_testbit o) by done.
      bit_cases. f_equal. lia.
    + apply Hpart; [lia|done|]. intros k Hk. rewrite Hbits by lia.
      rewrite (byte_testbit r), (byte_testbit g), (byte_testbit o) by done.
      bit_cases. f_equal. lia.
    + apply Z.bits_inj'. intros k Hk.
      rewrite low_byte_testbit, Hbits by lia.
      rewrite (byte_testbit r), (byte_testbit g), (byte_testbit b),
        (byte_testbit o k) by done.
      bit_cases.
Qed.

Lemma construct_of_toRGBA_witness :
  toRGBA (construct (FromNumber (Some (Int 18))) (Some (Int 52))
                    (Some (Int 86)) (Some (Int 255))) = 305420031 ∧
  construct (FromNumber (Some (Int 305420031))) None None None =
  construct (FromNumber (Some (Int 18))) (Some (Int 52)) (Some (Int 86))
            (Some (Int 255)).
Proof.
  apply (construct_of_toRGBA 18 52 86 255); lia.
Defined.

(** *** Hexadecimal strings *)

Lemma hexValue_digit (u : N) (x : Z) :
  hexValue u = Some x →
  isWhiteSpace u = false ∧ u ≠ 45%N ∧ u ≠ 43%N ∧ u ≠ 120%N ∧ u ≠ 88%N ∧
  0 ≤ x ≤ 15.
Proof.
  intros Hu.
  assert (Hrange : (48 ≤ u ≤ 102)%N ∧ 0 ≤ x ≤ 15).
  { unfold hexValue in Hu.
    repeat match type of Hu with
    | (if ?c then _ else _) = _ =>
        let E := fresh "E" in destruct c eqn:E;
        [apply andb_prop in E as [?%N.leb_le ?%N.leb_le]|]
    end; simplify_eq; lia. }
  split_and!; try lia; [|by intros ->].
  apply bool_decide_eq_false. intros Hin.
  repeat (apply elem_of_cons in Hin as [Hin|Hin]; [lia|]).
  by apply elem_of_nil in Hin.
Qed.

Lemma hexValue_bound (u : N) (x : Z) : hexValue u = Some x → 0 ≤ x ≤ 15.
Proof. intros Hu. by destruct (hexValue_digit u x Hu) as (_&_&_&_&_&?). Qed.

Ltac refute_units :=
  let H := fresh in
  intros H; first [destruct H as [H|H]; congruence | congruence].

(** Two digits parse to their value. *)
Lemma parseInt16_digits (a b : N) (x y : Z) :
  hexValue a = Some x → hexValue b = Some y →
  parseInt16 [a; b] = Int (x * 16 + y).
Proof.
  intros Ha Hb.
  destruct (hexValue_digit a x Ha) as (Hws & H45 & H43 & _ & _ & _).
  destruct (hexValue_digit b y Hb) as (_ & _ & _ & H120 & H88 & _).
  unfold parseInt16. cbn [trimStart]. rewrite Hws. cbn [head tail].
  rewrite (bool_decide_eq_false_2 (Some a = Some 45%N ∨ _)) by refute_units.
  rewrite (bool_decide_eq_false_2 (Some a = Some 45%N)) by refute_units.
  cbn [take]. rewrite bool_decide_eq_false_2 by refute_units.
  cbn [hexPrefix]. rewrite Ha. cbn [hexPrefix]. rewrite Hb.
  cbn [from_option id]. f_equal. lia.
Qed.

(** One code unit parses, times 17, to what the unit doubled parses to. *)
Lemma parseInt16_doubled (u : N) :
  times17 (parseInt16 [u]) = parseInt16 [u; u].
Proof.
  destruct (decide (u = 45%N)) as [->|H45]; [done|].
  destruct (decide (u = 43%N)) as [->|H43]; [done|].
  unfold parseInt16. cbn [trimStart].
  destruct (isWhiteSpace u) eqn:Hws; [done|]. cbn [head tail].
  rewrite !(bool_decide_eq_false_2 (Some u = Some 45%N ∨ _))
    by refute_units.
  rewrite !(bool_decide_eq_false_2 (Some u = Some 45%N)) by refute_units.
  cbn [take]. rewrite !bool_decide_eq_false_2 by refute_units.
  cbn [hexPrefix]. destruct (hexValue u) as [x|] eqn:Hu; [|done].
  cbn [hexPrefix]. rewrite ?Hu. cbn [hexPrefix from_option id times17].
  f_equal. lia.
Qed.

(** The two digits of a number between 0 and 255. *)
Lemma to2DigitHex_byte (r : Z) :
  0 ≤ r ≤ 255 →
  to2DigitHex (Some (Int r)) =
  Returned [hexDigit (r / 16); hexDigit (r mod 16)].
Proof.
  intros Hr.
  assert (Htable :
    forallb (λ k : nat,
      match to2DigitHex (Some (Int (Z.of_nat k))) with
      | Returned h =>
          bool_decide (h = [hexDigit (Z.of_nat k / 16);
                            hexDigit (Z.of_nat k mod 16)])
      | Thrown => false
      end) (seq 0 256) = true) by (vm_compute; reflexivity).
  rewrite forallb_forall in Htable.
  specialize (Htable (Z.to_nat r)). rewrite Z2Nat.id in Htable by lia.
  assert (Hin : In (Z.to_nat r) (seq 0 256)) by (apply in_seq; lia).
  specialize (Htable Hin).
  destruct (to2DigitHex (Some (Int r))) as [h|]; [|done].
  apply bool_decide_eq_true_1 in Htable. by f_equal.
Qed.

Lemma hexValue_hexDigit (d : Z) : 0 ≤ d ≤ 15 → hexValue (hexDigit d) = Some d.
Proof.
  intros Hd.
  assert (d = 0 ∨ d = 1 ∨ d = 2 ∨ d = 3 ∨ d = 4 ∨ d = 5 ∨ d = 6 ∨ d = 7 ∨
          d = 8 ∨ d = 9 ∨ d = 10 ∨ d = 11 ∨ d = 12 ∨ d = 13 ∨ d = 14 ∨
          d = 15) as Hcases by lia.
  repeat (destruct Hcases as [->|Hcases]; [done|]). by subst.
Qed.

Lemma parseInt16_of_byte (v : Z) :
  0 ≤ v ≤ 255 → parseInt16 [hexDigit (v / 16); hexDigit (v mod 16)] = Int v.
Proof.
  intros Hv.
  pose proof (Z.div_mod v 16). pose proof (Z.mod_pos_bound v 16).
  rewrite (parseInt16_digits _ _ (v / 16) (v mod 16))
    by (apply hexValue_hexDigit; lia).
  f_equal. lia.
Qed.

(** X15 — toHexString, to2DigitHex and the constructor of ColorUtilities.ts:
    for red, green and blue between 0 and 255, whatever the opacity,
    [toHexString] returns a string of seven code units, and the colour
    constructed from that string has the same red, green and blue, with
    opacity 255. *)
Theorem hex_string_round_trip (r g b : Z) (o : option JsNumber) :
  0 ≤ r ≤ 255 → 0 ≤ g ≤ 255 → 0 ≤ b ≤ 255 →
  let c := construct (FromNumber (Some (Int r))) (Some (Int g))
                     (Some (Int b)) o in
  ∃ hex,
    (toHexString c).1 = Returned hex ∧
    length hex = 7%nat ∧
    construct (FromString hex) None None None =
    construct (FromNumber (Some (Int r))) (Some (Int g)) (Some (Int b)) None.
Proof.
  intros Hr Hg Hb. cbn zeta.
  eexists. split; [|split].
  - unfold toHexString.
    cbn [construct fromFields _red _green _blue _opacity _hexString].
    rewrite !to2DigitHex_byte by done. cbn [fst]. reflexivity.
  - done.
  - cbn [app construct startsWithHash length Nat.eqb slice drop take
         Nat.sub fromFields].
    by rewrite !parseInt16_of_byte by done.
Qed.

Lemma hex_string_round_trip_witness :
  ∃ hex,
    (toHexString (construct (FromNumber (Some (Int 18))) (Some (Int 171))
                            (Some (Int 0)) (Some (Int 64)))).1 =
    Returned hex ∧
    length hex = 7%nat ∧
    construct (FromString hex) None None None =
    construct (FromNumber (Some (Int 18))) (Some (Int 171)) (Some (Int 0))
              None.
Proof.
  apply (hex_string_round_trip 18 171 0 (Some (Int 64))); lia.
Defined.

(** X16 — constructor of ColorUtilities.ts: the short form [#rgb] gives the
    colour of the long form with every code unit doubled, [#rrggbb],
    whatever the three code units are. *)
Theorem short_hex_is_doubled (r g b : N) :
  construct (FromString [35%N; r; g; b]) None None None =
  construct (FromString [35%N; r; r; g; g; b; b]) None None None.
Proof.
  cbn [construct startsWithHash length Nat.eqb slice drop take Nat.sub].
  by rewrite !parseInt16_doubled.
Qed.

(** X17 — constructor of ColorUtilities.ts: in a string of [#] and six
    hexadecimal digits, of either case, each pair of digits is one
    component, [16 * first + second], between 0 and 255, and the opacity is
    255; with eight digits the fourth pair is the opacity. *)
Theorem construct_hex_digits (r1 r2 g1 g2 b1 b2 : N) (x1 x2 y1 y2 z1 z2 : Z) :
  hexValue r1 = Some x1 → hexValue r2 = Some x2 →
  hexValue g1 = Some y1 → hexValue g2 = Some y2 →
  hexValue b1 = Some z1 → hexValue b2 = Some z2 →
  (0 ≤ x1 * 16 + x2 ≤ 255 ∧ 0 ≤ y1 * 16 + y2 ≤ 255 ∧
   0 ≤ z1 * 16 + z2 ≤ 255) ∧
  construct (FromString [35%N; r1; r2; g1; g2; b1; b2]) None None None =
  construct (FromNumber (Some (Int (x1 * 16 + x2))))
            (Some (Int (y1 * 16 + y2))) (Some (Int (z1 * 16 + z2))) None ∧
  ∀ o1 o2 w1 w2,
    hexValue o1 = Some w1 → hexValue o2 = Some w2 →
    0 ≤ w1 * 16 + w2 ≤ 255 ∧
    construct (FromString [35%N; r1; r2; g1; g2; b1; b2; o1; o2])
              None None None =
    construct (FromNumber (Some (Int (x1 * 16 + x2))))
              (Some (Int (y1 * 16 + y2))) (Some (Int (z1 * 16 + z2)))
              (Some (Int (w1 * 16 + w2))).
Proof.
  intros Hr1 Hr2 Hg1 Hg2 Hb1 Hb2.
  pose proof (hexValue_bound _ _ Hr1). pose proof (hexValue_bound _ _ Hr2).
  pose proof (hexValue_bound _ _ Hg1). pose proof (hexValue_bound _ _ Hg2).
  pose proof (hexValue_bound _ _ Hb1). pose proof (hexValue_bound _ _ Hb2).
  split; [lia|]. split.
  - cbn [construct startsWithHash length Nat.eqb slice drop take Nat.sub].
    by rewrite (parseInt16_digits _ _ _ _ Hr1 Hr2),
      (parseInt16_digits _ _ _ _ Hg1 Hg2), (parseInt16_digits _ _ _ _ Hb1 Hb2).
  - intros o1 o2 w1 w2 Ho1 Ho2.
    pose proof (hexValue_bound _ _ Ho1). pose proof (hexValue_bound _ _ Ho2).
    split; [lia|].
    cbn [construct startsWithHash length Nat.eqb slice drop take Nat.sub].
    by rewrite (parseInt16_digits _ _ _ _ Hr1 Hr2),
      (parseInt16_digits _ _ _ _ Hg1 Hg2), (parseInt16_digits _ _ _ _ Hb1 Hb2),
      (parseInt16_digits _ _ _ _ Ho1 Ho2).
Qed.

Lemma construct_hex_digits_witness :
  (0 ≤ 1 * 16 + 10 ≤ 255 ∧ 0 ≤ 11 * 16 + 12 ≤ 255 ∧
   0 ≤ 0 * 16 + 15 ≤ 255) ∧
  construct (FromString [35; 49; 65; 98; 67; 48; 102]%N) None None None =
  construct (FromNumber (Some (Int (1 * 16 + 10))))
            (Some (Int (11 * 16 + 12))) (Some (Int (0 * 16 + 15))) None ∧
  ∀ o1 o2 w1 w2,
    hexValue o1 = Some w1 → hexValue o2 = Some w2 →
    0 ≤ w1 * 16 + w2 ≤ 255 ∧
    construct (FromString [35; 49; 65; 98; 67; 48; 102; o1; o2]%N)
              None None None =
    construct (FromNumber (Some (Int (1 * 16 + 10))))
              (Some (Int (11 * 16 + 12))) (Some (Int (0 * 16 + 15)))
              (Some (Int (w1 * 16 + w2))).
Proof.
  apply (construct_hex_digits 49 65 98 67 48 102 1 10 11 12 0 15);
    reflexivity.
Defined.

(** X18 — constructor, toHexString, toRGBA and opacity of ColorUtilities.ts:
    a string that does not start with [#], or whose length is none of 4, 7
    and 9 (a colour name, or the five code units of [#rgba], whose branch
    repeats the test for length 4 and is never taken), leaves the four
    components undefined.  On such a colour [toHexString] throws and caches
    nothing, [toRGBA] is 0, and [opacity] gives the colour with all four
    components 0, whatever opacity is asked for. *)
Theorem malformed_string_colour (stringColor : JsString)
    (green blue alpha : option JsNumber) :
  startsWithHash stringColor = false ∨
  (length stringColor ≠ 4 ∧ length stringColor ≠ 7 ∧
   length stringColor ≠ 9)%nat →
  let c := construct (FromString stringColor) green blue alpha in
  c = fromFields None None None None ∧
  toHexString c = (Thrown, c) ∧
  toRGBA c = 0 ∧
  ∀ newOpacity,
    opacity c newOpacity =
    fromFields (Some (Int 0)) (Some (Int 0)) (Some (Int 0)) (Some (Int 0)).
Proof.
  intros Hbad. cbn zeta.
  assert (Hc : construct (FromString stringColor) green blue alpha =
               fromFields None None None None).
  { cbn [construct]. destruct Hbad as [->|(H4 & H7 & H9)]; [done|].
    destruct (startsWithHash stringColor); [|done].
    apply Nat.eqb_neq in H4, H7, H9. by rewrite H4, H7, H9. }
  rewrite Hc. done.
Qed.

Lemma malformed_string_colour_witness :
  construct (FromString [35; 102; 48; 48; 56]%N) None None None =
  fromFields None None None None ∧
  toHexString (construct (FromString [35; 102; 48; 48; 56]%N) None None None) =
  (Thrown, construct (FromString [35; 102; 48; 48; 56]%N) None None None) ∧
  toRGBA (construct (FromString [35; 102; 48; 48; 56]%N) None None None) = 0 ∧
  ∀ newOpacity,
    opacity (construct (FromString [35; 102; 48; 48; 56]%N) None None None)
            newOpacity =
    fromFields (Some (Int 0)) (Some (Int 0)) (Some (Int 0)) (Some (Int 0)).
Proof.
  apply (malformed_string_colour [35; 102; 48; 48; 56]%N None None None).
  right. cbn [length]. lia.
Defined.

(** X19 — toHexString and to2DigitHex of ColorUtilities.ts: [toHexString]
    throws exactly when nothing is cached and red, green or blue is
    undefined, and then leaves the object as it was.  When it returns a
    string, the object keeps its four components and its packed value, and
    a second call returns the same string and changes nothing. *)
Theorem toHexString_cache (c : Color) :
  ((toHexString c).1 = Thrown ↔
   _hexString c = None ∧
   (_red c = None ∨ _green c = None ∨ _blue c = None)) ∧
  ((toHexString c).1 = Thrown → (toHexString c).2 = c) ∧
  ∀ hex,
    (toHexString c).1 = Returned hex →
    let c' := (toHexString c).2 in
    _red c' = _red c ∧ _green c' = _green c ∧ _blue c' = _blue c ∧
    _opacity c' = _opacity c ∧ toRGBA c' = toRGBA c ∧
    toHexString c' = (Returned hex, c').
Proof.
  unfold toHexString.
  destruct c as [r g b o h s]. cbn [_hexString _red _green _blue _opacity].
  destruct h as [h|].
  { cbn [fst snd]. split_and!; [split; [done|by intros [? _]]|done|].
    intros hex [= ->]. done. }
  destruct r as [r|], g as [g|], b as [b|]; cbn [to2DigitHex fst snd];
    (split_and!; [split; [try done; by eauto|try done; intros [_ Hu];
      by destruct Hu as [?|[?|?]]]|done|]);
    intros hex [= <-]; done.
Qed.

Lemma toHexString_cache_witness :
  let c := construct (FromNumber (Some (Int 18))) (Some (Int 52))
                     (Some (Int 86)) None in
  ∃ hex,
    (toHexString c).1 = Returned hex ∧
    toHexString (toHexString c).2 = (Returned hex, (toHexString c).2).
Proof.
  cbn zeta. eexists. split; [reflexivity|].
  destruct (toHexString_cache
              (construct (FromNumber (Some (Int 18))) (Some (Int 52))
                         (Some (Int 86)) None)) as (_ & _ & Hcached).
  apply (Hcached _ eq_refl).
Defined.




